(** * deps: dependency resolution over a library index

    A shallow embedding of [deps/graph.go]: the edge index
    ([LibraryIndex]), the per-library constraint store ([Available]), the
    partial assignment ([Configuration]) and the search [findFirst] that
    [Resolve] drives.  Go maps are [gmap]s; a [range] over a map visits
    its entries in an order the language leaves open, which the model
    takes as a parameter. *)

From Stdlib Require Import ZArith NArith Ascii String.
From stdpp Require Import gmap strings list fin_maps sorting.

Set Warnings "-clear-no-such-hyp".
Local Open Scope Z_scope.

(** ** github.com/blang/semver

    The version type of the semver package that [graph.go] imports.  The
    package is not part of this repository; the model follows its
    precedence rules: three numeric fields compared in turn, then the
    pre-release identifiers (none is newer than some; numeric ones sort
    before alphanumeric ones), and build metadata that takes no part. *)
Module semver.

Record PRVersion := {
  VersionStr : string;
  VersionNum : N;
  IsNum : bool
}.

Record Version := {
  Major : N;
  Minor : N;
  Patch : N;
  Pre : list PRVersion;
  Build : list string
}.

#[global] Instance PRVersion_eq_dec : EqDecision PRVersion.
Proof. solve_decision. Defined.

#[global] Instance Version_eq_dec : EqDecision Version.
Proof. solve_decision. Defined.

(** Go's three-way comparison of unsigned integers and of strings
    (bytewise), as the integers -1, 0, 1. *)
Definition cmpN (a b : N) : Z :=
  if N.eqb a b then 0 else if N.ltb b a then 1 else -1.

Definition cmpString (a b : string) : Z :=
  if String.eqb a b then 0 else if String.ltb b a then 1 else -1.

Definition PRVersion_Compare (v o : PRVersion) : Z :=
  if IsNum v && negb (IsNum o) then -1
  else if negb (IsNum v) && IsNum o then 1
  else if IsNum v && IsNum o then cmpN (VersionNum v) (VersionNum o)
  else cmpString (VersionStr v) (VersionStr o).

(** The loop of [Version.Compare] over the two pre-release lists: the
    first differing position decides, then the longer list is greater. *)
Fixpoint comparePre (v o : list PRVersion) : Z :=
  match v, o with
  | [], [] => 0
  | [], _ :: _ => -1
  | _ :: _, [] => 1
  | x :: v', y :: o' =>
      let comp := PRVersion_Compare x y in
      if comp =? 0 then comparePre v' o'
      else if comp =? 1 then 1 else -1
  end.

Definition Compare (v o : Version) : Z :=
  if negb (N.eqb (Major v) (Major o)) then
    (if N.ltb (Major o) (Major v) then 1 else -1)
  else if negb (N.eqb (Minor v) (Minor o)) then
    (if N.ltb (Minor o) (Minor v) then 1 else -1)
  else if negb (N.eqb (Patch v) (Patch o)) then
    (if N.ltb (Patch o) (Patch v) then 1 else -1)
  else match Pre v, Pre o with
       | [], [] => 0
       | [], _ :: _ => 1
       | _ :: _, [] => -1
       | pv, po => comparePre pv po
       end.

End semver.

(** ** Names, pointers to versions, edges *)

Abbreviation LibraryName := string.

(** A [*semver.Version]: the address identifies the object, the pointee
    is its (immutable) content.  Two pointers are the same map key exactly
    when they are the same record; in a consistent heap the address alone
    decides that. *)
Record VersionPtr := {
  addr : N;
  pointee : semver.Version
}.

#[global] Instance VersionPtr_eq_dec : EqDecision VersionPtr.
Proof. solve_decision. Defined.

(** [ver.Compare(other)] through pointers. *)
Definition ptrCompare (v o : VersionPtr) : Z :=
  semver.Compare (pointee v) (pointee o).

Record uniqueLibrary := {
  name : LibraryName;
  ver : VersionPtr
}.

Record dependency := {
  library : uniqueLibrary;
  dependsOn : uniqueLibrary
}.

#[global] Instance PRVersion_countable : Countable semver.PRVersion.
Proof.
  refine (inj_countable'
    (λ p, (semver.VersionStr p, semver.VersionNum p, semver.IsNum p))
    (λ t, semver.Build_PRVersion t.1.1 t.1.2 t.2) _).
  by intros [].
Defined.

#[global] Instance Version_countable : Countable semver.Version.
Proof.
  refine (inj_countable'
    (λ v, (semver.Major v, semver.Minor v, semver.Patch v,
           semver.Pre v, semver.Build v))
    (λ t, semver.Build_Version t.1.1.1.1 t.1.1.1.2 t.1.1.2 t.1.2 t.2) _).
  by intros [].
Defined.

#[global] Instance VersionPtr_countable : Countable VersionPtr.
Proof.
  refine (inj_countable' (λ p, (addr p, pointee p))
                         (λ t, Build_VersionPtr t.1 t.2) _).
  by intros [].
Defined.

(** ** VersionList *)

(** Modelled from the spec: the type [VersionList] and its methods
    [NewVersionList], [Contains], [Add], [Len], [Intersection] and
    [ReverseSort] are declared in a file of package [deps] that is not
    among the sources.  [graph.go] ranges over a [*VersionList] and gets
    [*semver.Version] elements, so it is a slice of version pointers.  The
    operations follow section 4.1 of the specification: containment by
    value equality, [Add] that does not re-add a duplicate by value, an
    intersection that keeps the versions present in both operands, and a
    descending (newest-first) sort. *)
Abbreviation VersionList := (list VersionPtr).

Definition NewVersionList : VersionList := [].

Definition Contains (vl : VersionList) (v : VersionPtr) : bool :=
  existsb (λ x, ptrCompare x v =? 0) vl.

Definition Add (vl : VersionList) (v : VersionPtr) : VersionList :=
  if Contains vl v then vl else vl ++ [v].

Definition Len (vl : VersionList) : nat := length vl.

Definition Intersection (vl other : VersionList) : VersionList :=
  List.filter (λ x, Contains other x) vl.

(** [a] sorts before [b] in a newest-first list. *)
Definition newerEq (a b : VersionPtr) : Prop := 0 ≤ ptrCompare a b.

#[global] Instance newerEq_dec : RelDecision newerEq.
Proof. intros a b. unfold newerEq. apply _. Defined.

Definition ReverseSort (vl : VersionList) : VersionList :=
  merge_sort newerEq vl.

(** ** The types of [graph.go]

    [Configuration] is [map[LibraryName]*semver.Version]; its zero value,
    the nil map, is [None].  [Available] is
    [map[LibraryName]*VersionList].  [LibraryIndex] is a struct whose only
    field is the slice of edges. *)
Abbreviation Configuration := (option (gmap LibraryName VersionPtr)).
Abbreviation Available := (gmap LibraryName VersionList).
Abbreviation LibraryIndex := (list dependency).

(** ** LibraryIndex: the slice of edges *)

Definition MakeLibraryIndex : LibraryIndex := [].

Definition AddDependency (index : LibraryIndex)
    (lib : LibraryName) (libver : VersionPtr)
    (deplib : LibraryName) (depver : VersionPtr) : LibraryIndex :=
  let library := {| name := lib; ver := libver |} in
  let dependsOn := {| name := deplib; ver := depver |} in
  let dep := {| library := library; dependsOn := dependsOn |} in
  index ++ [dep].

(** ** Go maps *)

Section Maps.
(** The order in which one [for k, v := range m] visits the keys of the
    map, given as a rearrangement of the list of its keys. *)
Variable range : ∀ A : Type, list A → list A.

Definition rangeMap `{Countable K} {V} (m : gmap K V) : list (K * V) :=
  omap (λ k, (k,.) <$> m !! k) (range K (elements (dom m))).

(** *** Configuration: [map[LibraryName]*semver.Version], possibly nil *)

(** [None] is the nil map (the zero value of a named result); reading it
    behaves as reading an empty map. *)
Definition entries (conf : Configuration)
  : gmap LibraryName VersionPtr := default ∅ conf.

(** The clone is a freshly made map, never nil. *)
Definition Configuration_Clone (conf : Configuration)
  : gmap LibraryName VersionPtr :=
  foldl (λ clone kv, <[kv.1 := kv.2]> clone) ∅ (rangeMap (entries conf)).

(** *** Available: [map[LibraryName]*VersionList] *)

Definition Available_Clone (a : Available) : Available :=
  foldl (λ clone kv, <[kv.1 := kv.2]> clone) ∅ (rangeMap a).

Definition Refine (a subset : Available) : Available :=
  foldl (λ ret kv,
           match subset !! kv.1 with
           | None => <[kv.1 := kv.2]> ret
           | Some v2 => <[kv.1 := Intersection kv.2 v2]> ret
           end) ∅ (rangeMap a).

Definition Empty (a : Available) : list LibraryName :=
  foldl (λ ret kv, if Nat.eqb (Len kv.2) 0 then ret ++ [kv.1] else ret)
        [] (rangeMap a).

(** *** LibraryIndex: queries over the slice of edges *)

(** [present] is keyed by pointer; [Add] then works by value. *)
Definition Versions (index : LibraryIndex) (lib : LibraryName)
  : VersionList :=
  let present :=
    foldl (λ (present : gmap VersionPtr bool) dep,
             if bool_decide (name (library dep) = lib)
             then <[ver (library dep) := true]> present
             else present) ∅ index in
  let vl := foldl (λ vl kv, Add vl kv.1) NewVersionList (rangeMap present) in
  ReverseSort vl.

(** The list stored under a name is shared with [dver], so the version
    added after the store is seen through the map. *)
Definition Dependencies (index : LibraryIndex) (lib : LibraryName)
    (v : VersionPtr) : Available :=
  foldl (λ (depvers : Available) dep,
           if bool_decide (name (library dep) = lib)
              && (ptrCompare v (ver (library dep)) =? 0)
           then
             let dver := default NewVersionList
                                 (depvers !! name (dependsOn dep)) in
             <[name (dependsOn dep) := Add dver (ver (dependsOn dep))]> depvers
           else depvers) ∅ index.

(** *** Errors: the three [fmt.Errorf] messages of [findFirst] *)

(** [%v] of a [[]LibraryName]: the names between brackets, separated by
    spaces. *)
Fixpoint joinNames (names : list LibraryName) : string :=
  match names with
  | [] => ""
  | [n] => n
  | n :: names' => n +:+ " " +:+ joinNames names'
  end.

Definition errChosen (d : LibraryName) : string :=
  "No compatible version of " +:+ d.

Definition errEmpty (empty : list LibraryName) : string :=
  "No compatible versions of: [" +:+ joinNames empty +:+ "]".

Definition errNotFound (lib : LibraryName) : string :=
  "No compatible versions of " +:+ lib +:+ " found".

(** *** One activation of [findFirst] *)

(** What an activation does: it returns a pair (configuration, error),
    or it ends in the tail call [index.findFirst(config, verbose,
    intersection, newlibs...)]. *)
Inductive step :=
| Return (config : Configuration) (err : option string)
| Call (config : Configuration)
       (avail : Available) (rest : list LibraryName).

(** [for _, ver := range *vers { body }; after]: the body either returns
    from the function ([Some]) or runs to its end ([None]) and the loop
    goes on with the next version. *)
Fixpoint rangeVers (vers : VersionList) (body : VersionPtr → option step)
    (after : step) : step :=
  match vers with
  | [] => after
  | v :: vers' =>
      match body v with
      | Some returned => returned
      | None => rangeVers vers' body after
      end
  end.

(** The body of the loop over the candidate versions of [lib], every path
    of which ends in a [return]: with an error, or with the result of the
    recursive call. *)
Definition tryVersion (index : LibraryIndex) (mapped : Configuration)
    (avail : Available) (lib : LibraryName) (rest : list LibraryName)
    (v : VersionPtr) : step :=
  let config := Configuration_Clone mapped in
  let newlibs : list LibraryName := [] in
  let depvers := Dependencies index lib v in
  match List.find (λ kv, match entries mapped !! kv.1 with
                         | Some choice => negb (Contains kv.2 choice)
                         | None => false
                         end) (rangeMap depvers) with
  | Some kv => Return None (Some (errChosen kv.1))
  | None =>
    let depvers := foldl (λ depvers kv, delete kv.1 depvers) depvers
                         (rangeMap (entries mapped)) in
    let newlibs :=
      foldl (λ newlibs kv,
               let found := foldl (λ found n2,
                                     if bool_decide (kv.1 = n2)
                                     then true else found) false rest in
               if negb found then newlibs ++ [kv.1] else newlibs)
            newlibs (rangeMap depvers) in
    let intersection := Refine avail depvers in
    let intersection := delete lib intersection in
    let empty := Empty intersection in
    if (0 <? length empty)%nat then Return None (Some (errEmpty empty))
    else
      let config := <[lib := v]> config in
      let newlibs := newlibs ++ rest in
      Call (Some config) intersection newlibs
  end.

(** The candidate versions of [lib]: the restricted list when [avail]
    has one, else every version known to the index. *)
Definition candidates (index : LibraryIndex)
    (avail : Available) (lib : LibraryName) : VersionList :=
  match avail !! lib with
  | Some vers => vers
  | None => Versions index lib
  end.

Definition findFirstStep (index : LibraryIndex) (mapped : Configuration)
    (avail : Available) (rest : list LibraryName) : step :=
  match rest with
  | [] => Return mapped None
  | lib :: rest =>
    let vers := candidates index avail lib in
    rangeVers vers (λ v, Some (tryVersion index mapped avail lib rest v))
              (Return None (Some (errNotFound lib)))
  end.
End Maps.

Arguments Return config err : assert.
Arguments Call config avail rest : assert.

(** ** The search *)

Section Search.
(** The order of every [range] over a map, per depth of the recursion. *)
Variable sched : nat → ∀ A : Type, list A → list A.

(** [findFirst], with the depth of the activation and a bound on the
    number of nested activations; [None] when the bound is reached.  The
    flag [verbose] only selects log output and is left out. *)
Fixpoint findFirst (fuel depth : nat) (index : LibraryIndex)
    (mapped : Configuration) (avail : Available) (rest : list LibraryName)
  : option (Configuration * option string) :=
  match fuel with
  | O => None
  | S fuel' =>
    match findFirstStep (sched depth) index mapped avail rest with
    | Return config err => Some (config, err)
    | Call config intersection newlibs =>
        findFirst fuel' (S depth) index config intersection newlibs
    end
  end.
End Search.

(** ** Resolve *)

(** The library names that occur in the index, as source or as target. *)
Definition names (index : LibraryIndex) : gset LibraryName :=
  list_to_set ((λ dep, name (library dep)) <$> index)
  ∪ list_to_set ((λ dep, name (dependsOn dep)) <$> index).

(** A bound on the activations still to come: the worklist, twice the
    names of the index neither chosen nor scheduled, and the names of the
    index not chosen yet. *)
Definition measure (index : LibraryIndex) (mapped : Configuration)
    (rest : list LibraryName) : nat :=
  (length rest
   + 2 * size (names index ∖ (dom (entries mapped) ∪ list_to_set rest))
   + size (names index ∖ dom (entries mapped)))%nat.

(** [Resolve] starts the search from the nil configuration (the zero value
    of its named result) and an empty [Available]. *)
Definition Resolve (sched : nat → ∀ A : Type, list A → list A)
    (index : LibraryIndex) (libraries : list LibraryName)
  : option (Configuration * option string) :=
  findFirst sched (S (measure index None libraries)) 0 index None ∅ libraries.

(** ** The store: maps, version lists and the edge slice as shared objects

    Go maps and [*VersionList] values are references.  This second model
    of the same functions keeps every map, every version list and the
    slice of edges as an object in a store, addressed by its location, so
    that two references to one object are seen as such: [Refine] stores in
    its result the very list its receiver holds, and [Dependencies] adds a
    version to a list after storing it in the map.  A computation takes the
    store and returns a result and the new store, or nothing when it
    dereferences a location that holds no object of the expected kind. *)

Inductive object :=
| ConfigurationObj (m : gmap LibraryName VersionPtr)
| AvailableObj (m : gmap LibraryName nat)
| VersionListObj (vl : VersionList)
| EdgesObj (deps : LibraryIndex).

Definition M (A : Type) : Type := list object → option (A * list object).

#[global] Instance M_ret : MRet M := λ A a h, Some (a, h).

#[global] Instance M_bind : MBind M :=
  λ A B f c h, match c h with
               | Some (a, h') => f a h'
               | None => None
               end.

Definition panic {A} : M A := λ _, None.

Definition alloc (o : object) : M nat := λ h, Some (length h, h ++ [o]).

Definition load (l : nat) : M object :=
  λ h, match h !! l with
       | Some o => Some (o, h)
       | None => None
       end.

Definition store (l : nat) (o : object) : M unit :=
  λ h, if decide (l < length h)%nat then Some ((), <[l := o]> h) else None.

Definition loadVersionList (l : nat) : M VersionList :=
  o ← load l; match o with VersionListObj vl => mret vl | _ => panic end.

Definition loadAvailable (l : nat) : M (gmap LibraryName nat) :=
  o ← load l; match o with AvailableObj m => mret m | _ => panic end.

(** Reading the nil configuration is reading an empty map. *)
Definition loadConfiguration (r : option nat) : M (gmap LibraryName VersionPtr) :=
  match r with
  | None => mret ∅
  | Some l => o ← load l;
              match o with ConfigurationObj m => mret m | _ => panic end
  end.

Definition loadEdges (l : nat) : M LibraryIndex :=
  o ← load l; match o with EdgesObj deps => mret deps | _ => panic end.

(** [m[k] = v] and [delete(m, k)] on the map stored at [l]. *)
Definition setConfiguration (l : nat) (k : LibraryName) (v : VersionPtr) : M unit :=
  m ← loadConfiguration (Some l); store l (ConfigurationObj (<[k := v]> m)).

Definition setAvailable (l : nat) (k : LibraryName) (p : nat) : M unit :=
  m ← loadAvailable l; store l (AvailableObj (<[k := p]> m)).

Definition deleteAvailable (l : nat) (k : LibraryName) : M unit :=
  m ← loadAvailable l; store l (AvailableObj (delete k m)).

(** A loop that runs its body on every element, and a loop that stops at
    the first element on which its body answers [true]. *)
Fixpoint forEach {A} (l : list A) (body : A → M unit) : M unit :=
  match l with
  | [] => mret ()
  | x :: l' => body x;; forEach l' body
  end.

Fixpoint findFirstM {A} (p : A → M bool) (l : list A) : M (option A) :=
  match l with
  | [] => mret None
  | x :: l' => p x ≫= λ b : bool, if b then mret (Some x) else findFirstM p l'
  end.

Module Store.
Section Ranged.
Variable range : ∀ A : Type, list A → list A.

(** Modelled from the spec: the methods of [VersionList], declared in a
    file that is not among the sources, on the store.  [NewVersionList]
    returns a pointer to a new empty list; [Add] and [ReverseSort] have a
    pointer receiver and write the list it points to; [Intersection]
    produces a new list and leaves its operands. *)
Definition NewVersionList : M nat := alloc (VersionListObj []).

Definition Add (vl : nat) (v : VersionPtr) : M unit :=
  l ← loadVersionList vl;
  if Contains l v then mret () else store vl (VersionListObj (l ++ [v])).

Definition ReverseSort (vl : nat) : M unit :=
  l ← loadVersionList vl; store vl (VersionListObj (ReverseSort l)).

Definition Intersection (vl other : nat) : M nat :=
  a ← loadVersionList vl; b ← loadVersionList other;
  alloc (VersionListObj (Intersection a b)).

Definition Configuration_Clone (conf : option nat) : M nat :=
  clone ← alloc (ConfigurationObj ∅);
  m ← loadConfiguration conf;
  forEach (rangeMap range m) (λ kv, setConfiguration clone kv.1 kv.2);;
  mret clone.

Definition Refine (a subset : nat) : M nat :=
  ret ← alloc (AvailableObj ∅);
  am ← loadAvailable a;
  forEach (rangeMap range am) (λ kv,
    sm ← loadAvailable subset;
    match sm !! kv.1 with
    | None => setAvailable ret kv.1 kv.2
    | Some v2 => i ← Intersection kv.2 v2; setAvailable ret kv.1 i
    end);;
  mret ret.

Definition Empty (a : nat) : M (list LibraryName) :=
  am ← loadAvailable a;
  foldl (λ (acc : M (list LibraryName)) kv,
           ret ← acc; vl ← loadVersionList kv.2;
           mret (if Nat.eqb (Len vl) 0 then ret ++ [kv.1] else ret))
        (mret []) (rangeMap range am).

Definition Versions (index : nat) (lib : LibraryName) : M nat :=
  deps ← loadEdges index;
  let present :=
    foldl (λ (present : gmap VersionPtr bool) dep,
             if bool_decide (name (library dep) = lib)
             then <[ver (library dep) := true]> present
             else present) ∅ deps in
  vl ← NewVersionList;
  forEach (rangeMap range present) (λ kv, Add vl kv.1);;
  ReverseSort vl;;
  mret vl.

Definition Dependencies (index : nat) (lib : LibraryName) (v : VersionPtr)
  : M nat :=
  depvers ← alloc (AvailableObj ∅);
  deps ← loadEdges index;
  forEach deps (λ dep,
    if bool_decide (name (library dep) = lib)
       && (ptrCompare v (ver (library dep)) =? 0)
    then
      m ← loadAvailable depvers;
      dver ← match m !! name (dependsOn dep) with
             | Some dver => mret dver
             | None => dver ← NewVersionList;
                       setAvailable depvers (name (dependsOn dep)) dver;;
                       mret dver
             end;
      Add dver (ver (dependsOn dep))
    else mret ());;
  mret depvers.

Inductive step :=
| Return (config : option nat) (err : option string)
| Call (config : option nat) (avail : nat) (rest : list LibraryName).

Definition tryVersion (index : nat) (mapped : option nat) (avail : nat)
    (lib : LibraryName) (rest : list LibraryName) (v : VersionPtr) : M step :=
  config ← Configuration_Clone mapped;
  let newlibs : list LibraryName := [] in
  depvers ← Dependencies index lib v;
  m ← loadConfiguration mapped;
  dm ← loadAvailable depvers;
  conflict ← findFirstM (λ kv, match m !! kv.1 with
                               | Some choice =>
                                   vl ← loadVersionList kv.2;
                                   mret (negb (Contains vl choice))
                               | None => mret false
                               end) (rangeMap range dm);
  match conflict with
  | Some kv => mret (Return None (Some (errChosen kv.1)))
  | None =>
    forEach (rangeMap range m) (λ kv, deleteAvailable depvers kv.1);;
    dm ← loadAvailable depvers;
    let newlibs :=
      foldl (λ newlibs kv,
               let found := foldl (λ found n2,
                                     if bool_decide (kv.1 = n2)
                                     then true else found) false rest in
               if negb found then newlibs ++ [kv.1] else newlibs)
            newlibs (rangeMap range dm) in
    intersection ← Refine avail depvers;
    deleteAvailable intersection lib;;
    empty ← Empty intersection;
    if (0 <? length empty)%nat then mret (Return None (Some (errEmpty empty)))
    else
      setConfiguration config lib v;;
      let newlibs := newlibs ++ rest in
      mret (Call (Some config) intersection newlibs)
  end.

(** The loop over the candidates is left during its first iteration, every
    path of its body being a return. *)
Definition findFirstStep (index : nat) (mapped : option nat) (avail : nat)
    (rest : list LibraryName) : M step :=
  match rest with
  | [] => mret (Return mapped None)
  | lib :: rest =>
    am ← loadAvailable avail;
    vers ← match am !! lib with
           | Some vers => mret vers
           | None => Versions index lib
           end;
    vl ← loadVersionList vers;
    match vl with
    | [] => mret (Return None (Some (errNotFound lib)))
    | v :: _ => tryVersion index mapped avail lib rest v
    end
  end.
End Ranged.

Section Search.
Variable sched : nat → ∀ A : Type, list A → list A.

(** The inner [None] is the bound on nested activations being reached. *)
Fixpoint findFirst (fuel depth : nat) (index : nat) (mapped : option nat)
    (avail : nat) (rest : list LibraryName)
  : M (option (option nat * option string)) :=
  match fuel with
  | O => mret None
  | S fuel' =>
    s ← findFirstStep (sched depth) index mapped avail rest;
    match s with
    | Return config err => mret (Some (config, err))
    | Call config intersection newlibs =>
        findFirst fuel' (S depth) index config intersection newlibs
    end
  end.

Definition Resolve (index : nat) (libraries : list LibraryName)
  : M (option (option nat * option string)) :=
  deps ← loadEdges index;
  avail ← alloc (AvailableObj ∅);
  findFirst (S (measure deps None libraries)) 0 index None avail libraries.
End Search.
End Store.

(** ** What a store stands for, and what a computation on it does *)

(** [c], run in the store [h], returns, and its result and final store
    satisfy [Q]. *)
Definition wp {A} (c : M A) (h : list object) (Q : A → list object → Prop)
  : Prop :=
  ∃ a h', c h = Some (a, h') ∧ Q a h'.

(** The objects below [n] are the same in [h'] as in [h], and no location
    of [h] is lost. *)
Definition preserved (n : nat) (h h' : list object) : Prop :=
  (length h ≤ length h')%nat ∧ ∀ l, (l < n)%nat → h' !! l = h !! l.

Definition repList (h : list object) (l : nat) (vl : VersionList) : Prop :=
  h !! l = Some (VersionListObj vl).

Definition repAvail (h : list object) (l : nat) (a : Available) : Prop :=
  ∃ m, h !! l = Some (AvailableObj m)
       ∧ ∀ k, option_Forall2 (repList h) (m !! k) (a !! k).

Definition repConf (h : list object) (r : option nat) (c : Configuration)
  : Prop :=
  match r, c with
  | None, None => True
  | Some l, Some m => h !! l = Some (ConfigurationObj m)
  | _, _ => False
  end.

Definition repIndex (h : list object) (l : nat) (deps : LibraryIndex) : Prop :=
  h !! l = Some (EdgesObj deps).

(** The list a location holds, empty when it holds none. *)
Definition derefList (h : list object) (p : nat) : VersionList :=
  match h !! p with
  | Some (VersionListObj vl) => vl
  | _ => []
  end.

Definition repStep (h : list object) (s : Store.step) (s' : step) : Prop :=
  match s, s' with
  | Store.Return c e, Return c' e' => repConf h c c' ∧ e = e'
  | Store.Call c a r, Call c' a' r' =>
      repConf h c c' ∧ repAvail h a a' ∧ r = r'
  | _, _ => False
  end.

(** The result of a search on the store against the result of the search
    on values: both reach the bound, or both return, the same error and a
    configuration that stands for the same map. *)
Definition repResult (h : list object)
    (r : option (option nat * option string))
    (r' : option (Configuration * option string))
  : Prop :=
  match r, r' with
  | None, None => True
  | Some (config, err), Some (config', err') =>
      repConf h config config' ∧ err = err'
  | _, _ => False
  end.

(** ** Notions used in the statements *)

(** A three-way comparison with values -1, 0, 1 that is a total preorder. *)
Class ZOrder {A} (c : A → A → Z) : Prop := {
  zo_range a b : c a b = -1 ∨ c a b = 0 ∨ c a b = 1;
  zo_antisym a b : c a b = - c b a;
  zo_eq_l a b x : c a b = 0 → c a x = c b x;
  zo_trans a b x : c a b = 1 → c b x = 1 → c a x = 1
}.

(** Lexicographic combination: the first non-zero result decides. *)
Definition lexZ (x y : Z) : Z := if x =? 0 then y else x.

(** The pre-release part of [Version.Compare]: a version without
    pre-release identifiers is newer than one with. *)
Definition preCompare (pv po : list semver.PRVersion) : Z :=
  match pv, po with
  | [], [] => 0
  | [], _ :: _ => 1
  | _ :: _, [] => -1
  | _, _ => semver.comparePre pv po
  end.

(** How many elements of a list have the value of [v]. *)
Definition countValue (v : VersionPtr) (vl : VersionList) : nat :=
  length (filter (λ x, ptrCompare x v = 0) vl).

(** The edges that [Dependencies index lib v] takes into account, and the
    versions they allow for the dependency [d], in the order of the
    index. *)
Definition matchingEdge (lib : LibraryName) (v : VersionPtr)
    (dep : dependency) : bool :=
  bool_decide (name (library dep) = lib)
  && (ptrCompare v (ver (library dep)) =? 0).

Definition targetsOf (index : LibraryIndex) (lib : LibraryName)
    (v : VersionPtr) (d : LibraryName) : list VersionPtr :=
  (λ dep, ver (dependsOn dep)) <$>
    List.filter (λ dep, matchingEdge lib v dep
                        && bool_decide (name (dependsOn dep) = d)) index.

(** ** The completeness invariant *)

(** For every edge whose source the configuration selects (by value) and
    whose target it assigns, the assigned target version is among the
    versions that the edges from that source allow for the target. *)
Definition complete (index : LibraryIndex)
    (conf : gmap LibraryName VersionPtr) : bool :=
  forallb (λ dep,
    match conf !! name (library dep), conf !! name (dependsOn dep) with
    | Some v, Some d =>
        if ptrCompare v (ver (library dep)) =? 0
        then Contains (default [] (Dependencies index (name (library dep)) v
                                     !! name (dependsOn dep))) d
        else true
    | _, _ => true
    end) index.

(** ** Sample indexes *)

(** A [range] that visits the keys in the order of the key list. *)
Definition inOrder : ∀ A : Type, list A → list A := λ _ l, l.

Definition inOrderSched : nat → ∀ A : Type, list A → list A := λ _, inOrder.

(** The version [major.minor.patch], allocated at address [a]. *)
Definition version (a major minor patch : N) : VersionPtr :=
  {| addr := a;
     pointee := {| semver.Major := major; semver.Minor := minor;
                   semver.Patch := patch; semver.Pre := []; semver.Build := [] |} |}.

(** X@1.0.0 -> Y@1.0.0, Y@1.0.0 -> X@1.0.0, Y@2.0.0 -> X@1.0.0. *)
Definition cycleIndex : LibraryIndex :=
  AddDependency
    (AddDependency
       (AddDependency MakeLibraryIndex "X" (version 1 1 0 0) "Y" (version 2 1 0 0))
       "Y" (version 3 1 0 0) "X" (version 4 1 0 0))
    "Y" (version 5 2 0 0) "X" (version 6 1 0 0).

(** A@2.0.0 -> Z@1.0.0 with no version of Z known, A@1.0.0 -> B@1.0.0,
    B@1.0.0 -> A@1.0.0. *)
Definition retryIndex : LibraryIndex :=
  AddDependency
    (AddDependency
       (AddDependency MakeLibraryIndex "A" (version 1 2 0 0) "Z" (version 2 1 0 0))
       "A" (version 3 1 0 0) "B" (version 4 1 0 0))
    "B" (version 5 1 0 0) "A" (version 6 1 0 0).

(** Y@1.0.0 -> X@1.0.0, Y@1.0.0 -> X@2.0.0: the versions of X occur only as
    targets. *)
Definition leafIndex : LibraryIndex :=
  AddDependency
    (AddDependency MakeLibraryIndex "Y" (version 1 1 0 0) "X" (version 2 1 0 0))
    "Y" (version 1 1 0 0) "X" (version 3 2 0 0).

(** X@1.0.0 -> X@1.0.0, X@2.0.0 -> X@2.0.0. *)
Definition selfIndex : LibraryIndex :=
  AddDependency
    (AddDependency MakeLibraryIndex "X" (version 1 1 0 0) "X" (version 2 1 0 0))
    "X" (version 3 2 0 0) "X" (version 4 2 0 0).

(** Version 1.0.0 of X as three distinct objects, one of them with build
    metadata, and version 0.9.0: X@1.0.0 -> Y@1.0.0, X@0.9.0 -> Y@1.0.0,
    X@1.0.0 -> Y@1.1.0, X@1.0.0+b7 -> Y@1.0.0. *)
Definition duplicateIndex : LibraryIndex :=
  AddDependency
    (AddDependency
       (AddDependency
          (AddDependency MakeLibraryIndex
             "X" (version 1 1 0 0) "Y" (version 2 1 0 0))
          "X" (version 3 0 9 0) "Y" (version 2 1 0 0))
       "X" (version 4 1 0 0) "Y" (version 5 1 1 0))
    "X" {| addr := 6;
           pointee := {| semver.Major := 1; semver.Minor := 0;
                         semver.Patch := 0; semver.Pre := [];
                         semver.Build := ["b7"] |} |}
    "Y" (version 2 1 0 0).

(** A store that holds the edges of [cycleIndex], the configuration
    X -> 1.0.0, the version list [2.0.0; 1.0.0] and a constraint store that
    binds Y to that list. *)
Definition sampleStore : list object :=
  [ EdgesObj cycleIndex;
    ConfigurationObj {[ "X" := version 1 1 0 0 ]};
    VersionListObj [version 5 2 0 0; version 3 1 0 0];
    AvailableObj {[ "Y" := 2%nat ]} ].

(** ** Further notions used in the statements *)

(** The constraint that an activation for [lib] at version [v] hands on
    for the name [n]: none for [lib] itself and for a name without an
    entry in [avail]; else the list of [avail], narrowed to the versions
    that [v] allows when [v] depends on [n] and [n] is not chosen yet. *)
Definition constraintsAfter (index : LibraryIndex) (mapped : Configuration)
    (avail : Available) (lib : LibraryName) (v : VersionPtr)
    (n : LibraryName) : option VersionList :=
  if bool_decide (n = lib) then None
  else match avail !! n with
       | None => None
       | Some vl =>
           Some (match Dependencies index lib v !! n, entries mapped !! n with
                 | Some allowed, None => Intersection vl allowed
                 | _, _ => vl
                 end)
       end.

(** [v] is a source version of [lib] in the index than which no source
    version of [lib] is newer. *)
Definition newest (index : LibraryIndex) (lib : LibraryName)
    (v : VersionPtr) : Prop :=
  (∃ dep, dep ∈ index ∧ name (library dep) = lib ∧ ver (library dep) = v)
  ∧ ∀ dep, dep ∈ index → name (library dep) = lib →
           0 ≤ ptrCompare v (ver (library dep)).


(** ** Further objects of the store *)

(** [Available.Clone] on the store: the new map is given the pointers of
    the receiver, not copies of the lists they point to. *)
Module StoreAvailable.
Section Ranged.
Variable range : ∀ A : Type, list A → list A.

Definition Available_Clone (a : nat) : M nat :=
  clone ← alloc (AvailableObj ∅);
  am ← loadAvailable a;
  forEach (rangeMap range am) (λ kv, setAvailable clone kv.1 kv.2);;
  mret clone.
End Ranged.
End StoreAvailable.

(** Version 1.0.0 with build metadata, as an object of its own. *)
Definition version100b7 : VersionPtr :=
  {| addr := 9;
     pointee := {| semver.Major := 1; semver.Minor := 0; semver.Patch := 0;
                   semver.Pre := []; semver.Build := ["b7"] |} |}.

(** A store that holds the version list [1.0.0] and a constraint store
    that binds Y to that list. *)
Definition listStore : list object :=
  [ VersionListObj [version 3 1 0 0];
    AvailableObj {[ "Y" := 0%nat ]} ].


(** * Properties *)

(** ** The order of versions *)

Section ZOrderFacts.
Context `{ZOrder A c}.

Lemma zo_refl a : c a a = 0.
Proof. pose proof (zo_antisym (c:=c) a a). lia. Qed.

Lemma zo_eq_r a b x : c a b = 0 → c x a = c x b.
Proof.
  intros E. rewrite (zo_antisym (c:=c) x a), (zo_antisym (c:=c) x b).
  by rewrite (zo_eq_l (c:=c) a b x E).
Qed.

Lemma zo_sym a b : c a b = 0 → c b a = 0.
Proof. rewrite (zo_antisym (c:=c) b a). lia. Qed.

Lemma zo_ge_trans a b x : 0 ≤ c a b → 0 ≤ c b x → 0 ≤ c a x.
Proof.
  intros Hab Hbx.
  destruct (zo_range (c:=c) a b) as [?|[E|E1]]; [lia| |].
  - by rewrite (zo_eq_l (c:=c) a b x E).
  - destruct (zo_range (c:=c) b x) as [?|[E|E2]]; [lia| |].
    + rewrite <- (zo_eq_r b x a E). lia.
    + rewrite (zo_trans (c:=c) a b x E1 E2). lia.
Qed.
End ZOrderFacts.

Lemma ZOrder_lex {A} (c1 c2 : A → A → Z) :
  ZOrder c1 → ZOrder c2 → ZOrder (λ a b, lexZ (c1 a b) (c2 a b)).
Proof.
  intros H1 H2. unfold lexZ. split.
  - intros a b. destruct (Z.eqb_spec (c1 a b) 0); [apply zo_range|].
    destruct (zo_range (c:=c1) a b); lia.
  - intros a b. rewrite (zo_antisym (c:=c1) a b), (zo_antisym (c:=c2) a b).
    destruct (Z.eqb_spec (c1 b a) 0), (Z.eqb_spec (- c1 b a) 0); lia.
  - intros a b x.
    destruct (Z.eqb_spec (c1 a b) 0) as [E|N].
    + intros E2. rewrite (zo_eq_l (c:=c1) a b x E).
      by rewrite (zo_eq_l (c:=c2) a b x E2).
    + intros ?. lia.
  - intros a b x.
    destruct (Z.eqb_spec (c1 a b) 0) as [E|N].
    + intros E2. rewrite (zo_eq_l (c:=c1) a b x E).
      destruct (Z.eqb_spec (c1 b x) 0); [|done].
      intros E3. apply (zo_trans (c:=c2) a b x E2 E3).
    + intros E1. destruct (Z.eqb_spec (c1 b x) 0) as [E|N'].
      * intros _. rewrite <- (zo_eq_r (c:=c1) b x a E).
        destruct (Z.eqb_spec (c1 a b) 0); lia.
      * intros E2. rewrite (zo_trans (c:=c1) a b x E1 E2). done.
  Qed.

Lemma ZOrder_on {A B} (f : B → A) (c : A → A → Z) :
  ZOrder c → ZOrder (λ a b, c (f a) (f b)).
Proof.
  intros Hc. split; intros.
  - apply zo_range.
  - apply zo_antisym.
  - by apply zo_eq_l.
  - by eapply zo_trans.
Qed.

#[global] Instance cmpN_order : ZOrder semver.cmpN.
Proof.
  split; unfold semver.cmpN; intros;
    repeat match goal with
           | |- context [N.eqb ?a ?b] => destruct (N.eqb_spec a b)
           | |- context [N.ltb ?a ?b] => destruct (N.ltb_spec a b)
           | H : context [N.eqb ?a ?b] |- _ => destruct (N.eqb_spec a b)
           | H : context [N.ltb ?a ?b] |- _ => destruct (N.ltb_spec a b)
           end; subst; try lia.
Qed.

Lemma ascii_compare_trans a b c :
  Ascii.compare a b = Lt → Ascii.compare b c = Lt → Ascii.compare a c = Lt.
Proof.
  unfold Ascii.compare. rewrite !N.compare_lt_iff. apply N.lt_trans.
Qed.

Lemma ascii_compare_refl a : Ascii.compare a a = Eq.
Proof. unfold Ascii.compare. apply N.compare_refl. Qed.

Lemma string_compare_refl a : String.compare a a = Eq.
Proof. induction a as [|x a IH]; [done|]. simpl. by rewrite ascii_compare_refl. Qed.

Lemma string_compare_trans a b c :
  String.compare a b = Lt → String.compare b c = Lt → String.compare a c = Lt.
Proof.
  revert b c. induction a as [|x a IH]; intros [|y b] [|z c]; simpl; try done.
  destruct (Ascii.compare x y) eqn:Exy; try done;
    destruct (Ascii.compare y z) eqn:Eyz; try done; intros Hab Hbc.
  - apply Ascii.compare_eq_iff in Exy, Eyz. subst.
    rewrite ascii_compare_refl. eauto.
  - apply Ascii.compare_eq_iff in Exy. subst. by rewrite Eyz.
  - apply Ascii.compare_eq_iff in Eyz. subst. by rewrite Exy.
  - by rewrite (ascii_compare_trans x y z).
Qed.

Lemma cmpString_compare a b :
  semver.cmpString a b =
  match String.compare a b with Eq => 0 | Lt => -1 | Gt => 1 end.
Proof.
  unfold semver.cmpString, String.ltb.
  destruct (String.eqb_spec a b) as [->|Hne].
  - by rewrite string_compare_refl.
  - rewrite (String.compare_antisym a b).
    destruct (String.compare b a) eqn:E; simpl; try done.
    apply String.compare_eq_iff in E. congruence.
Qed.

#[global] Instance cmpString_order : ZOrder semver.cmpString.
Proof.
  split; intros; rewrite ?cmpString_compare in *.
  - destruct (String.compare a b); auto.
  - rewrite (String.compare_antisym a b).
    by destruct (String.compare b a).
  - destruct (String.compare a b) eqn:E; try done.
    by apply String.compare_eq_iff in E as ->.
  - rewrite (String.compare_antisym a b), (String.compare_antisym b x),
      (String.compare_antisym a x) in *.
    destruct (String.compare b a) eqn:E1; try done.
    destruct (String.compare x b) eqn:E2; try done.
    by rewrite (string_compare_trans x b a).
Qed.

#[global] Instance PRVersion_Compare_order : ZOrder semver.PRVersion_Compare.
Proof.
  split; unfold semver.PRVersion_Compare; intros.
  - destruct (semver.IsNum a), (semver.IsNum b); simpl; auto; apply zo_range.
  - destruct (semver.IsNum a), (semver.IsNum b); simpl; auto; apply zo_antisym.
  - destruct (semver.IsNum a), (semver.IsNum b), (semver.IsNum x);
      simpl in *; try done; by apply zo_eq_l.
  - destruct (semver.IsNum a), (semver.IsNum b), (semver.IsNum x);
      simpl in *; try done; by eapply zo_trans.
Qed.

Lemma comparePre_cons x v y o :
  semver.comparePre (x :: v) (y :: o) =
  lexZ (semver.PRVersion_Compare x y) (semver.comparePre v o).
Proof.
  simpl. unfold lexZ.
  destruct (zo_range (c:=semver.PRVersion_Compare) x y) as [E|[E|E]];
    by rewrite E.
Qed.

#[global] Instance comparePre_order : ZOrder semver.comparePre.
Proof.
  split.
  - intros a. induction a as [|x a IH]; intros [|y b]; simpl; auto.
    destruct (zo_range (c:=semver.PRVersion_Compare) x y) as [E|[E|E]];
      rewrite E; simpl; auto.
  - intros a. induction a as [|x a IH]; intros [|y b]; try done.
    rewrite !comparePre_cons, IH, (zo_antisym (c:=semver.PRVersion_Compare) x y).
    unfold lexZ.
    destruct (Z.eqb_spec (semver.PRVersion_Compare y x) 0),
      (Z.eqb_spec (- semver.PRVersion_Compare y x) 0); lia.
  - intros a. induction a as [|x a IH]; intros [|y b] [|z c]; try done.
    rewrite !comparePre_cons. unfold lexZ.
    destruct (Z.eqb_spec (semver.PRVersion_Compare x y) 0) as [E|]; [|lia].
    intros E2. rewrite (zo_eq_l (c:=semver.PRVersion_Compare) x y z E).
    by rewrite (IH b c E2).
  - intros a. induction a as [|x a IH]; intros [|y b] [|z c]; try done.
    rewrite !comparePre_cons. unfold lexZ.
    destruct (Z.eqb_spec (semver.PRVersion_Compare x y) 0) as [E|N].
    + intros E2. rewrite (zo_eq_l (c:=semver.PRVersion_Compare) x y z E).
      destruct (Z.eqb_spec (semver.PRVersion_Compare y z) 0); [|done].
      intros E3. by apply (IH b c).
    + intros E1. destruct (Z.eqb_spec (semver.PRVersion_Compare y z) 0) as [E|N'].
      * intros _. rewrite <- (zo_eq_r (c:=semver.PRVersion_Compare) y z x E).
        destruct (Z.eqb_spec (semver.PRVersion_Compare x y) 0); lia.
      * intros E2.
        by rewrite (zo_trans (c:=semver.PRVersion_Compare) x y z E1 E2).
Qed.

#[global] Instance preCompare_order : ZOrder preCompare.
Proof.
  split.
  - intros [|x a] [|y b]; unfold preCompare; auto.
    apply (zo_range (c:=semver.comparePre)).
  - intros [|x a] [|y b]; try done.
    apply (zo_antisym (c:=semver.comparePre) (x :: a) (y :: b)).
  - intros [|x a] [|y b] [|z c]; try done. unfold preCompare.
    apply (zo_eq_l (c:=semver.comparePre)).
  - intros [|x a] [|y b] [|z c]; try done. unfold preCompare.
    apply (zo_trans (c:=semver.comparePre)).
Qed.

Lemma Compare_lex v o :
  semver.Compare v o =
  lexZ (semver.cmpN (semver.Major v) (semver.Major o))
    (lexZ (semver.cmpN (semver.Minor v) (semver.Minor o))
       (lexZ (semver.cmpN (semver.Patch v) (semver.Patch o))
          (preCompare (semver.Pre v) (semver.Pre o)))).
Proof.
  unfold semver.Compare, lexZ, semver.cmpN, preCompare.
  repeat match goal with
         | |- context [N.eqb ?a ?b] => destruct (N.eqb_spec a b); simpl
         | |- context [N.ltb ?a ?b] => destruct (N.ltb_spec a b); simpl
         end; try done.
  by destruct (semver.Pre v), (semver.Pre o).
Qed.

#[global] Instance Compare_order : ZOrder semver.Compare.
Proof.
  assert (ZOrder (λ v o,
    lexZ (semver.cmpN (semver.Major v) (semver.Major o))
      (lexZ (semver.cmpN (semver.Minor v) (semver.Minor o))
         (lexZ (semver.cmpN (semver.Patch v) (semver.Patch o))
            (preCompare (semver.Pre v) (semver.Pre o)))))) as Hlex.
  { repeat apply ZOrder_lex;
      try apply (ZOrder_on _ semver.cmpN _);
      apply (ZOrder_on _ preCompare _). }
  split; intros; rewrite ?Compare_lex in *.
  - apply (zo_range (ZOrder:=Hlex)).
  - apply (zo_antisym (ZOrder:=Hlex)).
  - by apply (zo_eq_l (ZOrder:=Hlex)).
  - by eapply (zo_trans (ZOrder:=Hlex)).
Qed.

#[global] Instance ptrCompare_order : ZOrder ptrCompare.
Proof. apply (ZOrder_on pointee semver.Compare _). Qed.

#[global] Instance newerEq_total : Total newerEq.
Proof.
  intros a b. unfold newerEq. rewrite (zo_antisym (c:=ptrCompare) b a). lia.
Qed.

#[global] Instance newerEq_trans : Transitive newerEq.
Proof. intros a b x. apply zo_ge_trans. Qed.

(** ** Ranging over a map *)

Lemma omap_lookup_fst `{Countable K} {V} (m : gmap K V) (l : list K) :
  (omap (λ k, (k,.) <$> m !! k) l).*1 = filter (λ k, is_Some (m !! k)) l.
Proof.
  induction l as [|k l IH]; [done|]. simpl.
  destruct (m !! k) as [v|] eqn:E; simpl.
  - rewrite filter_cons_True by (by rewrite E). simpl. by f_equal.
  - rewrite filter_cons_False by (rewrite E; by intros [? ?]). done.
Qed.

Lemma foldl_insert_lookup `{Countable K} {V W} (h : K * V → W)
    (l : list (K * V)) (m0 : gmap K W) (k : K) :
  NoDup l.*1 →
  foldl (λ acc kv, <[kv.1 := h kv]> acc) m0 l !! k =
  match (list_to_map l : gmap K V) !! k with
  | Some v => Some (h (k, v))
  | None => m0 !! k
  end.
Proof.
  revert m0. induction l as [|[k' v'] l IH]; intros m0 Hnd; [done|].
  apply NoDup_cons in Hnd as [Hk' Hnd]. cbn [foldl fst snd].
  rewrite IH by done. cbn [list_to_map foldr fst snd].
  destruct (decide (k' = k)) as [->|Hne].
  - rewrite lookup_insert_eq.
    by rewrite (not_elem_of_list_to_map_1 l k Hk'), lookup_insert_eq.
  - rewrite !lookup_insert_ne by done. done.
Qed.

Lemma foldl_delete_lookup `{Countable K} {V W} (l : list (K * W))
    (m0 : gmap K V) (k : K) :
  foldl (λ acc kv, delete kv.1 acc) m0 l !! k =
  if decide (k ∈ l.*1) then None else m0 !! k.
Proof.
  revert m0. induction l as [|[k' v'] l IH]; intros m0; [done|].
  cbn [foldl fst]. rewrite IH. cbn [fmap list_fmap fst].
  destruct (decide (k ∈ l.*1)) as [Hin|Hnin].
  - rewrite decide_True; [done|by right].
  - destruct (decide (k' = k)) as [->|Hne].
    + rewrite lookup_delete_eq, decide_True; [done|by left].
    + rewrite lookup_delete_ne by done. rewrite decide_False; [done|].
      intros [->|?]%elem_of_cons; done.
Qed.

Lemma foldl_fun_ext {A B} (f g : A → B → A) (l : list B) (a : A) :
  (∀ a b, f a b = g a b) → foldl f a l = foldl g a l.
Proof.
  intros Hfg. revert a. induction l as [|x l IH]; intros a; [done|].
  simpl. by rewrite Hfg, IH.
Qed.

Lemma foldl_snoc_filter {A B} (p : A → bool) (g : A → B) (l : list A)
    (acc : list B) :
  foldl (λ ret x, if p x then ret ++ [g x] else ret) acc l =
  acc ++ (g <$> List.filter p l).
Proof.
  revert acc. induction l as [|x l IH]; intros acc; simpl.
  - by rewrite app_nil_r.
  - rewrite IH. destruct (p x); simpl; [|done].
    by rewrite <- app_assoc.
Qed.

Lemma foldl_found (n1 : LibraryName) (rest : list LibraryName) (b : bool) :
  foldl (λ found n2, if bool_decide (n1 = n2) then true else found) b rest =
  b || bool_decide (n1 ∈ rest).
Proof.
  revert b. induction rest as [|n2 rest IH]; intros b; cbn [foldl].
  - rewrite (bool_decide_false (n1 ∈ [])); [by rewrite orb_false_r|].
    by intros ?%elem_of_nil.
  - rewrite IH. destruct (decide (n1 = n2)) as [->|Hne].
    + rewrite (bool_decide_true (n2 = n2)) by done.
      rewrite (bool_decide_true (n2 ∈ n2 :: rest)) by left.
      by rewrite orb_true_r.
    + rewrite (bool_decide_false (n1 = n2)) by done.
      f_equal. apply bool_decide_ext. rewrite elem_of_cons. tauto.
Qed.

Section MapFacts.
Variable range : ∀ A : Type, list A → list A.
Hypothesis range_perm : ∀ A (l : list A), range A l ≡ₚ l.

Lemma elem_of_rangeMap `{Countable K} {V} (m : gmap K V) k v :
  (k, v) ∈ rangeMap range m ↔ m !! k = Some v.
Proof.
  unfold rangeMap. rewrite list_elem_of_omap. split.
  - intros [k' [_ Hk']]. destruct (m !! k') eqn:E; [|done].
    simpl in Hk'. by injection Hk' as -> ->.
  - intros Hk. exists k. split; [|by rewrite Hk].
    rewrite range_perm. apply elem_of_elements, elem_of_dom. by eexists.
Qed.

Lemma rangeMap_NoDup `{Countable K} {V} (m : gmap K V) :
  NoDup (rangeMap range m).*1.
Proof.
  unfold rangeMap. rewrite omap_lookup_fst. apply NoDup_filter.
  rewrite range_perm. apply NoDup_elements.
Qed.

Lemma rangeMap_to_map `{Countable K} {V} (m : gmap K V) :
  list_to_map (rangeMap range m) = m.
Proof.
  apply map_eq. intros k. apply option_eq. intros v.
  rewrite <- elem_of_list_to_map by apply rangeMap_NoDup.
  apply elem_of_rangeMap.
Qed.

Lemma elem_of_rangeMap_keys `{Countable K} {V} (m : gmap K V) k :
  k ∈ (rangeMap range m).*1 ↔ is_Some (m !! k).
Proof.
  rewrite list_elem_of_fmap. split.
  - intros [[k' v] [-> Hin]]. apply elem_of_rangeMap in Hin. by eexists.
  - intros [v Hv]. exists (k, v). split; [done|]. by apply elem_of_rangeMap.
Qed.

Lemma Configuration_Clone_entries conf :
  Configuration_Clone range conf = entries conf.
Proof.
  apply map_eq. intros k. unfold Configuration_Clone.
  rewrite (foldl_insert_lookup snd) by apply rangeMap_NoDup.
  rewrite rangeMap_to_map. by destruct (entries conf !! k).
Qed.

Lemma Available_Clone_id a : Available_Clone range a = a.
Proof.
  apply map_eq. intros k. unfold Available_Clone.
  rewrite (foldl_insert_lookup snd) by apply rangeMap_NoDup.
  rewrite rangeMap_to_map. by destruct (a !! k).
Qed.

Lemma Refine_lookup a subset k :
  Refine range a subset !! k =
  match a !! k with
  | None => None
  | Some v => Some (match subset !! k with
                    | None => v
                    | Some v2 => Intersection v v2
                    end)
  end.
Proof.
  unfold Refine.
  rewrite (foldl_fun_ext _
    (λ ret kv, <[kv.1 := match subset !! kv.1 with
                         | None => kv.2
                         | Some v2 => Intersection kv.2 v2
                         end]> ret)).
  2:{ intros ret kv. by destruct (subset !! kv.1). }
  rewrite (foldl_insert_lookup
             (λ kv, match subset !! kv.1 with
                    | None => kv.2
                    | Some v2 => Intersection kv.2 v2
                    end)) by apply rangeMap_NoDup.
  rewrite rangeMap_to_map. by destruct (a !! k).
Qed.

Lemma Refine_dom a subset : dom (Refine range a subset) = dom a.
Proof.
  apply set_eq. intros k. rewrite !elem_of_dom, Refine_lookup.
  destruct (a !! k); [split; eauto|]. split; intros [? ?]; done.
Qed.

Lemma Empty_filter a :
  Empty range a =
  fst <$> List.filter (λ kv, Nat.eqb (Len kv.2) 0) (rangeMap range a).
Proof. unfold Empty. by rewrite foldl_snoc_filter. Qed.

Lemma elem_of_Empty a k :
  k ∈ Empty range a ↔ ∃ vl, a !! k = Some vl ∧ Len vl = 0%nat.
Proof.
  rewrite Empty_filter, list_elem_of_fmap. split.
  - intros [[k' vl] [-> Hin]]. apply list_elem_of_In, filter_In in Hin.
    destruct Hin as [Hin Hlen]. apply list_elem_of_In, elem_of_rangeMap in Hin.
    exists vl. split; [done|]. by apply Nat.eqb_eq.
  - intros [vl [Hk Hlen]]. exists (k, vl). split; [done|].
    apply list_elem_of_In, filter_In. split.
    + by apply list_elem_of_In, elem_of_rangeMap.
    + by apply Nat.eqb_eq.
Qed.
End MapFacts.

(** ** Version lists *)

Lemma Contains_true vl v :
  Contains vl v = true ↔ ∃ x, x ∈ vl ∧ ptrCompare x v = 0.
Proof.
  unfold Contains. rewrite existsb_exists. split.
  - intros [x [Hin Hx]]. exists x. split; [by apply list_elem_of_In|lia].
  - intros [x [Hin Hx]]. exists x. split; [by apply list_elem_of_In|lia].
Qed.

Lemma Contains_app vl1 vl2 v :
  Contains (vl1 ++ vl2) v = Contains vl1 v || Contains vl2 v.
Proof. unfold Contains. apply existsb_app. Qed.

Lemma Contains_eq_r vl v w :
  ptrCompare v w = 0 → Contains vl v = Contains vl w.
Proof.
  intros E. unfold Contains. induction vl as [|x vl IH]; [done|]. simpl.
  by rewrite IH, (zo_eq_r (c:=ptrCompare) v w x E).
Qed.

Lemma Contains_Add vl v w :
  Contains (Add vl v) w = Contains vl w || (ptrCompare v w =? 0).
Proof.
  unfold Add. destruct (Contains vl v) eqn:Hc.
  - destruct (Z.eqb_spec (ptrCompare v w) 0) as [E|_].
    + rewrite <- (Contains_eq_r vl v w E), Hc. done.
    + by rewrite orb_false_r.
  - rewrite Contains_app. simpl. by rewrite orb_false_r.
Qed.

Lemma Contains_foldl_Add ws acc w :
  Contains (foldl Add acc ws) w =
  Contains acc w || existsb (λ x, ptrCompare x w =? 0) ws.
Proof.
  revert acc. induction ws as [|x ws IH]; intros acc; simpl.
  - by rewrite orb_false_r.
  - by rewrite IH, Contains_Add, orb_assoc.
Qed.

Lemma elem_of_Add vl v x : x ∈ Add vl v → x ∈ vl ∨ x = v.
Proof.
  unfold Add. destruct (Contains vl v); [by left|].
  rewrite elem_of_app, list_elem_of_singleton. done.
Qed.

Lemma elem_of_foldl_Add ws acc x :
  x ∈ foldl Add acc ws → x ∈ acc ∨ x ∈ ws.
Proof.
  revert acc. induction ws as [|w ws IH]; intros acc; simpl; [by left|].
  intros [[?| ->]%elem_of_Add|?]%IH; [by left|right; by left|right; by right].
Qed.

Lemma countValue_perm v l1 l2 : l1 ≡ₚ l2 → countValue v l1 = countValue v l2.
Proof. intros Hp. unfold countValue. by rewrite Hp. Qed.

Lemma countValue_pos v vl : Contains vl v = true → (0 < countValue v vl)%nat.
Proof.
  intros [x [Hin Hx]]%Contains_true. unfold countValue.
  assert (x ∈ filter (λ x, ptrCompare x v = 0) vl) as Hf
    by by apply list_elem_of_filter.
  destruct (filter _ vl); [by apply elem_of_nil in Hf|simpl; lia].
Qed.

Lemma countValue_zero v vl : Contains vl v = false → countValue v vl = 0%nat.
Proof.
  intros Hc. unfold countValue.
  destruct (filter _ vl) as [|x l] eqn:E; [done|].
  assert (x ∈ filter (λ x, ptrCompare x v = 0) vl) as Hf by (rewrite E; left).
  apply list_elem_of_filter in Hf as [Hx Hin].
  assert (Contains vl v = true) by (apply Contains_true; eauto). congruence.
Qed.

Lemma countValue_eq_r vl v w :
  ptrCompare v w = 0 → countValue v vl = countValue w vl.
Proof.
  intros E. unfold countValue. f_equal. apply list_filter_iff.
  intros x.
  pose proof (zo_eq_r (c:=ptrCompare) v w x E). split; lia.
Qed.

Lemma countValue_Add vl v w :
  (∀ u, countValue u vl ≤ 1)%nat → (countValue w (Add vl v) ≤ 1)%nat.
Proof.
  intros Hle. unfold Add. destruct (Contains vl v) eqn:Hc; [apply Hle|].
  unfold countValue. rewrite filter_app, length_app.
  destruct (decide (ptrCompare v w = 0)) as [E|N].
  - rewrite (Contains_eq_r vl v w E) in Hc.
    apply countValue_zero in Hc. unfold countValue in Hc. rewrite Hc.
    rewrite filter_cons_True by done. simpl. lia.
  - rewrite filter_cons_False by done. simpl.
    pose proof (Hle w) as Hw. unfold countValue in Hw. lia.
Qed.

Lemma countValue_foldl_Add ws acc :
  (∀ u, countValue u acc ≤ 1)%nat →
  ∀ w, (countValue w (foldl Add acc ws) ≤ 1)%nat.
Proof.
  revert acc. induction ws as [|x ws IH]; intros acc Hacc w; simpl.
  - apply Hacc.
  - apply IH. intros u. by apply countValue_Add.
Qed.

(** A list sorted newest-first without two elements of one value is
    strictly descending. *)
Lemma StronglySorted_strict vl :
  StronglySorted newerEq vl →
  (∀ u, countValue u vl ≤ 1)%nat →
  StronglySorted (λ a b, ptrCompare a b = 1) vl.
Proof.
  induction 1 as [|x vl Hs IH Hx]; intros Hcnt; constructor.
  - apply IH. intros u. specialize (Hcnt u). unfold countValue in *.
    destruct (decide (ptrCompare x u = 0)).
    + rewrite filter_cons_True in Hcnt by done. simpl in Hcnt. lia.
    + by rewrite filter_cons_False in Hcnt.
  - rewrite Forall_forall in *. intros y Hy.
    pose proof (Hx y Hy) as Hge. unfold newerEq in Hge.
    destruct (zo_range (c:=ptrCompare) x y) as [?|[E|?]]; [lia| |done].
    exfalso. specialize (Hcnt x). unfold countValue in Hcnt.
    rewrite filter_cons_True in Hcnt by apply (zo_refl (c:=ptrCompare)).
    assert (y ∈ filter (λ z, ptrCompare z x = 0) vl) as Hf.
    { apply list_elem_of_filter. split; [|done]. by apply (zo_sym (c:=ptrCompare)). }
    destruct (filter _ vl); [by apply elem_of_nil in Hf|simpl in Hcnt; lia].
Qed.

(** ** The index queries *)

(** The pointers that [Versions] collects in its [present] map. *)
Lemma present_lookup (index : LibraryIndex) (lib : LibraryName)
    (acc : gmap VersionPtr bool) (p : VersionPtr) :
  is_Some (foldl (λ (present : gmap VersionPtr bool) dep,
                    if bool_decide (name (library dep) = lib)
                    then <[ver (library dep) := true]> present
                    else present) acc index !! p) ↔
  is_Some (acc !! p) ∨
  ∃ dep, dep ∈ index ∧ name (library dep) = lib ∧ ver (library dep) = p.
Proof.
  revert acc. induction index as [|dep index IH]; intros acc; simpl.
  - split; [by left|]. intros [?|[dep [Hin _]]]; [done|by apply elem_of_nil in Hin].
  - rewrite IH. case_bool_decide as Hn.
    + rewrite lookup_insert_is_Some. split.
      * intros [[<-|[_ ?]]|[d [Hd ?]]]; [right|by left|right].
        -- exists dep. split; [by left|done].
        -- exists d. split; [by right|done].
      * intros [?|[d [[->|Hd]%elem_of_cons [? ?]]]].
        -- destruct (decide (ver (library dep) = p)); left; [by left|by right].
        -- left. by left.
        -- right. by exists d.
    + split.
      * intros [?|[d [Hd ?]]]; [by left|right]. exists d. split; [by right|done].
      * intros [?|[d [[->|Hd]%elem_of_cons [? ?]]]]; [by left|done|right; by exists d].
Qed.

Section IndexFacts.
Variable range : ∀ A : Type, list A → list A.
Hypothesis range_perm : ∀ A (l : list A), range A l ≡ₚ l.

Lemma Versions_elem index lib x :
  x ∈ Versions range index lib →
  ∃ dep, dep ∈ index ∧ name (library dep) = lib ∧ ver (library dep) = x.
Proof.
  unfold Versions, ReverseSort. rewrite merge_sort_Permutation.
  rewrite <- (foldl_fmap Add NewVersionList _ fst).
  intros [Hx|Hx]%elem_of_foldl_Add; [by apply elem_of_nil in Hx|].
  apply (elem_of_rangeMap_keys range range_perm) in Hx.
  apply present_lookup in Hx as [[? Hx]|Hx]; [|done].
  by rewrite lookup_empty in Hx.
Qed.

Lemma Versions_count index lib dep :
  dep ∈ index → name (library dep) = lib →
  countValue (ver (library dep)) (Versions range index lib) = 1%nat.
Proof.
  intros Hin Hn. unfold Versions, ReverseSort.
  rewrite (countValue_perm _ _ _ (merge_sort_Permutation _ _)).
  rewrite <- (foldl_fmap Add NewVersionList _ fst).
  apply Nat.le_antisymm.
  - apply countValue_foldl_Add. intros u. unfold countValue. simpl. lia.
  - apply countValue_pos. rewrite Contains_foldl_Add. simpl.
    apply existsb_exists. exists (ver (library dep)). split.
    + apply list_elem_of_In, (elem_of_rangeMap_keys range range_perm).
      apply present_lookup. right. by exists dep.
    + pose proof (zo_refl (c:=ptrCompare) (ver (library dep))). lia.
Qed.

Lemma Versions_sorted index lib :
  StronglySorted (λ a b, ptrCompare a b = 1) (Versions range index lib).
Proof.
  apply StronglySorted_strict.
  - apply StronglySorted_merge_sort; apply _.
  - intros u. unfold Versions, ReverseSort.
    rewrite (countValue_perm _ _ _ (merge_sort_Permutation _ _)).
    rewrite <- (foldl_fmap Add NewVersionList _ fst).
    apply countValue_foldl_Add. intros w. unfold countValue. simpl. lia.
Qed.

Lemma Versions_nil index lib :
  (∀ dep, dep ∈ index → name (library dep) ≠ lib) →
  Versions range index lib = [].
Proof.
  intros Hno. destruct (Versions range index lib) as [|x l] eqn:E; [done|].
  destruct (Versions_elem index lib x) as [dep [Hin [Hn _]]].
  { rewrite E. left. }
  by destruct (Hno dep Hin).
Qed.
End IndexFacts.

Lemma targetsOf_snoc index dep lib v d :
  targetsOf (index ++ [dep]) lib v d =
  targetsOf index lib v d ++
  (if matchingEdge lib v dep && bool_decide (name (dependsOn dep) = d)
   then [ver (dependsOn dep)] else []).
Proof.
  unfold targetsOf. rewrite List.filter_app, fmap_app. simpl.
  by destruct (matchingEdge lib v dep && bool_decide (name (dependsOn dep) = d)).
Qed.

Lemma elem_of_targetsOf index lib v d w :
  w ∈ targetsOf index lib v d ↔
  ∃ dep, dep ∈ index ∧ name (library dep) = lib
         ∧ ptrCompare v (ver (library dep)) = 0
         ∧ name (dependsOn dep) = d ∧ ver (dependsOn dep) = w.
Proof.
  unfold targetsOf, matchingEdge. rewrite list_elem_of_fmap. split.
  - intros [dep [-> Hin]]. apply list_elem_of_In, filter_In in Hin as [Hin Hm].
    apply andb_true_iff in Hm as [Hm Hd]. apply andb_true_iff in Hm as [Hl Hv].
    apply bool_decide_eq_true in Hl, Hd. apply Z.eqb_eq in Hv.
    exists dep. by rewrite <- list_elem_of_In in Hin.
  - intros [dep [Hin [Hl [Hv [Hd Hw]]]]]. exists dep. split; [done|].
    apply list_elem_of_In, filter_In. split; [by apply list_elem_of_In|].
    rewrite !andb_true_iff, !bool_decide_eq_true, Z.eqb_eq. done.
Qed.

Lemma foldl_Add_snoc ws w acc :
  foldl Add acc (ws ++ [w]) = Add (foldl Add acc ws) w.
Proof. by rewrite foldl_app. Qed.

Lemma Dependencies_lookup index lib v d :
  Dependencies index lib v !! d =
  match targetsOf index lib v d with
  | [] => None
  | ws => Some (foldl Add NewVersionList ws)
  end.
Proof.
  induction index as [|dep index IH] using rev_ind; [done|].
  unfold Dependencies in *. rewrite foldl_app. cbn [foldl].
  rewrite targetsOf_snoc. fold (matchingEdge lib v dep).
  destruct (matchingEdge lib v dep); simpl.
  - case_bool_decide as Hd.
    + subst d. rewrite lookup_insert_eq, IH.
      destruct (targetsOf index lib v (name (dependsOn dep))) as [|w ws] eqn:E.
      * done.
      * simpl. rewrite foldl_app. simpl.
        by destruct (ws ++ [ver (dependsOn dep)]) eqn:E2;
          [destruct ws; discriminate|].
    + rewrite lookup_insert_ne by done. by rewrite app_nil_r.
  - by rewrite app_nil_r.
Qed.

Lemma Dependencies_dom index lib v d :
  is_Some (Dependencies index lib v !! d) →
  ∃ dep, dep ∈ index ∧ name (library dep) = lib ∧ name (dependsOn dep) = d.
Proof.
  rewrite Dependencies_lookup.
  destruct (targetsOf index lib v d) as [|w ws] eqn:E; [by intros [? ?]|].
  intros _. assert (w ∈ targetsOf index lib v d) as Hw by (rewrite E; left).
  apply elem_of_targetsOf in Hw as [dep (? & ? & ? & ? & ?)]. by exists dep.
Qed.

Lemma Dependencies_is_Some index lib v d :
  is_Some (Dependencies index lib v !! d) ↔
  ∃ dep, dep ∈ index ∧ name (library dep) = lib
         ∧ ptrCompare v (ver (library dep)) = 0 ∧ name (dependsOn dep) = d.
Proof.
  rewrite Dependencies_lookup. split.
  - destruct (targetsOf index lib v d) as [|w ws] eqn:E; [by intros [? ?]|].
    intros _. assert (w ∈ targetsOf index lib v d) as Hw by (rewrite E; left).
    apply elem_of_targetsOf in Hw as [dep (? & ? & ? & ? & ?)]. by exists dep.
  - intros [dep (Hin & Hl & Hv & Hd)].
    assert (ver (dependsOn dep) ∈ targetsOf index lib v d) as Hw
      by (apply elem_of_targetsOf; by exists dep).
    destruct (targetsOf index lib v d); [by apply elem_of_nil in Hw|by eexists].
Qed.

Lemma Dependencies_Some index lib v d vl :
  Dependencies index lib v !! d = Some vl →
  vl = foldl Add NewVersionList (targetsOf index lib v d).
Proof.
  rewrite Dependencies_lookup.
  by destruct (targetsOf index lib v d); intros; simplify_eq.
Qed.

Lemma Dependencies_Contains index lib v d vl w :
  Dependencies index lib v !! d = Some vl →
  Contains vl w = true ↔
  ∃ dep, dep ∈ index ∧ name (library dep) = lib
         ∧ ptrCompare v (ver (library dep)) = 0
         ∧ name (dependsOn dep) = d
         ∧ ptrCompare (ver (dependsOn dep)) w = 0.
Proof.
  intros ->%Dependencies_Some.
  rewrite Contains_foldl_Add. simpl. rewrite existsb_exists. split.
  - intros [x [Hx Hw]]. apply list_elem_of_In, elem_of_targetsOf in Hx
      as [dep (? & ? & ? & ? & <-)].
    exists dep. repeat split; try done. lia.
  - intros [dep (? & ? & ? & ? & Hw)]. exists (ver (dependsOn dep)). split.
    + apply list_elem_of_In, elem_of_targetsOf. by exists dep.
    + lia.
Qed.

Lemma Dependencies_elem index lib v d vl x :
  Dependencies index lib v !! d = Some vl → x ∈ vl →
  ∃ dep, dep ∈ index ∧ name (library dep) = lib
         ∧ ptrCompare v (ver (library dep)) = 0
         ∧ name (dependsOn dep) = d ∧ ver (dependsOn dep) = x.
Proof.
  intros ->%Dependencies_Some [Hx|Hx]%elem_of_foldl_Add;
    [by apply elem_of_nil in Hx|].
  by apply elem_of_targetsOf in Hx.
Qed.

(** ** One activation *)

Lemma NoDup_fmap_filter {A B} (f : A → B) (p : A → bool) (l : list A) :
  NoDup (f <$> l) → NoDup (f <$> List.filter p l).
Proof.
  induction l as [|x l IH]; [done|]. simpl.
  intros [Hx Hnd]%NoDup_cons. destruct (p x); [|by apply IH].
  simpl. apply NoDup_cons. split; [|by apply IH].
  intros [y [Hy Hin]]%list_elem_of_fmap. apply Hx.
  apply list_elem_of_fmap. exists y. split; [done|].
  apply list_elem_of_In, filter_In in Hin as [Hin _]. by apply list_elem_of_In.
Qed.

Section StepFacts.
Variable range : ∀ A : Type, list A → list A.
Hypothesis range_perm : ∀ A (l : list A), range A l ≡ₚ l.

Lemma findFirstStep_nil index mapped avail :
  findFirstStep range index mapped avail [] = Return mapped None.
Proof. done. Qed.

Lemma findFirstStep_no_candidate index mapped avail lib rest :
  candidates range index avail lib = [] →
  findFirstStep range index mapped avail (lib :: rest) =
  Return None (Some (errNotFound lib)).
Proof. unfold findFirstStep. by intros ->. Qed.

(** Only the first candidate is ever tried. *)
Lemma findFirstStep_first_candidate index mapped avail lib rest v vs :
  candidates range index avail lib = v :: vs →
  findFirstStep range index mapped avail (lib :: rest) =
  tryVersion range index mapped avail lib rest v.
Proof. unfold findFirstStep. by intros ->. Qed.

(** What the tail call of an activation is called with. *)
Lemma findFirstStep_Call index mapped avail lib rest config avail' rest' :
  findFirstStep range index mapped avail (lib :: rest)
    = Call config avail' rest' →
  ∃ v vs newlibs,
    candidates range index avail lib = v :: vs
    ∧ config = Some (<[lib := v]> (entries mapped))
    ∧ rest' = newlibs ++ rest
    ∧ NoDup newlibs
    ∧ (∀ n, n ∈ newlibs ↔
            is_Some (Dependencies index lib v !! n)
            ∧ entries mapped !! n = None ∧ n ∉ rest)
    ∧ dom avail' ⊆ dom avail ∖ {[lib]}
    ∧ (∀ d vl choice, Dependencies index lib v !! d = Some vl →
                      entries mapped !! d = Some choice →
                      Contains vl choice = true).
Proof.
  unfold findFirstStep.
  destruct (candidates range index avail lib) as [|v vs] eqn:Hc; [done|].
  cbn [rangeVers]. unfold tryVersion.
  destruct (List.find _ (rangeMap range (Dependencies index lib v)))
    as [kv|] eqn:Hfind; [done|].
  destruct (0 <? length _)%nat eqn:Hempty; [done|].
  intros [= <- <- <-].
  rewrite (foldl_snoc_filter
             (λ kv, negb (foldl (λ found n2, if bool_decide (kv.1 = n2)
                                             then true else found) false rest))
             fst).
  rewrite app_nil_l.
  eexists v, vs, _. split; [done|]. split.
  { by rewrite (Configuration_Clone_entries range range_perm). }
  split; [done|]. split.
  { apply NoDup_fmap_filter, (rangeMap_NoDup range range_perm). }
  split.
  { intros n. rewrite list_elem_of_fmap. split.
    - intros [[n' vl] [-> Hin]].
      apply list_elem_of_In, filter_In in Hin as [Hin Hp].
      apply list_elem_of_In, (elem_of_rangeMap range range_perm) in Hin.
      rewrite foldl_delete_lookup in Hin. simpl in *.
      case_decide as Hm; [done|].
      rewrite (elem_of_rangeMap_keys range range_perm) in Hm.
      rewrite foldl_found in Hp. simpl in Hp.
      apply negb_true_iff, bool_decide_eq_false in Hp.
      split; [by eexists|]. split; [|done].
      destruct (entries mapped !! n'); [|done]. destruct Hm. by eexists.
    - intros [[vl Hvl] [Hm Hr]]. exists (n, vl). split; [done|].
      apply list_elem_of_In, filter_In. split.
      + apply list_elem_of_In, (elem_of_rangeMap range range_perm).
        rewrite foldl_delete_lookup. rewrite decide_False; [done|].
        rewrite (elem_of_rangeMap_keys range range_perm), Hm.
        by intros [? ?].
      + rewrite foldl_found. simpl.
        by apply negb_true_iff, bool_decide_eq_false. }
  split.
  { rewrite dom_delete_L, (Refine_dom range range_perm). done. }
  intros d vl choice Hd Hm.
  destruct (Contains vl choice) eqn:Hcont; [done|].
  assert (In (d, vl) (rangeMap range (Dependencies index lib v))) as Hin
    by by apply list_elem_of_In, (elem_of_rangeMap range range_perm).
  pose proof (find_none _ _ Hfind (d, vl) Hin) as Hnone.
  simpl in Hnone. rewrite Hm, Hcont in Hnone. done.
Qed.
End StepFacts.

(** ** Termination *)

Lemma entries_Some (m : gmap LibraryName VersionPtr) : entries (Some m) = m.
Proof. done. Qed.

Lemma elem_of_names_target index dep :
  dep ∈ index → name (dependsOn dep) ∈ names index.
Proof.
  intros Hin. unfold names. apply elem_of_union_r, elem_of_list_to_set.
  apply list_elem_of_fmap. by exists dep.
Qed.

Lemma measure_decrease (ns ms rs nl : gset LibraryName) (lib : LibraryName) :
  nl ⊆ ns → nl ## ms → nl ## rs →
  (size nl + 2 * size (ns ∖ (({[lib]} ∪ ms) ∪ (nl ∪ rs)))
   + size (ns ∖ ({[lib]} ∪ ms))
   < 1 + 2 * size (ns ∖ (ms ∪ ({[lib]} ∪ rs))) + size (ns ∖ ms))%nat.
Proof.
  intros HN HM HR.
  set (a' := ns ∖ (({[lib]} ∪ ms) ∪ (nl ∪ rs))).
  assert (size (ns ∖ (ms ∪ ({[lib]} ∪ rs))) = size a' + size (nl ∖ {[lib]}))%nat
    as ->.
  { rewrite <- (size_union a' (nl ∖ {[lib]})) by set_solver.
    f_equal. apply set_eq. intros x. destruct (decide (x ∈ nl)); set_solver. }
  destruct (decide (lib ∈ nl)) as [Hin|Hnin].
  - assert (size nl = S (size (nl ∖ {[lib]}))) as ->.
    { rewrite (size_difference nl {[lib]}) by set_solver.
      rewrite size_singleton.
      assert (size nl ≠ 0)%nat; [|lia].
      intros ?%size_empty_inv. set_solver. }
    assert (size (ns ∖ ms) = 1 + size (ns ∖ ({[lib]} ∪ ms)))%nat as ->.
    { rewrite <- (size_singleton (C:=gset LibraryName) lib).
      rewrite <- (size_union {[lib]} (ns ∖ ({[lib]} ∪ ms))) by set_solver.
      f_equal. apply set_eq. intros x. destruct (decide (x = lib)); set_solver. }
    lia.
  - assert (nl ∖ {[lib]} = nl) as -> by set_solver.
    assert (size (ns ∖ ({[lib]} ∪ ms)) ≤ size (ns ∖ ms))%nat
      by (apply subseteq_size; set_solver).
    lia.
Qed.

Section Termination.
Variable range : ∀ A : Type, list A → list A.
Hypothesis range_perm : ∀ A (l : list A), range A l ≡ₚ l.

Lemma measure_Call index mapped avail lib rest config avail' rest' :
  findFirstStep range index mapped avail (lib :: rest)
    = Call config avail' rest' →
  (measure index config rest' < measure index mapped (lib :: rest))%nat.
Proof.
  intros Hstep.
  destruct (findFirstStep_Call range range_perm _ _ _ _ _ _ _ _ Hstep)
    as (v & vs & newlibs & _ & -> & -> & Hnd & Hnew & _ & _).
  unfold measure. rewrite entries_Some.
  rewrite dom_insert_L, length_app, list_to_set_app_L. cbn [length].
  rewrite list_to_set_cons.
  rewrite <- (size_list_to_set (C:=gset LibraryName) newlibs Hnd).
  assert (list_to_set newlibs ⊆ names index
          ∧ list_to_set newlibs ## dom (entries mapped)
          ∧ list_to_set newlibs ## (list_to_set rest : gset LibraryName))
    as (H1 & H2 & H3).
  2:{ pose proof (measure_decrease (names index) (dom (entries mapped))
                    (list_to_set rest) (list_to_set newlibs) lib H1 H2 H3).
      lia. }
  split; [|split].
  - intros n [[vl Hd] _]%elem_of_list_to_set%Hnew.
    destruct (Dependencies_dom index lib v n) as [dep (Hin & _ & <-)];
      [by eexists|].
    by apply elem_of_names_target.
  - intros n [_ [Hm _]]%elem_of_list_to_set%Hnew Hdom.
    apply elem_of_dom in Hdom as [? Hdom]. congruence.
  - intros n [_ [_ Hr]]%elem_of_list_to_set%Hnew Hrest.
    by apply elem_of_list_to_set in Hrest.
Qed.
End Termination.

Section SearchFacts.
Variable sched : nat → ∀ A : Type, list A → list A.
Hypothesis sched_perm : ∀ d A (l : list A), sched d A l ≡ₚ l.

Lemma findFirst_enough_fuel index fuel depth mapped avail rest :
  (measure index mapped rest < fuel)%nat →
  is_Some (findFirst sched fuel depth index mapped avail rest).
Proof.
  revert depth mapped avail rest.
  induction fuel as [|fuel IH]; intros depth mapped avail rest Hlt; [lia|].
  cbn [findFirst].
  destruct (findFirstStep (sched depth) index mapped avail rest)
    as [c e|c a r] eqn:Hstep; [by eexists|].
  apply IH. destruct rest as [|lib rest]; [done|].
  pose proof (measure_Call (sched depth) (sched_perm depth) _ _ _ _ _ _ _ _ Hstep).
  lia.
Qed.

Lemma findFirst_more_fuel index fuel fuel' depth mapped avail rest r :
  findFirst sched fuel depth index mapped avail rest = Some r →
  (fuel ≤ fuel')%nat →
  findFirst sched fuel' depth index mapped avail rest = Some r.
Proof.
  revert fuel' depth mapped avail rest.
  induction fuel as [|fuel IH]; intros fuel' depth mapped avail rest Hr Hle;
    [done|].
  destruct fuel' as [|fuel']; [lia|]. cbn [findFirst] in *.
  destruct (findFirstStep (sched depth) index mapped avail rest); [done|].
  apply IH; [done|lia].
Qed.

(** An activation that returns with libraries still to process returns
    an error. *)
Lemma findFirstStep_Return index depth mapped avail lib rest c e :
  findFirstStep (sched depth) index mapped avail (lib :: rest) = Return c e →
  c = None ∧ is_Some e.
Proof.
  unfold findFirstStep, rangeVers, tryVersion.
  destruct (candidates _ index avail lib); [by intros [= <- <-]|].
  destruct (List.find _ _); [by intros [= <- <-]|].
  destruct (0 <? _)%nat; [by intros [= <- <-]|done].
Qed.

(** A library of the worklist without known versions and without an
    entry in [avail] makes the search fail. *)
Lemma findFirst_unknown_fails index lib fuel depth mapped avail rest c e :
  (∀ dep, dep ∈ index → name (library dep) ≠ lib) →
  lib ∈ rest → avail !! lib = None →
  findFirst sched fuel depth index mapped avail rest = Some (c, e) →
  c = None ∧ is_Some e.
Proof.
  intros Hno. revert depth mapped avail rest.
  induction fuel as [|fuel IH]; intros depth mapped avail rest Hin Ha; [done|].
  cbn [findFirst]. destruct rest as [|l rest]; [by apply elem_of_nil in Hin|].
  destruct (findFirstStep (sched depth) index mapped avail (l :: rest))
    as [c' e'|c' a' r'] eqn:Hstep.
  - intros [= <- <-]. by eapply findFirstStep_Return.
  - destruct (findFirstStep_Call _ (sched_perm depth) _ _ _ _ _ _ _ _ Hstep)
      as (v & vs & newlibs & Hc & _ & -> & _ & _ & Hdom & _).
    apply IH.
    + apply elem_of_cons in Hin as [->|Hin].
      * unfold candidates in Hc. rewrite Ha in Hc.
        rewrite (Versions_nil _ (sched_perm depth) index l Hno) in Hc. done.
      * apply elem_of_app. by right.
    + apply not_elem_of_dom. intros Hd%Hdom.
      apply elem_of_difference in Hd as [Hd _].
      by apply not_elem_of_dom in Ha.
Qed.
End SearchFacts.

(** ** The empty constraint store and the newest version *)

Lemma rangeMap_empty `{Countable K} {V} (range : ∀ A : Type, list A → list A) :
  rangeMap range (∅ : gmap K V) = [].
Proof.
  unfold rangeMap. generalize (range K (elements (dom (∅ : gmap K V)))).
  induction l as [|k l IH]; [done|]. simpl. by rewrite lookup_empty.
Qed.

Lemma Configuration_Clone_nil range : Configuration_Clone range None = ∅.
Proof. unfold Configuration_Clone. cbn [entries default]. by rewrite rangeMap_empty. Qed.

Lemma Refine_empty range subset : Refine range ∅ subset = ∅.
Proof. unfold Refine. by rewrite rangeMap_empty. Qed.

Lemma Empty_empty range : Empty range ∅ = [].
Proof. unfold Empty. by rewrite rangeMap_empty. Qed.

Lemma find_all_false {A} (p : A → bool) (l : list A) :
  (∀ x, x ∈ l → p x = false) → List.find p l = None.
Proof.
  induction l as [|x l IH]; intros Hp; [done|]. simpl.
  rewrite (Hp x) by left. apply IH. intros y Hy. apply Hp. by right.
Qed.

Lemma filter_all_true {A} (p : A → bool) (l : list A) :
  (∀ x, x ∈ l → p x = true) → List.filter p l = l.
Proof.
  induction l as [|x l IH]; intros Hp; [done|]. simpl.
  rewrite (Hp x) by left. f_equal. apply IH. intros y Hy. apply Hp. by right.
Qed.

Lemma Dependencies_value_eq index lib v v' :
  ptrCompare v v' = 0 → Dependencies index lib v = Dependencies index lib v'.
Proof.
  intros E. unfold Dependencies. apply foldl_fun_ext. intros depvers dep.
  by rewrite (zo_eq_l (c:=ptrCompare) v v' _ E).
Qed.

Section NewestFacts.
Variable range : ∀ A : Type, list A → list A.
Hypothesis range_perm : ∀ A (l : list A), range A l ≡ₚ l.

Lemma Versions_head_newest index lib v vs dep :
  Versions range index lib = v :: vs →
  dep ∈ index → name (library dep) = lib →
  0 ≤ ptrCompare v (ver (library dep)).
Proof.
  intros Hv Hin Hn.
  pose proof (Versions_count range range_perm index lib dep Hin Hn) as Hcnt.
  pose proof (Versions_sorted range index lib) as Hs.
  rewrite Hv in Hcnt, Hs.
  assert (Contains (v :: vs) (ver (library dep)) = true) as Hc.
  { destruct (Contains (v :: vs) (ver (library dep))) eqn:E; [done|].
    apply countValue_zero in E. lia. }
  apply Contains_true in Hc as [x [Hx Hxv]].
  apply StronglySorted_inv in Hs as [_ Hall]. rewrite Forall_forall in Hall.
  apply elem_of_cons in Hx as [->|Hx]; [lia|].
  rewrite <- (zo_eq_r (c:=ptrCompare) _ _ v Hxv). rewrite (Hall x Hx). lia.
Qed.
End NewestFacts.

(** ** Computations on the store *)

Lemma wp_ret {A} (a : A) h (Q : A → list object → Prop) :
  Q a h → wp (mret a) h Q.
Proof. intros HQ. by exists a, h. Qed.

Lemma wp_bind {A B} (c : M A) (f : A → M B) h (Q : B → list object → Prop) :
  wp c h (λ a h1, wp (f a) h1 Q) → wp (c ≫= f) h Q.
Proof.
  intros (a & h1 & Hc & b & h2 & Hf & HQ). exists b, h2. split; [|done].
  unfold mbind, M_bind. by rewrite Hc.
Qed.

Lemma wp_mono {A} (c : M A) h (Q Q' : A → list object → Prop) :
  wp c h Q → (∀ a h', Q a h' → Q' a h') → wp c h Q'.
Proof. intros (a & h' & Hc & HQ) Himp. exists a, h'. auto. Qed.

Lemma wp_alloc o h (Q : nat → list object → Prop) :
  Q (length h) (h ++ [o]) → wp (alloc o) h Q.
Proof. intros HQ. by exists (length h), (h ++ [o]). Qed.

Lemma wp_load l o h (Q : object → list object → Prop) :
  h !! l = Some o → Q o h → wp (load l) h Q.
Proof. intros Hl HQ. exists o, h. split; [|done]. unfold load. by rewrite Hl. Qed.

Lemma wp_store l o o' h (Q : unit → list object → Prop) :
  h !! l = Some o' → Q () (<[l := o]> h) → wp (store l o) h Q.
Proof.
  intros Hl HQ. exists (), (<[l := o]> h). split; [|done].
  unfold store. rewrite decide_True; [done|]. by eapply lookup_lt_Some.
Qed.

Lemma wp_loadVersionList l vl h (Q : VersionList → list object → Prop) :
  h !! l = Some (VersionListObj vl) → Q vl h → wp (loadVersionList l) h Q.
Proof.
  intros Hl HQ. apply wp_bind, (wp_load _ _ _ _ Hl). by apply wp_ret.
Qed.

Lemma wp_loadAvailable l m h (Q : gmap LibraryName nat → list object → Prop) :
  h !! l = Some (AvailableObj m) → Q m h → wp (loadAvailable l) h Q.
Proof.
  intros Hl HQ. apply wp_bind, (wp_load _ _ _ _ Hl). by apply wp_ret.
Qed.

Lemma wp_loadEdges l deps h (Q : LibraryIndex → list object → Prop) :
  h !! l = Some (EdgesObj deps) → Q deps h → wp (loadEdges l) h Q.
Proof.
  intros Hl HQ. apply wp_bind, (wp_load _ _ _ _ Hl). by apply wp_ret.
Qed.

Lemma wp_loadConfiguration_nil h
    (Q : gmap LibraryName VersionPtr → list object → Prop) :
  Q ∅ h → wp (loadConfiguration None) h Q.
Proof. apply wp_ret. Qed.

Lemma wp_loadConfiguration l m h
    (Q : gmap LibraryName VersionPtr → list object → Prop) :
  h !! l = Some (ConfigurationObj m) → Q m h →
  wp (loadConfiguration (Some l)) h Q.
Proof.
  intros Hl HQ. apply wp_bind, (wp_load _ _ _ _ Hl). by apply wp_ret.
Qed.

Lemma wp_setConfiguration l m k v h (Q : unit → list object → Prop) :
  h !! l = Some (ConfigurationObj m) →
  Q () (<[l := ConfigurationObj (<[k := v]> m)]> h) →
  wp (setConfiguration l k v) h Q.
Proof.
  intros Hl HQ. apply wp_bind, (wp_loadConfiguration _ _ _ _ Hl).
  by eapply wp_store.
Qed.

Lemma wp_setAvailable l m k p h (Q : unit → list object → Prop) :
  h !! l = Some (AvailableObj m) →
  Q () (<[l := AvailableObj (<[k := p]> m)]> h) →
  wp (setAvailable l k p) h Q.
Proof.
  intros Hl HQ. apply wp_bind, (wp_loadAvailable _ _ _ _ Hl).
  by eapply wp_store.
Qed.

Lemma wp_deleteAvailable l m k h (Q : unit → list object → Prop) :
  h !! l = Some (AvailableObj m) →
  Q () (<[l := AvailableObj (delete k m)]> h) →
  wp (deleteAvailable l k) h Q.
Proof.
  intros Hl HQ. apply wp_bind, (wp_loadAvailable _ _ _ _ Hl).
  by eapply wp_store.
Qed.

(** A loop keeps an invariant that every run of its body keeps. *)
Lemma wp_forEach {A} (l : list A) (body : A → M unit)
    (I : list A → list object → Prop) h :
  I [] h →
  (∀ done x h1, I done h1 → x ∈ l → wp (body x) h1 (λ _ h2, I (done ++ [x]) h2)) →
  wp (forEach l body) h (λ _ h', I l h').
Proof.
  intros Hinit Hbody.
  assert (∀ todo done h1, done ++ todo = l → I done h1 →
            wp (forEach todo body) h1 (λ _ h', I l h')) as Hgen.
  { induction todo as [|x todo IH]; intros done h1 Hl HI.
    - rewrite app_nil_r in Hl. subst. by apply wp_ret.
    - cbn [forEach]. apply wp_bind.
      eapply wp_mono.
      + apply (Hbody done x h1 HI). rewrite <- Hl.
        apply elem_of_app. right. left.
      + intros [] h2 HI2. apply (IH (done ++ [x])); [|done].
        by rewrite <- app_assoc. }
  by apply (Hgen l []).
Qed.

Lemma preserved_refl n h : preserved n h h.
Proof. by split. Qed.

Lemma preserved_trans n h1 h2 h3 :
  preserved n h1 h2 → preserved n h2 h3 → preserved n h1 h3.
Proof.
  intros [Hl1 H1] [Hl2 H2]. split; [lia|].
  intros l Hl. by rewrite H2, H1.
Qed.

Lemma preserved_weaken n n' h h' :
  (n' ≤ n)%nat → preserved n h h' → preserved n' h h'.
Proof. intros Hle [Hl H]. split; [done|]. intros l ?. apply H. lia. Qed.

Lemma preserved_alloc n h o : (n ≤ length h)%nat → preserved n h (h ++ [o]).
Proof.
  intros Hn. split; [rewrite length_app; lia|].
  intros l Hl. apply lookup_app_l. lia.
Qed.

Lemma preserved_store n h l o : (n ≤ l)%nat → preserved n h (<[l := o]> h).
Proof.
  intros Hn. split; [by rewrite length_insert|].
  intros l' Hl'. apply list_lookup_insert_ne. lia.
Qed.

(** ** What the objects of a store stand for *)

Lemma preserved_lookup h h' l o :
  preserved (length h) h h' → h !! l = Some o → h' !! l = Some o.
Proof.
  intros [_ Hp] Hl. rewrite Hp; [done|]. by eapply lookup_lt_Some.
Qed.

Lemma repList_preserved h h' p vl :
  preserved (length h) h h' → repList h p vl → repList h' p vl.
Proof. apply preserved_lookup. Qed.

Lemma repAvail_preserved h h' l a :
  preserved (length h) h h' → repAvail h l a → repAvail h' l a.
Proof.
  intros Hp (m & Hl & Hm). exists m. split; [by eapply preserved_lookup|].
  intros k. specialize (Hm k).
  destruct Hm; constructor. by eapply repList_preserved.
Qed.

Lemma repConf_preserved h h' r c :
  preserved (length h) h h' → repConf h r c → repConf h' r c.
Proof.
  intros Hp. unfold repConf. destruct r, c; try done. by apply preserved_lookup.
Qed.

Lemma repIndex_preserved h h' l deps :
  preserved (length h) h h' → repIndex h l deps → repIndex h' l deps.
Proof. apply preserved_lookup. Qed.

Lemma repConf_entries h r c :
  repConf h r c →
  match r with
  | None => entries c = ∅
  | Some l => h !! l = Some (ConfigurationObj (entries c))
  end.
Proof. unfold repConf. by destruct r, c. Qed.

(** Storing at a location that holds no version list leaves the lists. *)
Lemma repList_store h l o o' p vl :
  h !! l = Some o' → (∀ x, o' ≠ VersionListObj x) →
  repList h p vl → repList (<[l := o]> h) p vl.
Proof.
  unfold repList. intros Hl Hnl Hp.
  rewrite list_lookup_insert_ne; [done|]. intros ->.
  rewrite Hl in Hp. injection Hp as ->. by eapply Hnl.
Qed.

Lemma repAvail_store_self h l m' o' a :
  h !! l = Some o' → (∀ x, o' ≠ VersionListObj x) →
  (∀ k, option_Forall2 (repList h) (m' !! k) (a !! k)) →
  repAvail (<[l := AvailableObj m']> h) l a.
Proof.
  intros Hl Hnl Hm. exists m'. split.
  - apply list_lookup_insert_eq. by eapply lookup_lt_Some.
  - intros k. specialize (Hm k). destruct Hm; constructor.
    by eapply repList_store.
Qed.

Lemma wp_loadConfiguration_rep h r c
    (Q : gmap LibraryName VersionPtr → list object → Prop) :
  repConf h r c → Q (entries c) h → wp (loadConfiguration r) h Q.
Proof.
  intros Hr HQ. apply repConf_entries in Hr. destruct r as [l|].
  - by eapply wp_loadConfiguration.
  - rewrite Hr in HQ. by apply wp_loadConfiguration_nil.
Qed.

Lemma insert_snoc_last (h : list object) o o' :
  <[length h := o']> (h ++ [o]) = h ++ [o'].
Proof. rewrite insert_app_r_alt by lia. by rewrite Nat.sub_diag. Qed.

Lemma lookup_snoc_last (h : list object) o : (h ++ [o]) !! length h = Some o.
Proof. by rewrite list_lookup_middle. Qed.

(** ** Version lists in the store *)

Lemma wp_Add p l v h (Q : unit → list object → Prop) :
  h !! p = Some (VersionListObj l) →
  Q () (<[p := VersionListObj (Add l v)]> h) →
  wp (Store.Add p v) h Q.
Proof.
  intros Hp HQ. unfold Store.Add. apply wp_bind.
  apply (wp_loadVersionList _ _ _ _ Hp). unfold Add in HQ.
  destruct (Contains l v).
  - apply wp_ret. by rewrite list_insert_id in HQ.
  - by eapply wp_store.
Qed.

Lemma wp_ReverseSort p l h (Q : unit → list object → Prop) :
  h !! p = Some (VersionListObj l) →
  Q () (<[p := VersionListObj (ReverseSort l)]> h) →
  wp (Store.ReverseSort p) h Q.
Proof.
  intros Hp HQ. unfold Store.ReverseSort. apply wp_bind.
  apply (wp_loadVersionList _ _ _ _ Hp). by eapply wp_store.
Qed.

Lemma wp_Intersection p q a b h (Q : nat → list object → Prop) :
  repList h p a → repList h q b →
  Q (length h) (h ++ [VersionListObj (Intersection a b)]) →
  wp (Store.Intersection p q) h Q.
Proof.
  intros Hp Hq HQ. unfold Store.Intersection.
  apply wp_bind, (wp_loadVersionList _ _ _ _ Hp).
  apply wp_bind, (wp_loadVersionList _ _ _ _ Hq).
  by apply wp_alloc.
Qed.

Section StoreFacts.
Variable range : ∀ A : Type, list A → list A.

Lemma wp_Configuration_Clone h conf c (Q : nat → list object → Prop) :
  repConf h conf c →
  Q (length h) (h ++ [ConfigurationObj (Configuration_Clone range c)]) →
  wp (Store.Configuration_Clone range conf) h Q.
Proof.
  intros Hc HQ. unfold Store.Configuration_Clone.
  apply wp_bind, wp_alloc. apply wp_bind.
  apply (wp_loadConfiguration_rep _ conf c).
  { eapply repConf_preserved; [|done]. by apply preserved_alloc. }
  apply wp_bind. eapply wp_mono.
  - apply (wp_forEach _ _
             (λ done h', h' = h ++ [ConfigurationObj
                       (foldl (λ clone kv, <[kv.1 := kv.2]> clone) ∅ done)])).
    + done.
    + intros done [k v] h1 -> _. eapply wp_setConfiguration.
      * apply lookup_snoc_last.
      * by rewrite insert_snoc_last, foldl_app.
  - intros [] h' ->. by apply wp_ret.
Qed.

Lemma wp_Versions h index deps lib (Q : nat → list object → Prop) :
  repIndex h index deps →
  Q (length h) (h ++ [VersionListObj (Versions range deps lib)]) →
  wp (Store.Versions range index lib) h Q.
Proof.
  intros Hi HQ. unfold Store.Versions.
  apply wp_bind, (wp_loadEdges _ _ _ _ Hi).
  apply wp_bind, wp_alloc. apply wp_bind. eapply wp_mono.
  - apply (wp_forEach _ _
             (λ done h', h' = h ++ [VersionListObj
                       (foldl (λ vl kv, Add vl kv.1) NewVersionList done)])).
    + done.
    + intros done [v b] h1 -> _. eapply wp_Add.
      * apply lookup_snoc_last.
      * by rewrite insert_snoc_last, foldl_app.
  - intros [] h' ->. apply wp_bind. eapply wp_ReverseSort.
    + apply lookup_snoc_last.
    + apply wp_ret. by rewrite insert_snoc_last.
Qed.

(** The entries of a map of the store and of the map it stands for are
    visited in the same order. *)
Lemma rangeMap_rep h (m : gmap LibraryName nat)
    (a : Available) :
  (∀ k, option_Forall2 (repList h) (m !! k) (a !! k)) →
  rangeMap range a = (λ kv, (kv.1, derefList h kv.2)) <$> rangeMap range m.
Proof.
  intros Hm. unfold rangeMap.
  assert (dom a = dom m) as ->.
  { apply set_eq. intros k. rewrite !elem_of_dom. specialize (Hm k).
    destruct Hm; split; intros [? ?]; done. }
  induction (range LibraryName (elements (dom m))) as [|k l IH]; [done|].
  pose proof (Hm k) as Hk. simpl.
  destruct (m !! k) as [p|] eqn:Em, (a !! k) as [vl|] eqn:Ea;
    inversion Hk as [? ? Hp|]; subst; simpl; [|done].
  f_equal; [|done]. unfold derefList. unfold repList in Hp. by rewrite Hp.
Qed.

Lemma rangeMap_rep_elem h (m : gmap LibraryName nat)
    (a : Available) kv :
  (∀ k, option_Forall2 (repList h) (m !! k) (a !! k)) →
  kv ∈ rangeMap range m → repList h kv.2 (derefList h kv.2).
Proof.
  intros Hm Hin. destruct kv as [k p].
  apply list_elem_of_omap in Hin as [k' [_ Hk']].
  destruct (m !! k') eqn:E; [|done]. simpl in Hk'. injection Hk' as -> ->.
  specialize (Hm k). rewrite E in Hm. inversion Hm as [? vl Hp|]; subst.
  simpl. unfold derefList. unfold repList in Hp. by rewrite Hp.
Qed.

Lemma wp_Empty_fold h (l : list (LibraryName * nat))
    (c0 : M (list LibraryName)) (r0 : list LibraryName)
    (Q : list LibraryName → list object → Prop) :
  (∀ kv, kv ∈ l → repList h kv.2 (derefList h kv.2)) →
  (∀ Q' : list LibraryName → list object → Prop, Q' r0 h → wp c0 h Q') →
  Q (foldl (λ ret kv, if Nat.eqb (Len kv.2) 0 then ret ++ [kv.1] else ret) r0
       ((λ kv, (kv.1, derefList h kv.2)) <$> l)) h →
  wp (foldl (λ (acc : M (list LibraryName)) kv,
               ret ← acc; vl ← loadVersionList kv.2;
               mret (if Nat.eqb (Len vl) 0 then ret ++ [kv.1] else ret))
            c0 l) h Q.
Proof.
  revert c0 r0. induction l as [|[k p] l IH]; intros c0 r0 Hrep Hc0 HQ.
  - by apply Hc0.
  - cbn [foldl fmap list_fmap] in *.
    eapply (IH _ (if Nat.eqb (Len (derefList h p)) 0 then r0 ++ [k] else r0));
      [| |done].
    + intros kv Hkv. apply Hrep. by right.
    + intros Q' HQ'. apply wp_bind, Hc0. apply wp_bind.
      eapply wp_loadVersionList; [apply (Hrep (k, p)); left|].
      by apply wp_ret.
Qed.

Lemma wp_Empty h a A (Q : list LibraryName → list object → Prop) :
  repAvail h a A → Q (Empty range A) h → wp (Store.Empty range a) h Q.
Proof.
  intros (m & Ha & Hm) HQ. unfold Store.Empty.
  apply wp_bind, (wp_loadAvailable _ _ _ _ Ha).
  unfold Empty in HQ. rewrite (rangeMap_rep h m A Hm) in HQ.
  eapply wp_Empty_fold; [|apply wp_ret|done].
  intros kv. by apply rangeMap_rep_elem with (a := A).
Qed.

Lemma rep_insert h (mr : gmap LibraryName nat)
    (acc : Available) k p vl :
  (∀ k', option_Forall2 (repList h) (mr !! k') (acc !! k')) →
  repList h p vl →
  ∀ k', option_Forall2 (repList h) (<[k := p]> mr !! k') (<[k := vl]> acc !! k').
Proof.
  intros Hm Hp k'. destruct (decide (k = k')) as [->|Hne].
  - rewrite !lookup_insert_eq. by constructor.
  - rewrite !lookup_insert_ne by done. apply Hm.
Qed.

Lemma rep_delete h (mr : gmap LibraryName nat)
    (acc : Available) k :
  (∀ k', option_Forall2 (repList h) (mr !! k') (acc !! k')) →
  ∀ k', option_Forall2 (repList h) (delete k mr !! k') (delete k acc !! k').
Proof.
  intros Hm k'. destruct (decide (k = k')) as [->|Hne].
  - rewrite !lookup_delete_eq. constructor.
  - rewrite !lookup_delete_ne by done. apply Hm.
Qed.

Lemma rep_transport h h' (mr : gmap LibraryName nat)
    (acc : Available) :
  (∀ p vl, repList h p vl → repList h' p vl) →
  (∀ k, option_Forall2 (repList h) (mr !! k) (acc !! k)) →
  ∀ k, option_Forall2 (repList h') (mr !! k) (acc !! k).
Proof.
  intros Ht Hm k. specialize (Hm k). destruct Hm; constructor. by apply Ht.
Qed.

Lemma wp_Refine h a s A S (Q : nat → list object → Prop) :
  repAvail h a A → repAvail h s S →
  (∀ h', preserved (length h) h h' →
         repAvail h' (length h) (Refine range A S) → Q (length h) h') →
  wp (Store.Refine range a s) h Q.
Proof.
  intros (am & Ha & Ham) (sm & Hs & Hsm) HQ. unfold Store.Refine.
  apply wp_bind, wp_alloc. apply wp_bind.
  eapply wp_loadAvailable; [by apply lookup_app_l_Some|].
  apply wp_bind. eapply wp_mono.
  - apply (wp_forEach _ _
      (λ (done : list (LibraryName * nat)) h',
         preserved (length h) h h'
         ∧ ∃ mr, h' !! length h = Some (AvailableObj mr)
                 ∧ ∀ k, option_Forall2 (repList h') (mr !! k)
                          (foldl (λ (ret : Available)
                                    (kv : LibraryName * VersionList),
                                    match S !! kv.1 with
                                    | None => <[kv.1 := kv.2]> ret
                                    | Some v2 => <[kv.1 := Intersection kv.2 v2]> ret
                                    end) ∅
                                 ((λ kv, (kv.1, derefList h kv.2)) <$> done)
                           !! k))).
    + split; [by apply preserved_alloc|]. exists ∅. split.
      * apply lookup_snoc_last.
      * intros k. rewrite !lookup_empty. constructor.
    + intros done [k p] h1 (Hpres & mr & Hret & Hrep) Hin.
      pose proof (rangeMap_rep_elem h am A (k, p) Ham Hin) as Hp. simpl in Hp.
      apply wp_bind. eapply wp_loadAvailable; [by eapply preserved_lookup|].
      rewrite fmap_app, foldl_app. cbn [fmap list_fmap foldl fst snd].
      pose proof (Hsm k) as Hk.
      destruct (sm !! k) as [v2|] eqn:Esm, (S !! k) as [b|] eqn:ES;
        inversion Hk as [? ? Hv2|]; subst.
      * apply wp_bind. eapply wp_Intersection.
        { by eapply repList_preserved. }
        { by eapply repList_preserved. }
        eapply wp_setAvailable; [by apply lookup_app_l_Some|].
        split.
        { eapply preserved_trans; [done|].
          eapply preserved_trans; [apply preserved_alloc, Hpres|].
          by apply preserved_store. }
        exists (<[k := length h1]> mr). split.
        { apply list_lookup_insert_eq. rewrite length_app.
          apply lookup_lt_Some in Hret. lia. }
        apply rep_insert.
        -- eapply rep_transport; [|done]. intros q vl Hq.
           eapply repList_store; [by apply lookup_app_l_Some|done|].
           unfold repList. by apply lookup_app_l_Some.
        -- eapply repList_store; [by apply lookup_app_l_Some|done|].
           apply lookup_snoc_last.
      * eapply wp_setAvailable; [done|]. split.
        { eapply preserved_trans; [done|]. by apply preserved_store. }
        exists (<[k := p]> mr). split.
        { apply list_lookup_insert_eq. by eapply lookup_lt_Some. }
        apply rep_insert.
        -- eapply rep_transport; [|done]. intros q vl Hq.
           by eapply repList_store.
        -- eapply repList_store; [done|done|]. by eapply repList_preserved.
  - intros [] h' (Hpres & mr & Hret & Hrep). apply wp_ret.
    apply HQ; [done|]. exists mr. split; [done|].
    unfold Refine. by rewrite (rangeMap_rep h am A Ham).
Qed.
End StoreFacts.

Lemma Dependencies_snoc deps dep lib v :
  Dependencies (deps ++ [dep]) lib v =
  if bool_decide (name (library dep) = lib)
     && (ptrCompare v (ver (library dep)) =? 0)
  then <[name (dependsOn dep) :=
           Add (default NewVersionList
                  (Dependencies deps lib v !! name (dependsOn dep)))
               (ver (dependsOn dep))]> (Dependencies deps lib v)
  else Dependencies deps lib v.
Proof. unfold Dependencies. by rewrite foldl_app. Qed.

Lemma wp_Dependencies h index deps lib v (Q : nat → list object → Prop) :
  repIndex h index deps →
  (∀ h', preserved (length h) h h' →
         repAvail h' (length h) (Dependencies deps lib v) → Q (length h) h') →
  wp (Store.Dependencies index lib v) h Q.
Proof.
  intros Hi HQ. unfold Store.Dependencies.
  apply wp_bind, wp_alloc. apply wp_bind.
  eapply wp_loadEdges; [by apply lookup_app_l_Some|].
  apply wp_bind. eapply wp_mono.
  - apply (wp_forEach _ _
      (λ (done : LibraryIndex) h',
         preserved (length h) h h'
         ∧ ∃ m, h' !! length h = Some (AvailableObj m)
                ∧ (∀ k, option_Forall2 (repList h') (m !! k)
                          (Dependencies done lib v !! k))
                ∧ (∀ k p, m !! k = Some p → (length h < p)%nat)
                ∧ (∀ k1 k2 p, m !! k1 = Some p → m !! k2 = Some p → k1 = k2))).
    + split; [by apply preserved_alloc|]. exists ∅. split; [apply lookup_snoc_last|].
      split; [|split].
      * intros k. unfold Dependencies. simpl. rewrite !lookup_empty. constructor.
      * intros k p. by rewrite lookup_empty.
      * intros k1 k2 p. by rewrite lookup_empty.
    + intros done dep h1 (Hpres & m & Hn & Hrep & Hfresh & Hinj) _.
      rewrite Dependencies_snoc.
      destruct (bool_decide (name (library dep) = lib)
                && (ptrCompare v (ver (library dep)) =? 0)).
      2:{ apply wp_ret. split; [done|]. by exists m. }
      apply wp_bind. eapply wp_loadAvailable; [done|].
      pose proof (Hrep (name (dependsOn dep))) as Hd.
      destruct (m !! (name (dependsOn dep))) as [dver|] eqn:Em,
               (Dependencies done lib v !! (name (dependsOn dep))) as [vl|] eqn:Ea;
        inversion Hd as [? ? Hdver|]; subst.
      * apply wp_bind, wp_ret. eapply wp_Add; [done|].
        pose proof (Hfresh (name (dependsOn dep)) dver Em) as Hlt.
        split; [|exists m; repeat split].
        -- eapply preserved_trans; [done|]. apply preserved_store. lia.
        -- rewrite list_lookup_insert_ne by lia. done.
        -- intros k. destruct (decide (k = (name (dependsOn dep)))) as [->|Hne].
           ++ rewrite lookup_insert_eq, Em. constructor. simpl.
              apply list_lookup_insert_eq. by eapply lookup_lt_Some.
           ++ rewrite lookup_insert_ne by done. specialize (Hrep k).
              destruct (m !! k) as [q|] eqn:Ek; inversion Hrep; subst;
                constructor.
              unfold repList. rewrite list_lookup_insert_ne; [done|].
              intros ->. apply Hne. by eapply Hinj.
        -- done.
        -- done.
      * apply wp_bind. apply wp_bind. unfold Store.NewVersionList.
        apply wp_alloc. apply wp_bind.
        eapply wp_setAvailable; [by apply lookup_app_l_Some|].
        apply wp_ret.
        assert (length h < length h1)%nat as Hlt by by eapply lookup_lt_Some.
        eapply wp_Add.
        { rewrite list_lookup_insert_ne by lia. apply lookup_snoc_last. }
        split; [|exists (<[(name (dependsOn dep)) := length h1]> m); repeat split].
        -- eapply preserved_trans; [done|].
           eapply preserved_trans; [apply preserved_alloc; lia|].
           eapply preserved_trans; apply preserved_store; lia.
        -- rewrite list_lookup_insert_ne by lia.
           apply list_lookup_insert_eq. rewrite length_app. lia.
        -- intros k. destruct (decide (k = (name (dependsOn dep)))) as [->|Hne].
           ++ rewrite !lookup_insert_eq. constructor. simpl.
              apply list_lookup_insert_eq.
              rewrite length_insert, length_app. simpl. lia.
           ++ rewrite !lookup_insert_ne by done. specialize (Hrep k).
              destruct (m !! k) as [q|] eqn:Ek; inversion Hrep as [? ? Hq|];
                subst; constructor.
              unfold repList in *.
              pose proof (lookup_lt_Some _ _ _ Hq).
              pose proof (Hfresh k q Ek).
              rewrite !list_lookup_insert_ne by lia.
              by apply lookup_app_l_Some.
        -- intros k p. destruct (decide ((name (dependsOn dep)) = k)) as [<-|Hne].
           ++ rewrite lookup_insert_eq. intros [= <-]. done.
           ++ rewrite lookup_insert_ne by done. apply Hfresh.
        -- intros k1 k2 p.
           assert (∀ k q, m !! k = Some q → q ≠ length h1) as Hold.
           { intros k q Hq. specialize (Hrep k). rewrite Hq in Hrep.
             inversion Hrep as [? ? Hl|]; subst.
             apply lookup_lt_Some in Hl. lia. }
           destruct (decide ((name (dependsOn dep)) = k1)) as [<-|Hne1],
                    (decide ((name (dependsOn dep)) = k2)) as [<-|Hne2].
           ++ done.
           ++ rewrite lookup_insert_eq, lookup_insert_ne by done.
              intros [= <-] Hq. by destruct (Hold _ _ Hq).
           ++ rewrite lookup_insert_eq, lookup_insert_ne by done.
              intros Hq [= <-]. by destruct (Hold _ _ Hq).
           ++ rewrite !lookup_insert_ne by done. apply Hinj.
  - intros [] h' (Hpres & m & Hn & Hrep & _ & _). apply wp_ret.
    apply HQ; [done|]. by exists m.
Qed.

Lemma repAvail_store_other h l o o' a A :
  h !! l = Some o' → (∀ x, o' ≠ VersionListObj x) → a ≠ l →
  repAvail h a A → repAvail (<[l := o]> h) a A.
Proof.
  intros Hl Hnl Hne (m & Ha & Hm). exists m. split.
  - by rewrite list_lookup_insert_ne.
  - eapply rep_transport; [|done]. intros p vl. by eapply repList_store.
Qed.

Lemma find_fmap {A B} (f : A → B) (p : B → bool) (l : list A) :
  List.find p (f <$> l) = f <$> List.find (λ x, p (f x)) l.
Proof.
  induction l as [|x l IH]; [done|]. simpl. by destruct (p (f x)).
Qed.

(** The search for a chosen dependency that the candidate does not allow
    only reads the store. *)
Lemma wp_findFirstM_conflict h (m : gmap LibraryName VersionPtr)
    (l : list (LibraryName * nat))
    (Q : option (LibraryName * nat) → list object → Prop) :
  (∀ kv, kv ∈ l → repList h kv.2 (derefList h kv.2)) →
  Q (List.find (λ kv, match m !! kv.1 with
                      | Some choice => negb (Contains (derefList h kv.2) choice)
                      | None => false
                      end) l) h →
  wp (findFirstM (λ kv, match m !! kv.1 with
                        | Some choice =>
                            vl ← loadVersionList kv.2;
                            mret (negb (Contains vl choice))
                        | None => mret false
                        end) l) h Q.
Proof.
  induction l as [|[k p] l IH]; intros Hrep HQ.
  - by apply wp_ret.
  - simpl in *. apply wp_bind.
    pose proof (Hrep (k, p) ltac:(left)) as Hp. simpl in Hp.
    assert (∀ kv, kv ∈ l → repList h kv.2 (derefList h kv.2)) as Hrep'
      by (intros kv ?; apply Hrep; by right).
    destruct (m !! k) as [choice|].
    + apply wp_bind. eapply wp_loadVersionList; [done|]. apply wp_ret.
      destruct (negb (Contains (derefList h p) choice)); [by apply wp_ret|].
      by apply IH.
    + apply wp_ret. by apply IH.
Qed.

Lemma rep_foldl_delete h (dm : gmap LibraryName nat)
    (D : Available) (l : list (LibraryName * VersionPtr)) :
  (∀ k, option_Forall2 (repList h) (dm !! k) (D !! k)) →
  ∀ k, option_Forall2 (repList h)
         (foldl (λ depvers kv, delete kv.1 depvers) dm l !! k)
         (foldl (λ depvers kv, delete kv.1 depvers) D l !! k).
Proof.
  revert dm D. induction l as [|[k' v'] l IH]; intros dm D Hrep; [done|].
  cbn [foldl fst]. apply IH. by apply rep_delete.
Qed.

Section StepOnStore.
Variable range : ∀ A : Type, list A → list A.

Lemma newlibs_rep h (dm : gmap LibraryName nat)
    (D : Available) (rest : list LibraryName) :
  (∀ k, option_Forall2 (repList h) (dm !! k) (D !! k)) →
  foldl (λ newlibs (kv : LibraryName * VersionList),
           if negb (foldl (λ found n2, if bool_decide (kv.1 = n2)
                                       then true else found) false rest)
           then newlibs ++ [kv.1] else newlibs)
        [] (rangeMap range D)
  = foldl (λ newlibs (kv : LibraryName * nat),
             if negb (foldl (λ found n2, if bool_decide (kv.1 = n2)
                                         then true else found) false rest)
             then newlibs ++ [kv.1] else newlibs)
          [] (rangeMap range dm).
Proof.
  intros Hrep. rewrite (rangeMap_rep range h dm D Hrep).
  by rewrite foldl_fmap.
Qed.

Lemma wp_tryVersion h index deps mapped c avail A lib rest v
    (Q : Store.step → list object → Prop) :
  repIndex h index deps → repConf h mapped c → repAvail h avail A →
  (∀ s h', preserved (length h) h h' →
           repStep h' s (tryVersion range deps c A lib rest v) → Q s h') →
  wp (Store.tryVersion range index mapped avail lib rest v) h Q.
Proof.
  intros Hi Hc Ha HQ. unfold Store.tryVersion.
  pose proof (lookup_lt_Some _ _ _ Hi) as Hilt.
  assert (avail < length h)%nat as Halt
    by (destruct Ha as (? & Ha & _); by eapply lookup_lt_Some).
  (* config := mapped.Clone() *)
  apply wp_bind. apply (wp_Configuration_Clone range h mapped c); [done|].
  set (h1 := h ++ [ConfigurationObj (Configuration_Clone range c)]).
  assert (preserved (length h) h h1) as P1 by (apply preserved_alloc; lia).
  assert (length h1 = S (length h)) as Hlen1
    by (unfold h1; rewrite length_app; simpl; lia).
  (* depvers := index.Dependencies(lib, ver) *)
  apply wp_bind. apply (wp_Dependencies h1 index deps lib v).
  { by eapply repIndex_preserved. }
  intros h2 P12 (dm & Hdep & Hdm).
  assert (preserved (length h) h h2) as P2.
  { eapply preserved_trans; [done|]. eapply preserved_weaken; [|done]. lia. }
  assert (h2 !! length h = Some (ConfigurationObj (Configuration_Clone range c)))
    as Hcfg2.
  { apply (preserved_lookup h1 h2); [done|]. apply lookup_snoc_last. }
  apply wp_bind. apply (wp_loadConfiguration_rep h2 mapped c).
  { by eapply repConf_preserved. }
  apply wp_bind. eapply wp_loadAvailable; [done|].
  apply wp_bind. apply wp_findFirstM_conflict.
  { intros kv. by apply (rangeMap_rep_elem range h2 dm (Dependencies deps lib v)). }
  unfold tryVersion in HQ.
  assert (List.find (λ kv : LibraryName * VersionList,
                       match entries c !! kv.1 with
                       | Some choice => negb (Contains kv.2 choice)
                       | None => false
                       end) (rangeMap range (Dependencies deps lib v))
          = (λ kv, (kv.1, derefList h2 kv.2)) <$>
            List.find (λ kv : LibraryName * nat,
                         match entries c !! kv.1 with
                         | Some choice =>
                             negb (Contains (derefList h2 kv.2) choice)
                         | None => false
                         end) (rangeMap range dm)) as Efind.
  { by rewrite (rangeMap_rep range h2 dm _ Hdm), find_fmap. }
  rewrite Efind in HQ. clear Efind.
  destruct (List.find _ (rangeMap range dm)) as [kv|].
  { apply wp_ret, HQ; [done|]. simpl. split; [|done]. done. }
  cbn [fmap option_fmap option_map] in HQ.
  (* delete(depvers, l) for every l of mapped *)
  apply wp_bind. eapply wp_mono.
  { apply (wp_forEach _ _
      (λ (done : list (LibraryName * VersionPtr)) h',
         h' = <[length h1 := AvailableObj
                  (foldl (λ depvers kv, delete kv.1 depvers) dm done)]> h2)).
    - by rewrite list_insert_id.
    - intros done [k x] h' -> _. eapply wp_deleteAvailable.
      + apply list_lookup_insert_eq. by eapply lookup_lt_Some.
      + by rewrite list_insert_insert_eq, foldl_app. }
  intros [] h3 ->.
  set (dm' := foldl (λ depvers kv, delete kv.1 depvers) dm
                    (rangeMap range (entries c))).
  set (h3 := <[length h1 := AvailableObj dm']> h2).
  set (D' := foldl (λ depvers kv, delete kv.1 depvers)
                   (Dependencies deps lib v) (rangeMap range (entries c))) in HQ.
  assert (∀ k, option_Forall2 (repList h3) (dm' !! k) (D' !! k)) as Hdm'.
  { eapply rep_transport; [|by apply rep_foldl_delete].
    intros p vl. by eapply repList_store. }
  assert (repAvail h3 (length h1) D') as HD'.
  { exists dm'. split; [|done].
    apply list_lookup_insert_eq. by eapply lookup_lt_Some. }
  assert (preserved (length h) h h3) as P3.
  { eapply preserved_trans; [done|]. apply preserved_store. lia. }
  assert (length h3 = length h2) as Hlen3 by apply length_insert.
  pose proof (proj1 P12) as Hlen2.
  assert (h3 !! length h1 = Some (AvailableObj dm')) as Hdep3.
  { apply list_lookup_insert_eq. by eapply lookup_lt_Some. }
  assert (h3 !! length h = Some (ConfigurationObj (Configuration_Clone range c)))
    as Hcfg3.
  { unfold h3. rewrite list_lookup_insert_ne by lia. done. }
  apply wp_bind. eapply wp_loadAvailable; [done|].
  rewrite <- (newlibs_rep h3 dm' D' rest Hdm').
  (* intersection := avail.Refine(depvers) *)
  apply wp_bind. apply (wp_Refine range h3 avail (length h1) A D').
  { eapply repAvail_store_other; [done|done|lia|].
    by eapply repAvail_preserved. }
  { done. }
  intros h4 P34 (mi & Hint & Hmi).
  assert (preserved (length h) h h4) as P4.
  { eapply preserved_trans; [done|]. eapply preserved_weaken; [|done]. lia. }
  (* delete(intersection, lib) *)
  apply wp_bind. eapply wp_deleteAvailable; [done|].
  set (h5 := <[length h3 := AvailableObj (delete lib mi)]> h4).
  assert (repAvail h5 (length h3)
            (delete lib (Refine range A D'))) as HI5.
  { eapply repAvail_store_self; [done|done|]. by apply rep_delete. }
  assert (preserved (length h) h h5) as P5.
  { eapply preserved_trans; [done|]. apply preserved_store. lia. }
  assert (h5 !! length h = Some (ConfigurationObj (Configuration_Clone range c)))
    as Hcfg5.
  { unfold h5. rewrite list_lookup_insert_ne by lia.
    apply (preserved_lookup h3 h4); done. }
  (* empty := intersection.Empty() *)
  apply wp_bind. apply (wp_Empty range h5 _ _ _ HI5).
  destruct (0 <? length (Empty range (delete lib (Refine range A D'))))%nat.
  { apply wp_ret, HQ; [done|]. by split. }
  (* config[lib] = ver *)
  apply wp_bind. eapply wp_setConfiguration; [done|].
  apply wp_ret, HQ.
  { eapply preserved_trans; [done|]. by apply preserved_store. }
  split; [|split; [|done]].
  - cbn [repConf]. apply list_lookup_insert_eq. by eapply lookup_lt_Some.
  - eapply repAvail_store_other; [done|done|lia|done].
Qed.
End StepOnStore.

Section SearchOnStore.
Variable range : ∀ A : Type, list A → list A.

Lemma wp_findFirstStep h index deps mapped c avail A rest
    (Q : Store.step → list object → Prop) :
  repIndex h index deps → repConf h mapped c → repAvail h avail A →
  (∀ s h', preserved (length h) h h' →
           repStep h' s (findFirstStep range deps c A rest) → Q s h') →
  wp (Store.findFirstStep range index mapped avail rest) h Q.
Proof.
  intros Hi Hc Ha HQ. destruct rest as [|lib rest].
  { apply wp_ret, HQ; [apply preserved_refl|]. by split. }
  cbn [Store.findFirstStep]. pose proof Ha as (am & Hav & Ham).
  apply wp_bind. eapply wp_loadAvailable; [done|].
  unfold findFirstStep, candidates in HQ.
  pose proof (Ham lib) as Hlib.
  destruct (am !! lib) as [vers|] eqn:Eam, (A !! lib) as [vl|] eqn:EA;
    inversion Hlib as [? ? Hvers|]; subst.
  - apply wp_bind, wp_ret. apply wp_bind.
    eapply wp_loadVersionList; [done|].
    destruct vl as [|v vs].
    + apply wp_ret, HQ; [apply preserved_refl|]. by split.
    + by apply (wp_tryVersion range h index deps mapped c avail A).
  - apply wp_bind. apply (wp_Versions range h index deps lib); [done|].
    set (h1 := h ++ [VersionListObj (Versions range deps lib)]).
    assert (preserved (length h) h h1) as P1 by (apply preserved_alloc; lia).
    apply wp_bind. eapply wp_loadVersionList; [apply lookup_snoc_last|].
    destruct (Versions range deps lib) as [|v vs] eqn:Ev.
    + apply wp_ret, HQ; [done|]. by split.
    + apply (wp_tryVersion range h1 index deps mapped c avail A).
      * by eapply repIndex_preserved.
      * by eapply repConf_preserved.
      * by eapply repAvail_preserved.
      * intros s h' P Hs. apply HQ; [|done].
        eapply preserved_trans; [done|]. eapply preserved_weaken; [|done].
        apply P1.
Qed.
End SearchOnStore.

Section FindFirstOnStore.
Variable sched : nat → ∀ A : Type, list A → list A.

Lemma wp_findFirst fuel depth h index deps mapped c avail A rest
    (Q : option (option nat * option string) → list object → Prop) :
  repIndex h index deps → repConf h mapped c → repAvail h avail A →
  (∀ r h', preserved (length h) h h' →
           repResult h' r (findFirst sched fuel depth deps c A rest) →
           Q r h') →
  wp (Store.findFirst sched fuel depth index mapped avail rest) h Q.
Proof.
  revert depth h mapped c avail A rest Q.
  induction fuel as [|fuel IH]; intros depth h mapped c avail A rest Q Hi Hc Ha HQ.
  { apply wp_ret, HQ; [apply preserved_refl|done]. }
  cbn [Store.findFirst findFirst] in *. apply wp_bind.
  apply (wp_findFirstStep (sched depth) h index deps mapped c avail A rest);
    [done..|].
  intros s h1 P1 Hs.
  destruct s as [config err|config intersection newlibs],
    (findFirstStep (sched depth) deps c A rest) as [c' e'|c' a' r'];
    try done.
  - destruct Hs as [Hc' ->]. apply wp_ret, HQ; [done|]. by split.
  - destruct Hs as (Hc' & Ha' & ->).
    apply (IH _ h1 config c' intersection a' r'); [|done..|].
    + by eapply repIndex_preserved.
    + intros r h2 P2 Hr. apply HQ; [|done].
      eapply preserved_trans; [done|]. eapply preserved_weaken; [|done].
      apply P1.
Qed.
End FindFirstOnStore.

(** ** The copies *)

Lemma wp_result {A} (c : M A) (h : list object) (a : A) (h' : list object) :
  wp c h (λ r hr, r = a ∧ hr = h') → c h = Some (a, h').
Proof. by intros (r & hr & Hrun & -> & ->). Qed.

Lemma wp_Available_Clone range h a am (Q : nat → list object → Prop) :
  h !! a = Some (AvailableObj am) →
  Q (length h) (h ++ [AvailableObj (foldl (λ clone kv, <[kv.1 := kv.2]> clone)
                                          ∅ (rangeMap range am))]) →
  wp (StoreAvailable.Available_Clone range a) h Q.
Proof.
  intros Ha HQ. unfold StoreAvailable.Available_Clone.
  apply wp_bind, wp_alloc. apply wp_bind.
  eapply wp_loadAvailable; [by apply lookup_app_l_Some|].
  apply wp_bind. eapply wp_mono.
  - apply (wp_forEach _ _
             (λ (done : list (LibraryName * nat)) h',
                h' = h ++ [AvailableObj
                             (foldl (λ clone kv, <[kv.1 := kv.2]> clone) ∅ done)])).
    + done.
    + intros done [k p] h1 -> _. eapply wp_setAvailable.
      * apply lookup_snoc_last.
      * by rewrite insert_snoc_last, foldl_app.
  - intros [] h' ->. by apply wp_ret.
Qed.

Lemma foldl_insert_id range (range_perm : ∀ A (l : list A), range A l ≡ₚ l)
    {V} (m : gmap LibraryName V) :
  foldl (λ clone kv, <[kv.1 := kv.2]> clone) ∅ (rangeMap range m) = m.
Proof.
  apply map_eq. intros k.
  rewrite (foldl_insert_lookup snd) by by apply rangeMap_NoDup.
  rewrite rangeMap_to_map by done. by destruct (m !! k).
Qed.


(** ** Refine and Empty *)

Lemma wp_conj {A} (c : M A) h (Q1 Q2 : A → list object → Prop) :
  wp c h Q1 → wp c h Q2 → wp c h (λ a h', Q1 a h' ∧ Q2 a h').
Proof.
  intros (a1 & h1 & E1 & H1) (a2 & h2 & E2 & H2).
  rewrite E1 in E2. injection E2 as <- <-. by exists a1, h1.
Qed.

Lemma Intersection_idemp vl other :
  Intersection (Intersection vl other) other = Intersection vl other.
Proof.
  unfold Intersection. apply filter_all_true. intros x Hx.
  apply list_elem_of_In, filter_In in Hx. tauto.
Qed.

(** The pointers that [Refine] stores in its result. *)
Lemma wp_Refine_pointers range
    (range_perm : ∀ A (l : list A), range A l ≡ₚ l)
    h a s am sm (A S : Available) (Q : nat → list object → Prop) :
  h !! a = Some (AvailableObj am) →
  h !! s = Some (AvailableObj sm) →
  (∀ k, option_Forall2 (repList h) (am !! k) (A !! k)) →
  (∀ k, option_Forall2 (repList h) (sm !! k) (S !! k)) →
  (∀ h' rm, h' !! length h = Some (AvailableObj rm) →
            (∀ k, sm !! k = None → rm !! k = am !! k) →
            (∀ k q, is_Some (sm !! k) → rm !! k = Some q →
                    (length h < q)%nat) →
            Q (length h) h') →
  wp (Store.Refine range a s) h Q.
Proof.
  intros Ha Hs Ham Hsm HQ. unfold Store.Refine.
  apply wp_bind, wp_alloc. apply wp_bind.
  eapply wp_loadAvailable; [by apply lookup_app_l_Some|].
  apply wp_bind. eapply wp_mono.
  - apply (wp_forEach _ _
      (λ (done : list (LibraryName * nat)) h',
         preserved (length h) h h'
         ∧ ∃ mr, h' !! length h = Some (AvailableObj mr)
                 ∧ (∀ k, sm !! k = None →
                         mr !! k
                         = foldl (λ (clone : gmap LibraryName nat) kv,
                                    <[kv.1 := kv.2]> clone) ∅ done !! k)
                 ∧ (∀ k q, is_Some (sm !! k) → mr !! k = Some q →
                           (length h < q)%nat))).
    + split; [by apply preserved_alloc|]. exists ∅. split; [|split].
      * apply lookup_snoc_last.
      * done.
      * intros k q _ Hq. by rewrite lookup_empty in Hq.
    + intros done [k p] h1 (Hpres & mr & Hret & Halias & Hfresh) Hin.
      pose proof (rangeMap_rep_elem range h am A (k, p) Ham Hin) as Hp.
      simpl in Hp.
      assert (length h < length h1)%nat as Hlen by by eapply lookup_lt_Some.
      apply wp_bind. eapply wp_loadAvailable; [by eapply preserved_lookup|].
      rewrite foldl_app. cbn [foldl fst snd].
      pose proof (Hsm k) as Hk.
      destruct (sm !! k) as [v2|] eqn:Esm, (S !! k) as [b|] eqn:ES;
        inversion Hk as [? ? Hv2|]; subst.
      * apply wp_bind. eapply wp_Intersection.
        { by eapply repList_preserved. }
        { by eapply repList_preserved. }
        eapply wp_setAvailable; [by apply lookup_app_l_Some|].
        split.
        { eapply preserved_trans; [done|].
          eapply preserved_trans; [apply preserved_alloc, Hpres|].
          by apply preserved_store. }
        exists (<[k := length h1]> mr). split; [|split].
        { apply list_lookup_insert_eq. rewrite length_app. lia. }
        { intros k' Hk'. assert (k ≠ k') by congruence.
          rewrite !lookup_insert_ne by done. by apply Halias. }
        { intros k' q Hk'. destruct (decide (k = k')) as [<-|Hne].
          - rewrite lookup_insert_eq. intros [= <-]. done.
          - rewrite lookup_insert_ne by done. by apply Hfresh. }
      * eapply wp_setAvailable; [done|]. split.
        { eapply preserved_trans; [done|]. by apply preserved_store. }
        exists (<[k := p]> mr). split; [|split].
        { by apply list_lookup_insert_eq. }
        { intros k' Hk'. destruct (decide (k = k')) as [<-|Hne].
          - by rewrite !lookup_insert_eq.
          - rewrite !lookup_insert_ne by done. by apply Halias. }
        { intros k' q Hk'. assert (k ≠ k') as Hne.
          { intros <-. rewrite Esm in Hk'. by destruct Hk'. }
          rewrite lookup_insert_ne by done. by apply Hfresh. }
  - intros [] h' (Hpres & mr & Hret & Halias & Hfresh). apply wp_ret.
    apply (HQ h' mr); [done| |done].
    intros k Hk. rewrite (Halias k Hk). by rewrite foldl_insert_id.
Qed.

(** ** The cases of an activation *)

Section StepCases.
Variable range : ∀ A : Type, list A → list A.
Hypothesis range_perm : ∀ A (l : list A), range A l ≡ₚ l.

Lemma intersection_lookup index mapped (avail : Available) lib v n :
  delete lib
    (Refine range avail
       (foldl (λ (depvers : Available) (kv : LibraryName * VersionPtr),
                 delete kv.1 depvers)
              (Dependencies index lib v) (rangeMap range (entries mapped))))
    !! n
  = constraintsAfter index mapped avail lib v n.
Proof.
  unfold constraintsAfter. case_bool_decide as Hn.
  - subst. by rewrite lookup_delete_eq.
  - rewrite lookup_delete_ne by done.
    rewrite (Refine_lookup range range_perm).
    destruct (avail !! n) as [vl|]; [|done]. f_equal.
    rewrite foldl_delete_lookup.
    case_decide as Hm.
    + apply (elem_of_rangeMap_keys range range_perm) in Hm as [c Hc].
      rewrite Hc. by destruct (Dependencies index lib v !! n).
    + rewrite (elem_of_rangeMap_keys range range_perm) in Hm.
      destruct (entries mapped !! n); [destruct Hm; by eexists|].
      by destruct (Dependencies index lib v !! n).
Qed.

Lemma tryVersion_conflict index mapped avail lib rest v :
  (∃ d vl choice, Dependencies index lib v !! d = Some vl
                  ∧ entries mapped !! d = Some choice
                  ∧ Contains vl choice = false) →
  ∃ d vl choice, Dependencies index lib v !! d = Some vl
                 ∧ entries mapped !! d = Some choice
                 ∧ Contains vl choice = false
                 ∧ tryVersion range index mapped avail lib rest v
                   = Return None (Some (errChosen d)).
Proof.
  intros (d & vl & choice & Hd & Hm & Hc). unfold tryVersion.
  destruct (List.find _ (rangeMap range (Dependencies index lib v)))
    as [[d' vl']|] eqn:Hfind.
  - apply find_some in Hfind as [Hin Hp]. cbn [fst snd] in Hp.
    apply list_elem_of_In, (elem_of_rangeMap range range_perm) in Hin.
    destruct (entries mapped !! d') as [choice'|] eqn:Hm'; [|done].
    apply negb_true_iff in Hp. by exists d', vl', choice'.
  - assert (In (d, vl) (rangeMap range (Dependencies index lib v))) as Hin
      by by apply list_elem_of_In, (elem_of_rangeMap range range_perm).
    pose proof (find_none _ _ Hfind (d, vl) Hin) as Hnone.
    simpl in Hnone. rewrite Hm, Hc in Hnone. done.
Qed.

Lemma tryVersion_no_conflict index mapped avail lib rest v :
  (∀ d vl choice, Dependencies index lib v !! d = Some vl →
                  entries mapped !! d = Some choice →
                  Contains vl choice = true) →
  ∃ intersection newlibs,
    (∀ n, intersection !! n = constraintsAfter index mapped avail lib v n)
    ∧ NoDup newlibs
    ∧ (∀ n, n ∈ newlibs ↔
            is_Some (Dependencies index lib v !! n)
            ∧ entries mapped !! n = None ∧ n ∉ rest)
    ∧ tryVersion range index mapped avail lib rest v
      = if (0 <? length (Empty range intersection))%nat
        then Return None (Some (errEmpty (Empty range intersection)))
        else Call (Some (<[lib := v]> (entries mapped))) intersection
                  (newlibs ++ rest).
Proof.
  intros Hok.
  unfold tryVersion.
  rewrite (Configuration_Clone_entries range range_perm).
  rewrite find_all_false.
  2:{ intros [d vl] Hin%(elem_of_rangeMap range range_perm). cbn [fst snd].
      destruct (entries mapped !! d) as [choice|] eqn:Hm; [|done].
      by rewrite (Hok d vl choice Hin Hm). }
  rewrite (foldl_snoc_filter
             (λ kv, negb (foldl (λ found n2, if bool_decide (kv.1 = n2)
                                             then true else found) false rest))
             fst).
  rewrite app_nil_l. eexists _, _. split; [|split; [|split; [|reflexivity]]].
  - intros n. apply intersection_lookup.
  - apply NoDup_fmap_filter, (rangeMap_NoDup range range_perm).
  - intros n. rewrite list_elem_of_fmap. split.
    + intros [[n' vl] [-> Hin]].
      apply list_elem_of_In, filter_In in Hin as [Hin Hp].
      apply list_elem_of_In, (elem_of_rangeMap range range_perm) in Hin.
      rewrite foldl_delete_lookup in Hin. simpl in *.
      case_decide as Hm; [done|].
      rewrite (elem_of_rangeMap_keys range range_perm) in Hm.
      rewrite foldl_found in Hp. simpl in Hp.
      apply negb_true_iff, bool_decide_eq_false in Hp.
      split; [by eexists|]. split; [|done].
      destruct (entries mapped !! n'); [|done]. destruct Hm. by eexists.
    + intros [[vl Hvl] [Hm Hr]]. exists (n, vl). split; [done|].
      apply list_elem_of_In, filter_In. split.
      * apply list_elem_of_In, (elem_of_rangeMap range range_perm).
        rewrite foldl_delete_lookup. rewrite decide_False; [done|].
        rewrite (elem_of_rangeMap_keys range range_perm), Hm.
        by intros [? ?].
      * rewrite foldl_found. simpl.
        by apply negb_true_iff, bool_decide_eq_false.
Qed.

Lemma findFirstStep_Return_cases index mapped avail lib rest c e :
  findFirstStep range index mapped avail (lib :: rest) = Return c e →
  c = None
  ∧ ((candidates range index avail lib = [] ∧ e = Some (errNotFound lib))
     ∨ (∃ v vs d vl choice,
          candidates range index avail lib = v :: vs
          ∧ Dependencies index lib v !! d = Some vl
          ∧ entries mapped !! d = Some choice
          ∧ Contains vl choice = false
          ∧ e = Some (errChosen d))
     ∨ (∃ v vs intersection,
          candidates range index avail lib = v :: vs
          ∧ (∀ n, intersection !! n
                  = constraintsAfter index mapped avail lib v n)
          ∧ Empty range intersection ≠ []
          ∧ e = Some (errEmpty (Empty range intersection)))).
Proof.
  unfold findFirstStep.
  destruct (candidates range index avail lib) as [|v vs] eqn:Hc.
  { intros [= <- <-]. split; [done|]. by left. }
  cbn [rangeVers]. unfold tryVersion.
  destruct (List.find _ (rangeMap range (Dependencies index lib v)))
    as [[d vl]|] eqn:Hfind.
  - intros [= <- <-]. split; [done|]. right. left.
    apply find_some in Hfind as [Hin Hp]. cbn [fst snd] in Hp.
    apply list_elem_of_In, (elem_of_rangeMap range range_perm) in Hin.
    destruct (entries mapped !! d) as [choice|] eqn:Hm; [|done].
    apply negb_true_iff in Hp. by exists v, vs, d, vl, choice.
  - destruct (0 <? length _)%nat eqn:Hempty; [|done].
    intros [= <- <-]. split; [done|]. right. right.
    eexists v, vs, _. split; [done|]. split; [apply intersection_lookup|].
    split; [|done]. intros Hnil. rewrite Hnil in Hempty. done.
Qed.
End StepCases.

Lemma errChosen_not_errNotFound d l : errChosen d ≠ errNotFound l.
Proof. unfold errChosen, errNotFound. simpl. by intros [=]. Qed.

Lemma errChosen_not_errEmpty d empty : errChosen d ≠ errEmpty empty.
Proof. unfold errChosen, errEmpty. simpl. by intros [=]. Qed.

Lemma errNotFound_not_errEmpty l empty : errNotFound l ≠ errEmpty empty.
Proof. unfold errNotFound, errEmpty. simpl. by intros [=]. Qed.

Lemma constraintsAfter_empty index mapped lib v n :
  constraintsAfter index mapped ∅ lib v n = None.
Proof.
  unfold constraintsAfter. rewrite lookup_empty. by case_bool_decide.
Qed.

Lemma newest_head range (range_perm : ∀ A (l : list A), range A l ≡ₚ l)
    index lib v vs :
  Versions range index lib = v :: vs → newest index lib v.
Proof.
  intros Hv. split.
  - apply (Versions_elem range range_perm). rewrite Hv. by left.
  - intros dep Hin Hn.
    by apply (Versions_head_newest range range_perm index lib v vs dep).
Qed.

Lemma Versions_no_source range (range_perm : ∀ A (l : list A), range A l ≡ₚ l)
    index lib :
  Versions range index lib = [] →
  ∀ dep, dep ∈ index → name (library dep) ≠ lib.
Proof.
  intros Hv dep Hin Hn.
  pose proof (Versions_count range range_perm index lib dep Hin Hn) as Hc.
  rewrite Hv in Hc. done.
Qed.

(** ** The search started by Resolve *)

Section ResolveFacts.
Variable sched : nat → ∀ A : Type, list A → list A.
Hypothesis sched_perm : ∀ d A (l : list A), sched d A l ≡ₚ l.
Variable index : LibraryIndex.

(** With an empty [avail] the search keeps two invariants: every chosen
    version is a newest source version of its library, and the
    dependencies of every chosen version are chosen or still to be
    processed. *)
Lemma findFirst_from_empty fuel depth mapped rest c e :
  (∀ l v, entries mapped !! l = Some v → newest index l v) →
  (∀ l v d, entries mapped !! l = Some v →
            is_Some (Dependencies index l v !! d) →
            is_Some (entries mapped !! d) ∨ d ∈ rest) →
  findFirst sched fuel depth index mapped ∅ rest = Some (c, e) →
  (e = None
   ∧ (∀ l v, entries c !! l = Some v → newest index l v)
   ∧ (∀ l v d, entries c !! l = Some v →
               is_Some (Dependencies index l v !! d) →
               is_Some (entries c !! d))
   ∧ (∀ l, l ∈ rest → is_Some (entries c !! l))
   ∧ (∀ l, is_Some (entries mapped !! l) → is_Some (entries c !! l))
   ∧ (rest ≠ [] → is_Some c))
  ∨ (c = None
     ∧ ((∃ l, e = Some (errNotFound l)
              ∧ (l ∈ rest ∨ ∃ dep, dep ∈ index ∧ name (dependsOn dep) = l)
              ∧ ∀ dep, dep ∈ index → name (library dep) ≠ l)
        ∨ (∃ lib v d choice vl,
             e = Some (errChosen d)
             ∧ newest index lib v ∧ newest index d choice
             ∧ Dependencies index lib v !! d = Some vl
             ∧ Contains vl choice = false))).
Proof.
  revert depth mapped rest.
  induction fuel as [|fuel IH]; intros depth mapped rest G1 G2; [done|].
  cbn [findFirst]. destruct rest as [|lib rest].
  { cbn [findFirstStep]. intros [= <- <-]. left.
    split; [done|]. split; [done|]. split.
    { intros l v d Hl Hd. destruct (G2 l v d Hl Hd) as [?|Hin]; [done|].
      by apply elem_of_nil in Hin. }
    split; [by intros l ?%elem_of_nil|]. split; done. }
  destruct (findFirstStep (sched depth) index mapped ∅ (lib :: rest))
    as [c' e'|c' a' r'] eqn:Hstep.
  - intros [= <- <-]. right.
    apply (findFirstStep_Return_cases _ (sched_perm depth)) in Hstep
      as [-> [[Hc ->]|[(v & vs & d & vl & choice & Hc & Hd & Hm & Hcont & ->)
                      |(v & vs & i & Hc & Hi & Hne & ->)]]].
    + split; [done|]. left. exists lib. split; [done|]. split; [left; by left|].
      unfold candidates in Hc. rewrite lookup_empty in Hc.
      by apply (Versions_no_source _ (sched_perm depth)).
    + split; [done|]. right. exists lib, v, d, choice, vl.
      split; [done|]. split; [|split; [by apply G1|done]].
      unfold candidates in Hc. rewrite lookup_empty in Hc.
      by apply (newest_head _ (sched_perm depth)) in Hc.
    + destruct Hne. assert (i = ∅) as ->.
      { apply map_eq. intros n. by rewrite Hi, constraintsAfter_empty. }
      apply Empty_empty.
  - destruct (findFirstStep_Call _ (sched_perm depth) _ _ _ _ _ _ _ _ Hstep)
      as (v & vs & newlibs & Hc & -> & -> & Hnd & Hnew & Hdom & Hok).
    assert (a' = ∅) as ->.
    { apply dom_empty_iff_L. rewrite dom_empty_L in Hdom. set_solver. }
    unfold candidates in Hc. rewrite lookup_empty in Hc.
    pose proof (newest_head _ (sched_perm depth) _ _ _ _ Hc) as Hv.
    intros Hrec.
    apply IH in Hrec
      as [(-> & G1' & G2' & Hrest & Hmapped & Hsome)
         |[-> [(l & -> & Hl & Hno)|Hconf]]].
    + left. split; [done|]. split; [done|]. split; [done|]. split.
      { intros l [->|Hl]%elem_of_cons.
        - apply Hmapped. rewrite entries_Some, lookup_insert_eq. by eexists.
        - apply Hrest, elem_of_app. by right. }
      split.
      { intros l Hl. apply Hmapped. rewrite entries_Some.
        destruct (decide (lib = l)) as [->|Hne].
        - rewrite lookup_insert_eq. by eexists.
        - by rewrite lookup_insert_ne. }
      intros _. destruct c as [m|]; [by eexists|].
      destruct (Hmapped lib) as [? Hcontra].
      { rewrite entries_Some, lookup_insert_eq. by eexists. }
      done.
    + right. split; [done|]. left. exists l. split; [done|]. split; [|done].
      destruct Hl as [Hl|Hl]; [|by right].
      apply elem_of_app in Hl as [Hl|Hl]; [|left; by right].
      apply Hnew in Hl as [Hd _]. right.
      apply Dependencies_dom in Hd as (dep & Hin & _ & Hn). by exists dep.
    + right. split; [done|]. by right.
    + intros l v0. rewrite entries_Some.
      destruct (decide (lib = l)) as [->|Hne].
      * rewrite lookup_insert_eq. by intros [= <-].
      * rewrite lookup_insert_ne by done. apply G1.
    + intros l v0 d. rewrite !entries_Some.
      assert (∀ d, is_Some (entries mapped !! d) →
                   is_Some (<[lib := v]> (entries mapped) !! d)) as Hkeep.
      { intros d' Hd'. destruct (decide (lib = d')) as [->|Hne].
        - rewrite lookup_insert_eq. by eexists.
        - by rewrite lookup_insert_ne. }
      destruct (decide (lib = l)) as [->|Hne].
      * rewrite lookup_insert_eq. intros [= <-] Hd.
        destruct (entries mapped !! d) as [x|] eqn:Hm.
        { left. apply Hkeep. rewrite Hm. by eexists. }
        destruct (decide (d ∈ rest)) as [Hr|Hr].
        { right. apply elem_of_app. by right. }
        right. apply elem_of_app. left. by apply Hnew.
      * rewrite lookup_insert_ne by done. intros Hl Hd.
        destruct (G2 l v0 d Hl Hd) as [Hm|[->|Hr]%elem_of_cons].
        -- left. by apply Hkeep.
        -- left. rewrite lookup_insert_eq. by eexists.
        -- right. apply elem_of_app. by right.
Qed.

Lemma Resolve_cases libraries c e :
  Resolve sched index libraries = Some (c, e) →
  (e = None
   ∧ (∀ l v, entries c !! l = Some v → newest index l v)
   ∧ (∀ l v d, entries c !! l = Some v →
               is_Some (Dependencies index l v !! d) →
               is_Some (entries c !! d))
   ∧ (∀ l, l ∈ libraries → is_Some (entries c !! l))
   ∧ (libraries ≠ [] → is_Some c))
  ∨ (c = None
     ∧ ((∃ l, e = Some (errNotFound l)
              ∧ (l ∈ libraries
                 ∨ ∃ dep, dep ∈ index ∧ name (dependsOn dep) = l)
              ∧ ∀ dep, dep ∈ index → name (library dep) ≠ l)
        ∨ (∃ lib v d choice vl,
             e = Some (errChosen d)
             ∧ newest index lib v ∧ newest index d choice
             ∧ Dependencies index lib v !! d = Some vl
             ∧ Contains vl choice = false))).
Proof.
  unfold Resolve. intros Hr. apply findFirst_from_empty in Hr.
  - destruct Hr as [(? & ? & ? & ? & _ & ?)|?]; [left|by right]. done.
  - intros l v. cbn [entries default]. by rewrite lookup_empty.
  - intros l v d. cbn [entries default]. by rewrite lookup_empty.
Qed.
End ResolveFacts.

Section SearchShape.
Variable sched : nat → ∀ A : Type, list A → list A.
Hypothesis sched_perm : ∀ d A (l : list A), sched d A l ≡ₚ l.

(** Whatever the constraints: a search that returns returns an error and
    no configuration, or no error and a configuration that assigns the
    libraries of the worklist and those assigned before. *)
Lemma findFirst_result_shape index fuel depth mapped avail rest c e :
  findFirst sched fuel depth index mapped avail rest = Some (c, e) →
  (e = None
   ∧ (∀ l, l ∈ rest → is_Some (entries c !! l))
   ∧ (∀ l, is_Some (entries mapped !! l) → is_Some (entries c !! l)))
  ∨ (c = None ∧ is_Some e).
Proof.
  revert depth mapped avail rest.
  induction fuel as [|fuel IH]; intros depth mapped avail rest; [done|].
  cbn [findFirst]. destruct rest as [|lib rest].
  { cbn [findFirstStep]. intros [= <- <-]. left.
    split; [done|]. split; [by intros l ?%elem_of_nil|done]. }
  destruct (findFirstStep (sched depth) index mapped avail (lib :: rest))
    as [c' e'|c' a' r'] eqn:Hstep.
  - intros [= <- <-]. right. by eapply findFirstStep_Return.
  - destruct (findFirstStep_Call _ (sched_perm depth) _ _ _ _ _ _ _ _ Hstep)
      as (v & vs & newlibs & Hc & -> & -> & _).
    intros [(-> & Hrest & Hmapped)|?]%IH; [left|by right].
    split; [done|]. split.
    + intros l [->|Hl]%elem_of_cons.
      * apply Hmapped. rewrite entries_Some, lookup_insert_eq. by eexists.
      * apply Hrest, elem_of_app. by right.
    + intros l Hl. apply Hmapped. rewrite entries_Some.
      destruct (decide (lib = l)) as [->|Hne].
      * rewrite lookup_insert_eq. by eexists.
      * by rewrite lookup_insert_ne.
Qed.
End SearchShape.

Lemma complete_newest index (m : gmap LibraryName VersionPtr) :
  (∀ l v, m !! l = Some v → newest index l v) →
  (∀ lib v d choice vl,
     newest index lib v → newest index d choice →
     Dependencies index lib v !! d = Some vl → Contains vl choice = true) →
  complete index m = true.
Proof.
  intros Hnew Hcompat. unfold complete. apply forallb_forall.
  intros dep Hin%list_elem_of_In.
  destruct (m !! name (library dep)) as [v|] eqn:Hv; [|done].
  destruct (m !! name (dependsOn dep)) as [d|] eqn:Hd; [|done].
  destruct (ptrCompare v (ver (library dep)) =? 0) eqn:E; [|done].
  apply Z.eqb_eq in E.
  destruct (proj2 (Dependencies_is_Some index (name (library dep)) v
                     (name (dependsOn dep)))) as [vl Hvl];
    [by exists dep|].
  rewrite Hvl. cbn [default].
  apply (Hcompat (name (library dep)) v (name (dependsOn dep)) d vl);
    auto.
Qed.

(** ** An index without a cycle of dependencies *)

Section AcyclicFacts.
Variable sched : nat → ∀ A : Type, list A → list A.
Hypothesis sched_perm : ∀ d A (l : list A), sched d A l ≡ₚ l.



End AcyclicFacts.

(** * The statements of the specification *)

Lemma inOrderSched_perm : ∀ d A (l : list A), inOrderSched d A l ≡ₚ l.
Proof. done. Qed.

Lemma inOrder_perm : ∀ A (l : list A), inOrder A l ≡ₚ l.
Proof. done. Qed.

(** C1 (fails on the code).  On the index X@1.0.0 -> Y@1.0.0,
    Y@1.0.0 -> X@1.0.0, Y@2.0.0 -> X@1.0.0, [Resolve("X")] succeeds with
    X at 1.0.0 and Y at 2.0.0, although the only edge from X@1.0.0 to Y
    allows Y@1.0.0: the returned configuration is not complete. *)
Theorem Resolve_incomplete_configuration :
  Resolve inOrderSched cycleIndex ["X"]
  = Some (Some {[ "X" := version 1 1 0 0; "Y" := version 5 2 0 0 ]}, None)
  ∧ complete cycleIndex {[ "X" := version 1 1 0 0; "Y" := version 5 2 0 0 ]}
    = false.
Proof. split; by vm_compute. Qed.

(** C2 (fails on the code).  On the index A@2.0.0 -> Z@1.0.0 (no version
    of Z known), A@1.0.0 -> B@1.0.0, B@1.0.0 -> A@1.0.0, the candidates of
    A are 2.0.0 and 1.0.0; the recursive call for 2.0.0 fails and
    [Resolve("A")] returns that failure, although the body of the loop run
    on the next candidate 1.0.0 leads to a configuration.  In general an
    activation is decided by its first candidate alone. *)
Theorem findFirst_returns_first_failure :
  candidates inOrder retryIndex ∅ "A" = [version 1 2 0 0; version 3 1 0 0]
  ∧ Resolve inOrderSched retryIndex ["A"]
    = Some (None, Some "No compatible versions of Z found")
  ∧ match tryVersion inOrder retryIndex None ∅ "A" [] (version 3 1 0 0) with
    | Call config intersection newlibs =>
        findFirst inOrderSched 4 1 retryIndex config intersection newlibs
    | Return config err => Some (config, err)
    end
    = Some (Some {[ "A" := version 3 1 0 0; "B" := version 5 1 0 0 ]}, None)
  ∧ (∀ range index mapped avail lib rest v vs,
       candidates range index avail lib = v :: vs →
       findFirstStep range index mapped avail (lib :: rest)
       = tryVersion range index mapped avail lib rest v).
Proof.
  split; [by vm_compute|]. split; [by vm_compute|]. split; [by vm_compute|].
  intros range index mapped avail lib rest v vs.
  apply findFirstStep_first_candidate.
Qed.

(** C3 (fails on the code).  [Refine] keeps the names of its receiver
    only: with an empty receiver the result is empty whatever the incoming
    constraints are, so the name Y of the incoming map Y -> [1.0.0] is not
    retained; in general the names of the result are those of the
    receiver. *)
Theorem Refine_drops_incoming_names :
  (∀ range subset, Refine range ∅ subset = ∅)
  ∧ Refine inOrder ∅ {[ "Y" := [version 2 1 0 0] ]} !! "Y" = None
  ∧ (∀ range, (∀ A (l : list A), range A l ≡ₚ l) →
       ∀ a subset, dom (Refine range a subset) = dom a).
Proof.
  split; [apply Refine_empty|]. split; [by rewrite Refine_empty|].
  intros range range_perm a subset. by apply Refine_dom.
Qed.

(** C4.  For every order of iteration, [Versions index lib] lists pointers
    that are source versions of edges of [lib]; every source version of
    [lib] has exactly one element of its value in the list, however many
    distinct objects carry that value; and the list is strictly
    descending, newest first. *)
Theorem Versions_spec (range : ∀ A : Type, list A → list A)
    (range_perm : ∀ A (l : list A), range A l ≡ₚ l)
    (index : LibraryIndex) (lib : LibraryName) :
  (∀ x, x ∈ Versions range index lib →
        ∃ dep, dep ∈ index ∧ name (library dep) = lib ∧ ver (library dep) = x)
  ∧ (∀ dep, dep ∈ index → name (library dep) = lib →
            countValue (ver (library dep)) (Versions range index lib) = 1%nat)
  ∧ StronglySorted (λ a b, ptrCompare a b = 1) (Versions range index lib).
Proof.
  split; [|split].
  - intros x. by apply Versions_elem.
  - intros dep. by apply Versions_count.
  - by apply Versions_sorted.
Qed.

Lemma Versions_spec_witness :
  (∀ x, x ∈ Versions inOrder duplicateIndex "X" →
        ∃ dep, dep ∈ duplicateIndex ∧ name (library dep) = "X"
               ∧ ver (library dep) = x)
  ∧ (∀ dep, dep ∈ duplicateIndex → name (library dep) = "X" →
            countValue (ver (library dep)) (Versions inOrder duplicateIndex "X")
            = 1%nat)
  ∧ StronglySorted (λ a b, ptrCompare a b = 1)
                   (Versions inOrder duplicateIndex "X").
Proof. exact (Versions_spec inOrder inOrder_perm duplicateIndex "X"). Defined.

(** C5.  [Dependencies index lib v] takes into account exactly the edges
    whose source name is [lib] and whose source version has the value of
    [v]: a target name is bound exactly when such an edge has that target
    name, the list bound to it contains (by value) exactly the target
    versions of those edges, and its elements are target pointers of those
    edges.  Run on a store that holds the edges, the call returns a map
    that stands for this result and leaves every object the store held,
    the edges among them, as it was. *)
Theorem Dependencies_spec (deps : LibraryIndex) (lib : LibraryName)
    (v : VersionPtr) (d : LibraryName) :
  (is_Some (Dependencies deps lib v !! d) ↔
   ∃ dep, dep ∈ deps ∧ name (library dep) = lib
          ∧ ptrCompare v (ver (library dep)) = 0 ∧ name (dependsOn dep) = d)
  ∧ (∀ vl, Dependencies deps lib v !! d = Some vl →
       (∀ w, Contains vl w = true ↔
             ∃ dep, dep ∈ deps ∧ name (library dep) = lib
                    ∧ ptrCompare v (ver (library dep)) = 0
                    ∧ name (dependsOn dep) = d
                    ∧ ptrCompare (ver (dependsOn dep)) w = 0)
       ∧ (∀ x, x ∈ vl →
               ∃ dep, dep ∈ deps ∧ name (library dep) = lib
                      ∧ ptrCompare v (ver (library dep)) = 0
                      ∧ name (dependsOn dep) = d ∧ ver (dependsOn dep) = x))
  ∧ (∀ h index, repIndex h index deps →
       ∃ depvers h',
         Store.Dependencies index lib v h = Some (depvers, h')
         ∧ (∀ l, (l < length h)%nat → h' !! l = h !! l)
         ∧ repIndex h' index deps
         ∧ repAvail h' depvers (Dependencies deps lib v)).
Proof.
  split; [apply Dependencies_is_Some|]. split.
  - intros vl Hvl. split.
    + intros w. by apply Dependencies_Contains.
    + intros x. by apply Dependencies_elem.
  - intros h index Hi.
    destruct (wp_Dependencies h index deps lib v
                (λ l h', preserved (length h) h h'
                         ∧ repAvail h' l (Dependencies deps lib v)))
      as (l & h' & Hrun & P & Hrep); [done|done|].
    exists l, h'. split; [done|]. split; [apply P|].
    split; [by eapply repIndex_preserved|done].
Qed.

(** C6, the statement as it stands fails: with no edges at all, [Resolve("M",
    "L")] has L in its worklist, no version of L is known and no
    constraint on L is stored, yet the failure names M, the first library
    that failed.  The failure is a message and not a tagged value: the two
    different lists of starved names ["a b"] and ["a", "b"] give one and
    the same error. *)
Lemma Resolve_error_names_first_library :
  "L" ∈ ["M"; "L"]
  ∧ Versions inOrder MakeLibraryIndex "L" = []
  ∧ Resolve inOrderSched MakeLibraryIndex ["M"; "L"]
    = Some (None, Some "No compatible versions of M found")
  ∧ errNotFound "L" ≠ "No compatible versions of M found"
  ∧ errEmpty ["a b"] = errEmpty ["a"; "b"].
Proof. split; [by right; left|]. repeat split; by vm_compute. Qed.

(** C6, amended.  A library without an edge from it and without an entry
    in [avail] that is at the head of the worklist makes [findFirst], and
    [Resolve] when it is its first argument, return the nil configuration
    with the message "No compatible versions of L found"; anywhere in the
    worklist of [Resolve] it makes [Resolve] return the nil configuration
    and an error message. *)
Theorem findFirst_unknown_library
    (sched : nat → ∀ A : Type, list A → list A)
    (sched_perm : ∀ d A (l : list A), sched d A l ≡ₚ l)
    (index : LibraryIndex) (lib : LibraryName)
    (unknown : Forall (λ dep, name (library dep) ≠ lib) index) :
  (∀ fuel depth mapped avail rest,
     avail !! lib = None →
     findFirst sched (S fuel) depth index mapped avail (lib :: rest)
     = Some (None, Some (errNotFound lib)))
  ∧ (∀ libraries,
       Resolve sched index (lib :: libraries)
       = Some (None, Some (errNotFound lib)))
  ∧ (∀ libraries, lib ∈ libraries →
       ∃ msg, Resolve sched index libraries = Some (None, Some msg)).
Proof.
  rewrite Forall_forall in unknown.
  assert (∀ fuel depth mapped avail rest,
            avail !! lib = None →
            findFirst sched (S fuel) depth index mapped avail (lib :: rest)
            = Some (None, Some (errNotFound lib))) as Hhead.
  { intros fuel depth mapped avail rest Ha. cbn [findFirst].
    rewrite findFirstStep_no_candidate; [done|].
    unfold candidates. rewrite Ha.
    by apply Versions_nil. }
  split; [done|]. split.
  - intros libraries. unfold Resolve. by apply Hhead.
  - intros libraries Hin.
    destruct (findFirst_enough_fuel sched sched_perm index
                (S (measure index None libraries)) 0 None ∅ libraries)
      as [[c e] Hr]; [lia|].
    destruct (findFirst_unknown_fails sched sched_perm index lib _ _ _ _ _ c e
                unknown Hin (lookup_empty _) Hr) as [-> [msg ->]].
    by exists msg.
Qed.

Lemma findFirst_unknown_library_witness :
  (∀ fuel depth mapped avail rest,
     avail !! "L" = None →
     findFirst inOrderSched (S fuel) depth cycleIndex mapped avail ("L" :: rest)
     = Some (None, Some (errNotFound "L")))
  ∧ (∀ libraries,
       Resolve inOrderSched cycleIndex ("L" :: libraries)
       = Some (None, Some (errNotFound "L")))
  ∧ (∀ libraries, "L" ∈ libraries →
       ∃ msg, Resolve inOrderSched cycleIndex libraries = Some (None, Some msg)).
Proof.
  apply (findFirst_unknown_library inOrderSched (λ _ _ l, Permutation_refl l)
           cycleIndex "L").
  by vm_compute; repeat constructor.
Defined.


(** C8, the statement as it stands fails: X@1.0.0 -> X@1.0.0 and
    X@2.0.0 -> X@2.0.0 name one library.  The first activation of
    [Resolve("X")] assigns X and, X being in its own dependency set and
    not yet in the assignment it received, hands X on in the worklist of
    the next activation; two nested activations (one per distinct name, and
    the one that finds the worklist empty) do not complete the search,
    three do. *)
Lemma findFirst_reschedules_self_dependency :
  size (names selfIndex) = 1%nat
  ∧ findFirstStep inOrder selfIndex None ∅ ["X"]
    = Call (Some {[ "X" := version 3 2 0 0 ]}) ∅ ["X"]
  ∧ findFirst inOrderSched 2 0 selfIndex None ∅ ["X"] = None
  ∧ findFirst inOrderSched 3 0 selfIndex None ∅ ["X"]
    = Some (Some {[ "X" := version 3 2 0 0 ]}, None).
Proof. repeat split; by vm_compute. Qed.

(** C8, amended.  The names an activation adds in front of the worklist
    are distinct and are exactly the dependencies of the chosen version
    that are neither in the assignment the activation received nor in the
    rest of the worklist: a library chosen by an earlier activation is not
    scheduled again (a cycle is met by the check against the chosen
    version), while the library the activation itself assigns is, when it
    depends on itself and is not scheduled already.  The number of nested
    activations is bounded by [measure]: with more fuel than that,
    [findFirst] returns, the same result for any larger bound, and
    [Resolve] returns on every index and worklist. *)
Theorem findFirst_terminates
    (sched : nat → ∀ A : Type, list A → list A)
    (sched_perm : ∀ d A (l : list A), sched d A l ≡ₚ l)
    (index : LibraryIndex) :
  (∀ depth mapped avail lib rest config avail' rest',
     findFirstStep (sched depth) index mapped avail (lib :: rest)
       = Call config avail' rest' →
     ∃ v vs newlibs,
       candidates (sched depth) index avail lib = v :: vs
       ∧ config = Some (<[lib := v]> (entries mapped))
       ∧ rest' = newlibs ++ rest ∧ NoDup newlibs
       ∧ ∀ n, n ∈ newlibs ↔
              is_Some (Dependencies index lib v !! n)
              ∧ entries mapped !! n = None ∧ n ∉ rest)
  ∧ (∀ fuel depth mapped avail rest,
       (measure index mapped rest < fuel)%nat →
       ∃ r, findFirst sched fuel depth index mapped avail rest = Some r
            ∧ ∀ fuel', (fuel ≤ fuel')%nat →
                findFirst sched fuel' depth index mapped avail rest = Some r)
  ∧ (∀ libraries, is_Some (Resolve sched index libraries)).
Proof.
  split; [|split].
  - intros depth mapped avail lib rest config avail' rest' Hstep.
    destruct (findFirstStep_Call _ (sched_perm depth) _ _ _ _ _ _ _ _ Hstep)
      as (v & vs & newlibs & Hc & -> & -> & Hnd & Hnew & _).
    by exists v, vs, newlibs.
  - intros fuel depth mapped avail rest Hlt.
    destruct (findFirst_enough_fuel sched sched_perm index fuel depth mapped
                avail rest Hlt) as [r Hr].
    exists r. split; [done|]. intros fuel' Hle.
    by eapply findFirst_more_fuel.
  - intros libraries. unfold Resolve.
    apply findFirst_enough_fuel; [done|lia].
Qed.

Lemma findFirst_terminates_witness :
  (∀ depth mapped avail lib rest config avail' rest',
     findFirstStep (inOrderSched depth) cycleIndex mapped avail (lib :: rest)
       = Call config avail' rest' →
     ∃ v vs newlibs,
       candidates (inOrderSched depth) cycleIndex avail lib = v :: vs
       ∧ config = Some (<[lib := v]> (entries mapped))
       ∧ rest' = newlibs ++ rest ∧ NoDup newlibs
       ∧ ∀ n, n ∈ newlibs ↔
              is_Some (Dependencies cycleIndex lib v !! n)
              ∧ entries mapped !! n = None ∧ n ∉ rest)
  ∧ (∀ fuel depth mapped avail rest,
       (measure cycleIndex mapped rest < fuel)%nat →
       ∃ r, findFirst inOrderSched fuel depth cycleIndex mapped avail rest
            = Some r
            ∧ ∀ fuel', (fuel ≤ fuel')%nat →
                findFirst inOrderSched fuel' depth cycleIndex mapped avail rest
                = Some r)
  ∧ (∀ libraries, is_Some (Resolve inOrderSched cycleIndex libraries)).
Proof.
  exact (findFirst_terminates inOrderSched (λ _ _ l, Permutation_refl l)
           cycleIndex).
Defined.

(** C9.  Run in a store that holds the index, the configuration [mapped]
    (or nil) and the constraint store [avail] with its version lists,
    [findFirst] returns, with success or with an error, and every object
    the store held before the call is the same after it: the caller's
    configuration, its constraint store and version lists, and the edges
    of the index.  Its result is the result of the search on values. *)
Theorem findFirst_preserves_store
    (sched : nat → ∀ A : Type, list A → list A)
    (sched_perm : ∀ d A (l : list A), sched d A l ≡ₚ l)
    (h : list object) (index : nat) (deps : LibraryIndex)
    (mapped : option nat) (c : Configuration)
    (avail : nat) (A : Available)
    (rest : list LibraryName) (fuel depth : nat)
    (Hindex : repIndex h index deps)
    (Hmapped : repConf h mapped c)
    (Havail : repAvail h avail A)
    (Hfuel : (measure deps c rest < fuel)%nat) :
  ∃ config err h',
    Store.findFirst sched fuel depth index mapped avail rest h
    = Some (Some (config, err), h')
    ∧ (∀ l, (l < length h)%nat → h' !! l = h !! l)
    ∧ repIndex h' index deps ∧ repConf h' mapped c ∧ repAvail h' avail A
    ∧ ∃ c', findFirst sched fuel depth deps c A rest = Some (c', err)
            ∧ repConf h' config c'.
Proof.
  destruct (findFirst_enough_fuel sched sched_perm deps fuel depth c A rest Hfuel)
    as [[c' e'] Hpure].
  destruct (wp_findFirst sched fuel depth h index deps mapped c avail A rest
              (λ r h', preserved (length h) h h'
                       ∧ repResult h' r (Some (c', e'))))
    as (r & h' & Hrun & P & Hr); [done..| |].
  { intros r h' P Hr. by rewrite Hpure in Hr. }
  destruct r as [[config err]|]; [|done]. destruct Hr as [Hconf ->].
  exists config, e', h'. split; [done|]. split; [apply P|].
  split; [by eapply repIndex_preserved|].
  split; [by eapply repConf_preserved|].
  split; [by eapply repAvail_preserved|]. by exists c'.
Qed.

Lemma findFirst_preserves_store_witness :
  ∃ config err h',
    Store.findFirst inOrderSched 3 0 0 (Some 1%nat) 3 ["Y"] sampleStore
    = Some (Some (config, err), h')
    ∧ (∀ l, (l < length sampleStore)%nat → h' !! l = sampleStore !! l)
    ∧ repIndex h' 0 cycleIndex
    ∧ repConf h' (Some 1%nat) (Some {[ "X" := version 1 1 0 0 ]})
    ∧ repAvail h' 3 {[ "Y" := [version 5 2 0 0; version 3 1 0 0] ]}
    ∧ ∃ c', findFirst inOrderSched 3 0 cycleIndex
              (Some {[ "X" := version 1 1 0 0 ]})
              {[ "Y" := [version 5 2 0 0; version 3 1 0 0] ]} ["Y"]
            = Some (c', err)
            ∧ repConf h' config c'.
Proof.
  apply (findFirst_preserves_store inOrderSched (λ _ _ l, Permutation_refl l)
           sampleStore 0 cycleIndex (Some 1%nat)
           (Some {[ "X" := version 1 1 0 0 ]}) 3
           {[ "Y" := [version 5 2 0 0; version 3 1 0 0] ]} ["Y"] 3 0).
  - reflexivity.
  - reflexivity.
  - exists {[ "Y" := 2%nat ]}. split; [reflexivity|].
    intros k. destruct (decide (k = "Y")) as [->|Hne].
    + rewrite !lookup_singleton_eq. by constructor.
    + rewrite !lookup_singleton_ne by done. constructor.
  - vm_compute. lia.
Defined.

(** C10.  [Resolve] without library names returns the nil configuration
    and the nil error: the search starts from the nil map and an empty
    [Available], an empty worklist returns the assignment it was given at
    once, and the clone of a nil configuration is an empty map, in the
    store a new object that later assignments can write. *)
Theorem Resolve_no_libraries
    (sched : nat → ∀ A : Type, list A → list A)
    (range : ∀ A : Type, list A → list A)
    (index : LibraryIndex) :
  Resolve sched index [] = Some (None, None)
  ∧ (∀ libraries,
       Resolve sched index libraries
       = findFirst sched (S (measure index None libraries)) 0 index None ∅
                   libraries)
  ∧ (∀ fuel depth mapped avail,
       findFirst sched (S fuel) depth index mapped avail [] = Some (mapped, None))
  ∧ Configuration_Clone range None = ∅
  ∧ (∀ h, Store.Configuration_Clone range None h
          = Some (length h, h ++ [ConfigurationObj ∅]))
  ∧ (∀ h lib v,
       (clone ← Store.Configuration_Clone range None;
        setConfiguration clone lib v) h
       = Some ((), h ++ [ConfigurationObj {[lib := v]}])).
Proof.
  assert (∀ h, Store.Configuration_Clone range None h
               = Some (length h, h ++ [ConfigurationObj ∅])) as Hclone.
  { intros h. unfold Store.Configuration_Clone.
    unfold mbind, M_bind, alloc. cbn [loadConfiguration].
    unfold mret, M_ret. by rewrite rangeMap_empty. }
  split; [done|]. split; [done|]. split; [done|].
  split; [apply Configuration_Clone_nil|]. split; [done|].
  intros h lib v. unfold mbind at 1. unfold M_bind at 1. rewrite Hclone.
  unfold setConfiguration, loadConfiguration, load, store, mbind, M_bind.
  rewrite lookup_snoc_last. unfold mret, M_ret.
  rewrite decide_True by (rewrite length_app; simpl; lia).
  by rewrite insert_snoc_last, insert_empty.
Qed.

(** * Further properties of the code *)

(** X1.  [Configuration.Clone] returns a new map with the entries of its
    receiver, whatever the order of iteration: in the store the clone is a
    new object, a later assignment to the clone is not seen through the
    receiver, and no object of the store is changed. *)
Theorem Configuration_Clone_independent
    (range : ∀ A : Type, list A → list A)
    (range_perm : ∀ A (l : list A), range A l ≡ₚ l)
    (h : list object) (r : option nat) (conf : Configuration)
    (lib : LibraryName) (v : VersionPtr)
    (Hconf : repConf h r conf) :
  Configuration_Clone range conf = entries conf
  ∧ (clone ← Store.Configuration_Clone range r;
     setConfiguration clone lib v;;
     m ← loadConfiguration r;
     mret (clone, m)) h
    = Some ((length h, entries conf),
            h ++ [ConfigurationObj (<[lib := v]> (entries conf))]).
Proof.
  split; [by apply Configuration_Clone_entries|].
  apply wp_result. apply wp_bind.
  apply (wp_Configuration_Clone range h r conf); [done|].
  rewrite Configuration_Clone_entries by done.
  apply wp_bind. eapply wp_setConfiguration; [apply lookup_snoc_last|].
  rewrite insert_snoc_last. apply wp_bind.
  apply (wp_loadConfiguration_rep _ r conf).
  { eapply repConf_preserved; [|done]. apply preserved_alloc. lia. }
  by apply wp_ret.
Qed.

Lemma Configuration_Clone_independent_witness :
  Configuration_Clone inOrder (Some {[ "X" := version 1 1 0 0 ]})
  = {[ "X" := version 1 1 0 0 ]}
  ∧ (clone ← Store.Configuration_Clone inOrder (Some 1%nat);
     setConfiguration clone "Y" (version 5 2 0 0);;
     m ← loadConfiguration (Some 1%nat);
     mret (clone, m)) sampleStore
    = Some ((4%nat, {[ "X" := version 1 1 0 0 ]}),
            sampleStore
            ++ [ConfigurationObj (<[ "Y" := version 5 2 0 0 ]>
                                    {[ "X" := version 1 1 0 0 ]})]).
Proof.
  exact (Configuration_Clone_independent inOrder inOrder_perm sampleStore
           (Some 1%nat) (Some {[ "X" := version 1 1 0 0 ]})
           "Y" (version 5 2 0 0) eq_refl).
Defined.

(** X2.  [Available.Clone] copies the map and not the lists: the clone is
    a new object that binds the names of the receiver to the same list
    pointers, so a version added through the clone is read through the
    receiver. *)
Theorem Available_Clone_shares_lists
    (range : ∀ A : Type, list A → list A)
    (range_perm : ∀ A (l : list A), range A l ≡ₚ l)
    (h : list object) (a : nat) (am : gmap LibraryName nat)
    (k : LibraryName) (p : nat) (vl : VersionList) (v : VersionPtr)
    (Ha : h !! a = Some (AvailableObj am))
    (Hk : am !! k = Some p)
    (Hp : h !! p = Some (VersionListObj vl)) :
  StoreAvailable.Available_Clone range a h
  = Some (length h, h ++ [AvailableObj am])
  ∧ (clone ← StoreAvailable.Available_Clone range a;
     cm ← loadAvailable clone;
     match cm !! k with Some q => Store.Add q v | None => panic end;;
     am' ← loadAvailable a;
     match am' !! k with Some q => loadVersionList q | None => panic end) h
    = Some (Add vl v,
            <[p := VersionListObj (Add vl v)]> h ++ [AvailableObj am]).
Proof.
  split.
  - apply wp_result. apply (wp_Available_Clone range h a am); [done|].
    by rewrite foldl_insert_id.
  - apply wp_result. apply wp_bind.
    apply (wp_Available_Clone range h a am); [done|].
    rewrite foldl_insert_id by done. apply wp_bind.
    eapply wp_loadAvailable; [apply lookup_snoc_last|]. rewrite Hk.
    assert (p < length h)%nat as Hlt by by eapply lookup_lt_Some.
    assert (a < length h)%nat as Hlta by by eapply lookup_lt_Some.
    assert (a ≠ p) as Hne by (intros ->; congruence).
    apply wp_bind. eapply wp_Add; [by apply lookup_app_l_Some|].
    rewrite insert_app_l by done.
    apply wp_bind. eapply wp_loadAvailable.
    { apply lookup_app_l_Some. by rewrite list_lookup_insert_ne. }
    rewrite Hk. eapply wp_loadVersionList.
    { apply lookup_app_l_Some. by apply list_lookup_insert_eq. }
    done.
Qed.

Lemma Available_Clone_shares_lists_witness :
  StoreAvailable.Available_Clone inOrder 1 listStore
  = Some (2%nat, listStore ++ [AvailableObj {[ "Y" := 0%nat ]}])
  ∧ (clone ← StoreAvailable.Available_Clone inOrder 1;
     cm ← loadAvailable clone;
     match cm !! "Y" with
     | Some q => Store.Add q (version 5 2 0 0)
     | None => panic
     end;;
     am' ← loadAvailable 1;
     match am' !! "Y" with Some q => loadVersionList q | None => panic end)
      listStore
    = Some (Add [version 3 1 0 0] (version 5 2 0 0),
            <[0%nat := VersionListObj (Add [version 3 1 0 0] (version 5 2 0 0))]>
              listStore ++ [AvailableObj {[ "Y" := 0%nat ]}]).
Proof.
  exact (Available_Clone_shares_lists inOrder inOrder_perm listStore 1
           {[ "Y" := 0%nat ]} "Y" 0 [version 3 1 0 0] (version 5 2 0 0)
           eq_refl eq_refl eq_refl).
Defined.

(** X3.  [Refine] narrows the receiver and nothing else: a name of the
    receiver that the argument does not bind keeps its list, a name that
    both bind gets the intersection, and a name of the argument alone is
    not in the result.  Refining by no constraints changes nothing, and
    refining a second time by the same constraints changes nothing. *)
Theorem Refine_narrows_receiver
    (range : ∀ A : Type, list A → list A)
    (range_perm : ∀ A (l : list A), range A l ≡ₚ l)
    (a subset : Available) :
  (∀ k, Refine range a subset !! k =
        match a !! k, subset !! k with
        | None, _ => None
        | Some vl, None => Some vl
        | Some vl, Some other => Some (Intersection vl other)
        end)
  ∧ Refine range a ∅ = a
  ∧ Refine range (Refine range a subset) subset = Refine range a subset.
Proof.
  split; [|split].
  - intros k. rewrite Refine_lookup by done.
    by destruct (a !! k), (subset !! k).
  - apply map_eq. intros k. rewrite Refine_lookup by done.
    rewrite lookup_empty. by destruct (a !! k).
  - apply map_eq. intros k. rewrite !Refine_lookup by done.
    destruct (a !! k) as [vl|]; [|done].
    destruct (subset !! k) as [other|]; [|done].
    by rewrite Intersection_idemp.
Qed.

Lemma Refine_narrows_receiver_witness :
  (∀ k, Refine inOrder {[ "Y" := [version 5 2 0 0; version 3 1 0 0] ]}
               {[ "Y" := [version 2 1 0 0] ]} !! k =
        match ({[ "Y" := [version 5 2 0 0; version 3 1 0 0] ]} : Available) !! k,
              ({[ "Y" := [version 2 1 0 0] ]} : Available) !! k with
        | None, _ => None
        | Some vl, None => Some vl
        | Some vl, Some other => Some (Intersection vl other)
        end)
  ∧ Refine inOrder {[ "Y" := [version 5 2 0 0; version 3 1 0 0] ]} ∅
    = {[ "Y" := [version 5 2 0 0; version 3 1 0 0] ]}
  ∧ Refine inOrder
      (Refine inOrder {[ "Y" := [version 5 2 0 0; version 3 1 0 0] ]}
              {[ "Y" := [version 2 1 0 0] ]})
      {[ "Y" := [version 2 1 0 0] ]}
    = Refine inOrder {[ "Y" := [version 5 2 0 0; version 3 1 0 0] ]}
             {[ "Y" := [version 2 1 0 0] ]}.
Proof.
  exact (Refine_narrows_receiver inOrder inOrder_perm
           {[ "Y" := [version 5 2 0 0; version 3 1 0 0] ]}
           {[ "Y" := [version 2 1 0 0] ]}).
Defined.

(** X4.  Run on the store, [Refine] returns a new map and changes no
    object the store held.  Under a name that the argument does not bind
    the result holds the very list pointer of the receiver (the list is
    shared, not copied); under a name that both bind it holds a list
    allocated by the call. *)
Theorem Refine_shares_unconstrained_lists
    (range : ∀ A : Type, list A → list A)
    (range_perm : ∀ A (l : list A), range A l ≡ₚ l)
    (h : list object) (a s : nat) (am sm : gmap LibraryName nat)
    (A S : Available)
    (Ha : h !! a = Some (AvailableObj am))
    (Hs : h !! s = Some (AvailableObj sm))
    (Ham : ∀ k, option_Forall2 (repList h) (am !! k) (A !! k))
    (Hsm : ∀ k, option_Forall2 (repList h) (sm !! k) (S !! k)) :
  ∃ rm h',
    Store.Refine range a s h = Some (length h, h')
    ∧ (∀ l, (l < length h)%nat → h' !! l = h !! l)
    ∧ h' !! length h = Some (AvailableObj rm)
    ∧ repAvail h' (length h) (Refine range A S)
    ∧ (∀ k, sm !! k = None → rm !! k = am !! k)
    ∧ (∀ k q, is_Some (sm !! k) → rm !! k = Some q → (length h < q)%nat).
Proof.
  pose proof (wp_conj _ h _ _
    (wp_Refine range h a s A S
       (λ r h', r = length h ∧ preserved (length h) h h'
                ∧ repAvail h' (length h) (Refine range A S))
       (ex_intro _ am (conj Ha Ham)) (ex_intro _ sm (conj Hs Hsm))
       (λ h' P R, conj eq_refl (conj P R)))
    (wp_Refine_pointers range range_perm h a s am sm A S
       (λ r h', ∃ rm, h' !! length h = Some (AvailableObj rm)
                      ∧ (∀ k, sm !! k = None → rm !! k = am !! k)
                      ∧ (∀ k q, is_Some (sm !! k) → rm !! k = Some q →
                                (length h < q)%nat))
       Ha Hs Ham Hsm
       (λ h' rm H1 H2 H3, ex_intro _ rm (conj H1 (conj H2 H3)))))
    as (r & h' & Hrun & (-> & Hpres & Hrep) & rm & Hrm & Halias & Hfresh).
  exists rm, h'. repeat split; try done. apply Hpres.
Qed.

Lemma Refine_shares_unconstrained_lists_witness :
  ∃ rm h',
    Store.Refine inOrder 1 2 (listStore ++ [AvailableObj ∅])
    = Some (3%nat, h')
    ∧ (∀ l, (l < 3)%nat → h' !! l = (listStore ++ [AvailableObj ∅]) !! l)
    ∧ h' !! 3%nat = Some (AvailableObj rm)
    ∧ repAvail h' 3 (Refine inOrder {[ "Y" := [version 3 1 0 0] ]} ∅)
    ∧ (∀ k, (∅ : gmap LibraryName nat) !! k = None →
            rm !! k = ({[ "Y" := 0%nat ]} : gmap LibraryName nat) !! k)
    ∧ (∀ k q, is_Some ((∅ : gmap LibraryName nat) !! k) →
              rm !! k = Some q → (3 < q)%nat).
Proof.
  apply (Refine_shares_unconstrained_lists inOrder inOrder_perm
           (listStore ++ [AvailableObj ∅]) 1 2
           {[ "Y" := 0%nat ]} ∅ {[ "Y" := [version 3 1 0 0] ]} ∅
           eq_refl eq_refl).
  - intros k. destruct (decide (k = "Y")) as [->|Hne].
    + rewrite !lookup_singleton_eq. by constructor.
    + rewrite !lookup_singleton_ne by done. constructor.
  - intros k. rewrite !lookup_empty. constructor.
Defined.

(** X5.  [Empty] lists, each once, exactly the names bound to a list
    without versions; run on the store it gives the same names and writes
    nothing. *)
Theorem Empty_lists_starved_names
    (range : ∀ A : Type, list A → list A)
    (range_perm : ∀ A (l : list A), range A l ≡ₚ l)
    (a : Available) (h : list object) (l : nat)
    (Hl : repAvail h l a) :
  NoDup (Empty range a)
  ∧ (∀ k, k ∈ Empty range a ↔ ∃ vl, a !! k = Some vl ∧ Len vl = 0%nat)
  ∧ Store.Empty range l h = Some (Empty range a, h).
Proof.
  split; [|split].
  - rewrite Empty_filter. apply NoDup_fmap_filter. by apply rangeMap_NoDup.
  - intros k. by apply elem_of_Empty.
  - apply wp_result. by apply (wp_Empty range h l a).
Qed.

Lemma Empty_lists_starved_names_witness :
  NoDup (Empty inOrder {[ "Y" := [version 3 1 0 0] ]})
  ∧ (∀ k, k ∈ Empty inOrder {[ "Y" := [version 3 1 0 0] ]} ↔
          ∃ vl, ({[ "Y" := [version 3 1 0 0] ]} : Available) !! k = Some vl
                ∧ Len vl = 0%nat)
  ∧ Store.Empty inOrder 1 listStore
    = Some (Empty inOrder {[ "Y" := [version 3 1 0 0] ]}, listStore).
Proof.
  apply (Empty_lists_starved_names inOrder inOrder_perm
           {[ "Y" := [version 3 1 0 0] ]} listStore 1).
  exists {[ "Y" := 0%nat ]}. split; [reflexivity|].
  intros k. destruct (decide (k = "Y")) as [->|Hne].
  - rewrite !lookup_singleton_eq. by constructor.
  - rewrite !lookup_singleton_ne by done. constructor.
Defined.

(** X6.  [AddDependency] followed by [Dependencies]: after the edge
    lib@libver -> deplib@depver is added, the versions that the edges from
    [lib] at a version with the value of [libver] allow for a name are
    those allowed before and, for [deplib], the versions with the value of
    [depver]; for any other library, or a version with another value, the
    result of [Dependencies] is what it was. *)
Theorem AddDependency_then_Dependencies
    (index : LibraryIndex) (lib : LibraryName) (libver : VersionPtr)
    (deplib : LibraryName) (depver : VersionPtr) (v : VersionPtr)
    (Hv : ptrCompare v libver = 0) :
  (∀ d w,
     (∃ vl, Dependencies (AddDependency index lib libver deplib depver) lib v
              !! d = Some vl ∧ Contains vl w = true)
     ↔ (∃ vl, Dependencies index lib v !! d = Some vl ∧ Contains vl w = true)
       ∨ (d = deplib ∧ ptrCompare depver w = 0))
  ∧ (∀ lib' v',
       lib' ≠ lib ∨ ptrCompare v' libver ≠ 0 →
       Dependencies (AddDependency index lib libver deplib depver) lib' v'
       = Dependencies index lib' v').
Proof.
  split.
  - intros d w. split.
    + intros (vl & Hd & Hc).
      apply (Dependencies_Contains _ _ _ _ _ w Hd) in Hc
        as (dep & Hin & Hn & Hver & Hdn & Hw).
      apply elem_of_app in Hin as [Hin|Hin].
      * left.
        destruct (proj2 (Dependencies_is_Some index lib v d)) as [vl0 Hvl0];
          [by exists dep|].
        exists vl0. split; [done|].
        apply (Dependencies_Contains _ _ _ _ _ w Hvl0). by exists dep.
      * apply list_elem_of_singleton in Hin as ->. right. by split.
    + intros Hold.
      set (index' := AddDependency index lib libver deplib depver).
      assert (∃ dep, dep ∈ index' ∧ name (library dep) = lib
                     ∧ ptrCompare v (ver (library dep)) = 0
                     ∧ name (dependsOn dep) = d
                     ∧ ptrCompare (ver (dependsOn dep)) w = 0)
        as (dep & Hin & Hn & Hver & Hdn & Hw).
      { destruct Hold as [(vl & Hd & Hc)|[-> Hw]].
        - apply (Dependencies_Contains _ _ _ _ _ w Hd) in Hc
            as (dep & Hin & Hrest).
          exists dep. split; [|done]. apply elem_of_app. by left.
        - eexists. split; [apply elem_of_app; right; by left|]. done. }
      destruct (proj2 (Dependencies_is_Some index' lib v d)) as [vl Hvl];
        [by exists dep|].
      exists vl. split; [done|].
      apply (Dependencies_Contains _ _ _ _ _ w Hvl). by exists dep.
  - intros lib' v' Hne. unfold AddDependency. rewrite Dependencies_snoc.
    cbn [library name ver].
    destruct (bool_decide (lib = lib')) eqn:E1; [|done].
    apply bool_decide_eq_true in E1 as <-.
    destruct (ptrCompare v' libver =? 0) eqn:E2; [|done].
    apply Z.eqb_eq in E2. by destruct Hne.
Qed.

Lemma AddDependency_then_Dependencies_witness :
  (∀ d w,
     (∃ vl, Dependencies
              (AddDependency cycleIndex "X" (version 7 1 0 0)
                             "Z" (version 8 3 0 0)) "X" (version 1 1 0 0)
              !! d = Some vl ∧ Contains vl w = true)
     ↔ (∃ vl, Dependencies cycleIndex "X" (version 1 1 0 0) !! d = Some vl
              ∧ Contains vl w = true)
       ∨ (d = "Z" ∧ ptrCompare (version 8 3 0 0) w = 0))
  ∧ (∀ lib' v',
       lib' ≠ "X" ∨ ptrCompare v' (version 7 1 0 0) ≠ 0 →
       Dependencies (AddDependency cycleIndex "X" (version 7 1 0 0)
                                   "Z" (version 8 3 0 0)) lib' v'
       = Dependencies cycleIndex lib' v').
Proof.
  exact (AddDependency_then_Dependencies cycleIndex "X" (version 7 1 0 0)
           "Z" (version 8 3 0 0) (version 1 1 0 0) eq_refl).
Defined.

(** X7.  [AddDependency] followed by [Versions]: the source version of the
    added edge is listed (by value, once) for the source library; a
    version listed before is still listed; and the versions of every other
    library, the target of the new edge among them, are unchanged: being
    depended upon does not make a version known. *)
Theorem AddDependency_then_Versions
    (range : ∀ A : Type, list A → list A)
    (range_perm : ∀ A (l : list A), range A l ≡ₚ l)
    (index : LibraryIndex) (lib : LibraryName) (libver : VersionPtr)
    (deplib : LibraryName) (depver : VersionPtr) :
  countValue libver
    (Versions range (AddDependency index lib libver deplib depver) lib)
  = 1%nat
  ∧ (∀ w, Contains (Versions range index lib) w = true →
          Contains (Versions range
                      (AddDependency index lib libver deplib depver) lib) w
          = true)
  ∧ (∀ lib', lib' ≠ lib →
             Versions range (AddDependency index lib libver deplib depver) lib'
             = Versions range index lib').
Proof.
  split; [|split].
  - apply (Versions_count range range_perm
             (AddDependency index lib libver deplib depver) lib
             {| library := {| name := lib; ver := libver |};
                dependsOn := {| name := deplib; ver := depver |} |});
      [|done].
    apply elem_of_app. right. by left.
  - intros w [x [Hx Hxw]]%Contains_true.
    apply (Versions_elem range range_perm) in Hx as (dep & Hin & Hn & <-).
    assert (dep ∈ AddDependency index lib libver deplib depver) as Hin'
      by (apply elem_of_app; by left).
    pose proof (Versions_count range range_perm _ lib dep Hin' Hn) as Hcnt.
    destruct (Contains (Versions range
                (AddDependency index lib libver deplib depver) lib)
                (ver (library dep))) eqn:E.
    + apply Contains_true in E as [y [Hy Hyx]]. apply Contains_true.
      exists y. split; [done|].
      by rewrite (zo_eq_l (c:=ptrCompare) _ _ w Hyx).
    + apply countValue_zero in E. lia.
  - intros lib' Hne. unfold Versions, AddDependency. rewrite foldl_app.
    cbn [foldl library name]. by rewrite bool_decide_false by done.
Qed.

Lemma AddDependency_then_Versions_witness :
  countValue (version 7 3 0 0)
    (Versions inOrder (AddDependency cycleIndex "X" (version 7 3 0 0)
                                     "Z" (version 8 3 0 0)) "X")
  = 1%nat
  ∧ (∀ w, Contains (Versions inOrder cycleIndex "X") w = true →
          Contains (Versions inOrder
                      (AddDependency cycleIndex "X" (version 7 3 0 0)
                                     "Z" (version 8 3 0 0)) "X") w
          = true)
  ∧ (∀ lib', lib' ≠ "X" →
             Versions inOrder (AddDependency cycleIndex "X" (version 7 3 0 0)
                                             "Z" (version 8 3 0 0)) lib'
             = Versions inOrder cycleIndex lib').
Proof.
  exact (AddDependency_then_Versions inOrder inOrder_perm cycleIndex
           "X" (version 7 3 0 0) "Z" (version 8 3 0 0)).
Defined.

(** X8.  [Versions] returns the empty list exactly for a library that is
    the source of no edge, so for every library of the index made by
    [MakeLibraryIndex]; for such a library there is no candidate, whatever
    [avail] holds for other names, when [avail] has no entry for it. *)
Theorem Versions_empty_iff_no_source_edge
    (range : ∀ A : Type, list A → list A)
    (range_perm : ∀ A (l : list A), range A l ≡ₚ l)
    (index : LibraryIndex) (lib : LibraryName) :
  (Versions range index lib = []
   ↔ Forall (λ dep, name (library dep) ≠ lib) index)
  ∧ Versions range MakeLibraryIndex lib = []
  ∧ (Forall (λ dep, name (library dep) ≠ lib) index →
     ∀ avail, avail !! lib = None → candidates range index avail lib = []).
Proof.
  assert (Forall (λ dep, name (library dep) ≠ lib) index →
          Versions range index lib = []) as Hnil.
  { intros Hall. apply (Versions_nil range range_perm).
    by apply Forall_forall. }
  split; [|split].
  - split; [|done]. intros Hv. apply Forall_forall. intros dep Hin Hn.
    pose proof (Versions_count range range_perm index lib dep Hin Hn) as Hc.
    rewrite Hv in Hc. done.
  - apply (Versions_nil range range_perm). by intros dep ?%elem_of_nil.
  - intros Hall avail Havail. unfold candidates. rewrite Havail.
    by apply Hnil.
Qed.

Lemma Versions_empty_iff_no_source_edge_witness :
  (Versions inOrder leafIndex "X" = []
   ↔ Forall (λ dep, name (library dep) ≠ "X") leafIndex)
  ∧ Versions inOrder MakeLibraryIndex "X" = []
  ∧ (Forall (λ dep, name (library dep) ≠ "X") leafIndex →
     ∀ avail, avail !! "X" = None → candidates inOrder leafIndex avail "X" = []).
Proof.
  exact (Versions_empty_iff_no_source_edge inOrder inOrder_perm leafIndex "X").
Defined.

(** X9.  [Dependencies] looks at the value of the version it is given and
    not at the pointer: two versions that compare equal, be they distinct
    objects or differ in build metadata, have the same dependencies. *)
Theorem Dependencies_by_value
    (index : LibraryIndex) (lib : LibraryName) (v v' : VersionPtr)
    (Hv : ptrCompare v v' = 0) :
  Dependencies index lib v = Dependencies index lib v'.
Proof. by apply Dependencies_value_eq. Qed.

Lemma Dependencies_by_value_witness :
  Dependencies duplicateIndex "X" (version 1 1 0 0)
  = Dependencies duplicateIndex "X" version100b7.
Proof.
  exact (Dependencies_by_value duplicateIndex "X" (version 1 1 0 0)
           version100b7 eq_refl).
Defined.

(** X10.  [Versions] run on a store that holds the edges returns a pointer
    to a new list, the last object of the store, that holds the versions
    computed on values, sorted; the edges and every other object of the
    store are as they were. *)
Theorem Versions_on_store
    (range : ∀ A : Type, list A → list A)
    (h : list object) (index : nat) (deps : LibraryIndex)
    (lib : LibraryName)
    (Hindex : repIndex h index deps) :
  Store.Versions range index lib h
  = Some (length h, h ++ [VersionListObj (Versions range deps lib)]).
Proof.
  apply wp_result. by apply (wp_Versions range h index deps lib).
Qed.

Lemma Versions_on_store_witness :
  Store.Versions inOrder 0 "Y" sampleStore
  = Some (length sampleStore,
          sampleStore ++ [VersionListObj (Versions inOrder cycleIndex "Y")]).
Proof. exact (Versions_on_store inOrder sampleStore 0 cycleIndex "Y" eq_refl). Defined.

(** X11.  The check against the versions already chosen: when the first
    candidate of the library at the head of the worklist depends on a
    library that is chosen at a version its edges do not allow, the search
    fails there, with the nil configuration and the message "No
    compatible version of D" for such a library D; no other candidate is
    tried and the rest of the worklist is not looked at. *)
Theorem findFirst_conflict_with_chosen
    (sched : nat → ∀ A : Type, list A → list A)
    (sched_perm : ∀ d A (l : list A), sched d A l ≡ₚ l)
    (index : LibraryIndex) (mapped : Configuration) (avail : Available)
    (lib : LibraryName) (rest : list LibraryName)
    (v : VersionPtr) (vs : VersionList) (fuel depth : nat)
    (Hc : candidates (sched depth) index avail lib = v :: vs)
    (Hconflict : ∃ d vl choice,
        Dependencies index lib v !! d = Some vl
        ∧ entries mapped !! d = Some choice
        ∧ Contains vl choice = false) :
  ∃ d vl choice,
    Dependencies index lib v !! d = Some vl
    ∧ entries mapped !! d = Some choice
    ∧ Contains vl choice = false
    ∧ findFirst sched (S fuel) depth index mapped avail (lib :: rest)
      = Some (None, Some (errChosen d)).
Proof.
  destruct (tryVersion_conflict (sched depth) (sched_perm depth)
              index mapped avail lib rest v Hconflict)
    as (d & vl & choice & Hd & Hm & Hcont & Htry).
  exists d, vl, choice. repeat split; try done.
  cbn [findFirst].
  rewrite (findFirstStep_first_candidate _ _ _ _ _ _ _ _ Hc).
  by rewrite Htry.
Qed.

Lemma findFirst_conflict_with_chosen_witness :
  ∃ d vl choice,
    Dependencies cycleIndex "X" (version 1 1 0 0) !! d = Some vl
    ∧ entries (Some {[ "Y" := version 5 2 0 0 ]}) !! d = Some choice
    ∧ Contains vl choice = false
    ∧ findFirst inOrderSched 1 0 cycleIndex (Some {[ "Y" := version 5 2 0 0 ]})
                ∅ ["X"; "Z"]
      = Some (None, Some (errChosen d)).
Proof.
  apply (findFirst_conflict_with_chosen inOrderSched inOrderSched_perm
           cycleIndex (Some {[ "Y" := version 5 2 0 0 ]}) ∅ "X" ["Z"]
           (version 1 1 0 0) [] 0 0).
  - by vm_compute.
  - exists "Y", [version 2 1 0 0], (version 5 2 0 0).
    split; [by vm_compute|]. split; by vm_compute.
Defined.

(** X12.  The constraints an activation hands on, when its first candidate
    [v] agrees with the versions already chosen: a name keeps a constraint
    only if [avail] had one (the requirements of [v] on a name without an
    entry in [avail] are dropped), narrowed by what [v] allows if the name
    is not chosen yet; the entry of the library itself is removed.  If a
    name is left without versions the search fails with the nil
    configuration and the list of those names; else the activation assigns
    [v] and goes on with these constraints. *)
Theorem findFirst_constraints_handed_on
    (sched : nat → ∀ A : Type, list A → list A)
    (sched_perm : ∀ d A (l : list A), sched d A l ≡ₚ l)
    (index : LibraryIndex) (mapped : Configuration) (avail : Available)
    (lib : LibraryName) (rest : list LibraryName)
    (v : VersionPtr) (vs : VersionList) (fuel depth : nat)
    (Hc : candidates (sched depth) index avail lib = v :: vs)
    (Hagree : ∀ d vl choice,
        Dependencies index lib v !! d = Some vl →
        entries mapped !! d = Some choice → Contains vl choice = true) :
  ∃ intersection newlibs,
    (∀ n, intersection !! n = constraintsAfter index mapped avail lib v n)
    ∧ (∀ n, n ∈ Empty (sched depth) intersection ↔
            ∃ vl, constraintsAfter index mapped avail lib v n = Some vl
                  ∧ Len vl = 0%nat)
    ∧ (Empty (sched depth) intersection ≠ [] →
       findFirst sched (S fuel) depth index mapped avail (lib :: rest)
       = Some (None, Some (errEmpty (Empty (sched depth) intersection))))
    ∧ (Empty (sched depth) intersection = [] →
       findFirstStep (sched depth) index mapped avail (lib :: rest)
       = Call (Some (<[lib := v]> (entries mapped))) intersection
              (newlibs ++ rest)).
Proof.
  destruct (tryVersion_no_conflict (sched depth) (sched_perm depth)
              index mapped avail lib rest v Hagree)
    as (intersection & newlibs & Hi & _ & _ & Htry).
  exists intersection, newlibs. split; [done|]. split.
  { intros n. rewrite (elem_of_Empty _ (sched_perm depth)).
    by rewrite Hi. }
  split.
  - intros Hne. cbn [findFirst].
    rewrite (findFirstStep_first_candidate _ _ _ _ _ _ _ _ Hc), Htry.
    destruct (Empty (sched depth) intersection); done.
  - intros Hnil.
    rewrite (findFirstStep_first_candidate _ _ _ _ _ _ _ _ Hc), Htry.
    by rewrite Hnil.
Qed.

Lemma findFirst_constraints_handed_on_witness :
  ∃ intersection newlibs,
    (∀ n, intersection !! n
          = constraintsAfter cycleIndex None
              {[ "Y" := [version 5 2 0 0] ]} "X" (version 1 1 0 0) n)
    ∧ (∀ n, n ∈ Empty inOrder intersection ↔
            ∃ vl, constraintsAfter cycleIndex None
                    {[ "Y" := [version 5 2 0 0] ]} "X" (version 1 1 0 0) n
                  = Some vl ∧ Len vl = 0%nat)
    ∧ (Empty inOrder intersection ≠ [] →
       findFirst inOrderSched 1 0 cycleIndex None
                 {[ "Y" := [version 5 2 0 0] ]} ["X"]
       = Some (None, Some (errEmpty (Empty inOrder intersection))))
    ∧ (Empty inOrder intersection = [] →
       findFirstStep inOrder cycleIndex None
                     {[ "Y" := [version 5 2 0 0] ]} ["X"]
       = Call (Some (<[ "X" := version 1 1 0 0 ]> (entries None)))
              intersection (newlibs ++ [])).
Proof.
  apply (findFirst_constraints_handed_on inOrderSched inOrderSched_perm
           cycleIndex None {[ "Y" := [version 5 2 0 0] ]} "X" []
           (version 1 1 0 0) [] 0 0).
  - by vm_compute.
  - intros d vl choice _ Hm. cbn [entries default] in Hm.
    by rewrite lookup_empty in Hm.
Defined.

(** X13.  A configuration returned by [Resolve] assigns every library it
    was asked for; it assigns to a library a source version of an edge of
    that library than which the index has no newer one; and it assigns
    every library the assigned versions depend on.  It comes without an
    error. *)
Theorem Resolve_success_invariants
    (sched : nat → ∀ A : Type, list A → list A)
    (sched_perm : ∀ d A (l : list A), sched d A l ≡ₚ l)
    (index : LibraryIndex) (libraries : list LibraryName)
    (m : gmap LibraryName VersionPtr) (e : option string)
    (Hresolve : Resolve sched index libraries = Some (Some m, e)) :
  e = None
  ∧ (∀ l, l ∈ libraries → is_Some (m !! l))
  ∧ (∀ l v, m !! l = Some v →
            newest index l v
            ∧ ∀ d, is_Some (Dependencies index l v !! d) → is_Some (m !! d)).
Proof.
  apply (Resolve_cases sched sched_perm) in Hresolve
    as [(-> & Hnew & Hclosed & Hall & _)|[[=] _]].
  rewrite entries_Some in *. split; [done|]. split; [done|].
  intros l v Hl. split; [by apply Hnew|]. intros d. by apply Hclosed.
Qed.

Lemma Resolve_success_invariants_witness :
  (None : option string) = None
  ∧ (∀ l, l ∈ ["X"] →
          is_Some (({[ "X" := version 1 1 0 0; "Y" := version 5 2 0 0 ]}
                     : gmap LibraryName VersionPtr) !! l))
  ∧ (∀ l v, ({[ "X" := version 1 1 0 0; "Y" := version 5 2 0 0 ]}
               : gmap LibraryName VersionPtr) !! l = Some v →
            newest cycleIndex l v
            ∧ ∀ d, is_Some (Dependencies cycleIndex l v !! d) →
                   is_Some (({[ "X" := version 1 1 0 0;
                                "Y" := version 5 2 0 0 ]}
                              : gmap LibraryName VersionPtr) !! d)).
Proof.
  apply (Resolve_success_invariants inOrderSched inOrderSched_perm
           cycleIndex ["X"]).
  by vm_compute.
Defined.

(** X14.  An error returned by [Resolve] comes with the nil configuration
    and is one of two messages: "No compatible versions of L found" for a
    library L that was asked for or is depended upon and is the source of
    no edge, or "No compatible version of D" where the newest version of
    some library has edges to D none of which allows the newest version
    of D.  The message that lists the names left without versions is never
    returned by [Resolve]. *)
Theorem Resolve_failure_cases
    (sched : nat → ∀ A : Type, list A → list A)
    (sched_perm : ∀ d A (l : list A), sched d A l ≡ₚ l)
    (index : LibraryIndex) (libraries : list LibraryName)
    (c : Configuration) (msg : string)
    (Hresolve : Resolve sched index libraries = Some (c, Some msg)) :
  c = None
  ∧ ((∃ l, msg = errNotFound l
           ∧ (l ∈ libraries ∨ ∃ dep, dep ∈ index ∧ name (dependsOn dep) = l)
           ∧ ∀ dep, dep ∈ index → name (library dep) ≠ l)
     ∨ (∃ lib v d choice vl,
          msg = errChosen d
          ∧ newest index lib v ∧ newest index d choice
          ∧ Dependencies index lib v !! d = Some vl
          ∧ Contains vl choice = false))
  ∧ ∀ empty, msg ≠ errEmpty empty.
Proof.
  apply (Resolve_cases sched sched_perm) in Hresolve
    as [([=] & _)|[-> [(l & [= ->] & Hl & Hno)
                      |(lib & v & d & choice & vl & [= ->] & Hrest)]]].
  - split; [done|]. split; [left; by exists l|].
    intros empty. apply errNotFound_not_errEmpty.
  - split; [done|]. split; [right; by exists lib, v, d, choice, vl|].
    intros empty. apply errChosen_not_errEmpty.
Qed.

Lemma Resolve_failure_cases_witness :
  (None : Configuration) = None
  ∧ ((∃ l, "No compatible versions of Z found" = errNotFound l
           ∧ (l ∈ ["A"]
              ∨ ∃ dep, dep ∈ retryIndex ∧ name (dependsOn dep) = l)
           ∧ ∀ dep, dep ∈ retryIndex → name (library dep) ≠ l)
     ∨ (∃ lib v d choice vl,
          "No compatible versions of Z found" = errChosen d
          ∧ newest retryIndex lib v ∧ newest retryIndex d choice
          ∧ Dependencies retryIndex lib v !! d = Some vl
          ∧ Contains vl choice = false))
  ∧ ∀ empty, "No compatible versions of Z found" ≠ errEmpty empty.
Proof.
  apply (Resolve_failure_cases inOrderSched inOrderSched_perm
           retryIndex ["A"]).
  by vm_compute.
Defined.

(** X15.  A sufficient condition for [Resolve] to succeed: every library
    asked for or depended upon is the source of an edge, and the newest
    version of a library, where it has edges to another, allows the newest
    version of that one.  [Resolve] then returns a configuration that
    assigns the libraries asked for, at newest versions, and satisfies
    every edge between the versions it selects. *)
Theorem Resolve_newest_versions_compatible
    (sched : nat → ∀ A : Type, list A → list A)
    (sched_perm : ∀ d A (l : list A), sched d A l ≡ₚ l)
    (index : LibraryIndex) (libraries : list LibraryName)
    (Hasked : libraries ≠ [])
    (Hknown : ∀ l,
        l ∈ libraries ∨ (∃ dep, dep ∈ index ∧ name (dependsOn dep) = l) →
        ∃ dep, dep ∈ index ∧ name (library dep) = l)
    (Hcompatible : ∀ lib v d choice vl,
        newest index lib v → newest index d choice →
        Dependencies index lib v !! d = Some vl →
        Contains vl choice = true) :
  ∃ m, Resolve sched index libraries = Some (Some m, None)
       ∧ (∀ l, l ∈ libraries → is_Some (m !! l))
       ∧ (∀ l v, m !! l = Some v → newest index l v)
       ∧ complete index m = true.
Proof.
  destruct (findFirst_enough_fuel sched sched_perm index
              (S (measure index None libraries)) 0 None ∅ libraries)
    as [[c e] Hr]; [lia|].
  change (Resolve sched index libraries = Some (c, e)) in Hr.
  pose proof Hr as Hcases.
  apply (Resolve_cases sched sched_perm) in Hcases
    as [(-> & Hnew & _ & Hall & Hsome)
       |[-> [(l & -> & Hl & Hno)
            |(lib & v & d & choice & vl & -> & Hv & Hd & Hvl & Hcont)]]].
  - destruct (Hsome Hasked) as [m ->]. rewrite entries_Some in *.
    exists m. split; [done|]. split; [done|]. split; [done|].
    by apply complete_newest.
  - destruct (Hknown l Hl) as (dep & Hin & Hn). by destruct (Hno dep Hin).
  - rewrite (Hcompatible lib v d choice vl Hv Hd Hvl) in Hcont. done.
Qed.

Lemma Resolve_newest_versions_compatible_witness :
  ∃ m, Resolve inOrderSched selfIndex ["X"] = Some (Some m, None)
       ∧ (∀ l, l ∈ ["X"] → is_Some (m !! l))
       ∧ (∀ l v, m !! l = Some v → newest selfIndex l v)
       ∧ complete selfIndex m = true.
Proof.
  assert (∀ dep, dep ∈ selfIndex →
                 name (library dep) = "X" ∧ name (dependsOn dep) = "X"
                 ∧ (ver (library dep) = version 1 1 0 0
                    ∨ ver (library dep) = version 3 2 0 0)) as Hedges.
  { intros dep Hin. unfold selfIndex, AddDependency, MakeLibraryIndex in Hin.
    cbn [app] in Hin.
    apply elem_of_cons in Hin as [->|Hin]; [by auto|].
    apply elem_of_cons in Hin as [->|Hin]; [by auto|].
    by apply elem_of_nil in Hin. }
  assert ({| library := {| name := "X"; ver := version 3 2 0 0 |};
             dependsOn := {| name := "X"; ver := version 4 2 0 0 |} |}
          ∈ selfIndex) as Hlast by (right; left).
  assert (∀ l v, newest selfIndex l v → l = "X" ∧ v = version 3 2 0 0)
    as Hnewest.
  { intros l v [(dep & Hin & <- & <-) Hmax].
    destruct (Hedges dep Hin) as (Hn & _ & [Hv|Hv]); [|done].
    specialize (Hmax _ Hlast (eq_sym Hn)). rewrite Hv in Hmax.
    vm_compute in Hmax. by destruct Hmax. }
  apply (Resolve_newest_versions_compatible inOrderSched inOrderSched_perm
           selfIndex ["X"]).
  - done.
  - intros l [Hl|(dep & Hin & <-)].
    + apply list_elem_of_singleton in Hl as ->. by eexists.
    + exists dep. split; [done|]. destruct (Hedges dep Hin) as (-> & -> & _).
      done.
  - intros lib v d choice vl [-> ->]%Hnewest [-> ->]%Hnewest Hvl.
    vm_compute in Hvl. injection Hvl as <-. by vm_compute.
Defined.

(** X16.  Whatever the constraints and the assignment it starts from,
    [findFirst] never returns a configuration together with an error: it
    returns the nil configuration and an error, or no error and a
    configuration that assigns every library of its worklist and every
    library that was assigned when it was called. *)
Theorem findFirst_configuration_or_error
    (sched : nat → ∀ A : Type, list A → list A)
    (sched_perm : ∀ d A (l : list A), sched d A l ≡ₚ l)
    (index : LibraryIndex) (fuel depth : nat)
    (mapped : Configuration) (avail : Available) (rest : list LibraryName)
    (c : Configuration) (e : option string)
    (Hreturn : findFirst sched fuel depth index mapped avail rest
               = Some (c, e)) :
  (e = None
   ∧ (∀ l, l ∈ rest → is_Some (entries c !! l))
   ∧ (∀ l, is_Some (entries mapped !! l) → is_Some (entries c !! l)))
  ∨ (c = None ∧ is_Some e).
Proof. by eapply findFirst_result_shape. Qed.

Lemma findFirst_configuration_or_error_witness :
  ((None : option string) = None
   ∧ (∀ l, l ∈ ["Y"] →
           is_Some (entries (Some {[ "X" := version 1 1 0 0;
                                     "Y" := version 5 2 0 0 ]}) !! l))
   ∧ (∀ l, is_Some (entries (Some {[ "X" := version 1 1 0 0 ]}) !! l) →
           is_Some (entries (Some {[ "X" := version 1 1 0 0;
                                     "Y" := version 5 2 0 0 ]}) !! l)))
  ∨ (Some ({[ "X" := version 1 1 0 0; "Y" := version 5 2 0 0 ]}
             : gmap LibraryName VersionPtr) = None
     ∧ is_Some (None : option string)).
Proof.
  apply (findFirst_configuration_or_error inOrderSched inOrderSched_perm
           cycleIndex 3 0 (Some {[ "X" := version 1 1 0 0 ]})
           {[ "Y" := [version 5 2 0 0; version 3 1 0 0] ]} ["Y"]).
  by vm_compute.
Defined.

(** X17.  [Resolve] run on a store that holds the edges of the index
    returns; it allocates its empty constraint store and changes no object
    the store held; and its result is the result of [Resolve] on values:
    the same error, and a configuration that stands for the same map. *)
Theorem Resolve_on_store
    (sched : nat → ∀ A : Type, list A → list A)
    (sched_perm : ∀ d A (l : list A), sched d A l ≡ₚ l)
    (h : list object) (index : nat) (deps : LibraryIndex)
    (libraries : list LibraryName)
    (Hindex : repIndex h index deps) :
  ∃ config err h',
    Store.Resolve sched index libraries h = Some (Some (config, err), h')
    ∧ (∀ l, (l < length h)%nat → h' !! l = h !! l)
    ∧ h' !! length h = Some (AvailableObj ∅)
    ∧ ∃ c', Resolve sched deps libraries = Some (c', err)
            ∧ repConf h' config c'.
Proof.
  destruct (findFirst_enough_fuel sched sched_perm deps
              (S (measure deps None libraries)) 0 None ∅ libraries)
    as [[c' e'] Hr]; [lia|].
  assert (wp (Store.Resolve sched index libraries) h
            (λ r h', ∃ config,
               r = Some (config, e')
               ∧ (∀ l, (l < length h)%nat → h' !! l = h !! l)
               ∧ h' !! length h = Some (AvailableObj ∅)
               ∧ repConf h' config c'))
    as (r & h' & Hrun & config & -> & Hframe & Havail & Hconf).
  { unfold Store.Resolve. apply wp_bind, (wp_loadEdges _ _ _ _ Hindex).
    apply wp_bind, wp_alloc.
    set (h1 := h ++ [AvailableObj ∅]).
    assert (preserved (length h) h h1) as P1 by (apply preserved_alloc; lia).
    apply (wp_findFirst sched _ 0 h1 index deps None None (length h) ∅).
    - by eapply repIndex_preserved.
    - done.
    - exists ∅. split; [apply lookup_snoc_last|].
      intros k. rewrite !lookup_empty. constructor.
    - intros r h' P Hres. rewrite Hr in Hres.
      destruct r as [[config err]|]; [|done]. destruct Hres as [Hconf ->].
      exists config. split; [done|].
      assert (length h1 = S (length h)) as Hlen
        by (unfold h1; rewrite length_app; simpl; lia).
      split; [|split; [|done]].
      + intros l Hl. destruct P as [_ P]. rewrite P by lia.
        apply lookup_app_l. lia.
      + destruct P as [_ P]. rewrite P by lia. apply lookup_snoc_last. }
  exists config, e', h'. split; [done|]. split; [done|]. split; [done|].
  by exists c'.
Qed.

Lemma Resolve_on_store_witness :
  ∃ config err h',
    Store.Resolve inOrderSched 0 ["X"] sampleStore
    = Some (Some (config, err), h')
    ∧ (∀ l, (l < length sampleStore)%nat → h' !! l = sampleStore !! l)
    ∧ h' !! length sampleStore = Some (AvailableObj ∅)
    ∧ ∃ c', Resolve inOrderSched cycleIndex ["X"] = Some (c', err)
            ∧ repConf h' config c'.
Proof.
  exact (Resolve_on_store inOrderSched inOrderSched_perm sampleStore 0
           cycleIndex ["X"] eq_refl).
Defined.
